(** * Key-value service: UDF host, record stream readers, getValues hook,
      V1 adapter.

    A shallow embedding of the parts of the service that its specification
    makes claims about, with the claims proved (or refuted) against it.

    - [Absl]               absl::Status and absl::StatusOr
    - [Protobuf]           the protocol buffer messages that are passed around
    - [UdfClient]          UdfClientImpl (components/udf/noop_udf_client.cc)
    - [Binary64]           the double arithmetic of BuildShards
    - [RiegeliStreamIo]    public/data_loading/readers/riegeli_stream_io.h
    - [GetValuesHook]      GetValuesHookImpl (components/udf/hooks/get_values_hook.cc)
    - [GetValuesAdapter]   components/data_server/request_handler/get_values_adapter.cc
    - [GetValuesV2Handler] the V2 request handler, modelled from the spec
    - [GetValuesAdapterImpl] the rest of get_values_adapter.cc
    - [GetValuesHandler]   components/data_server/request_handler/get_values_handler.cc
    - [RetrievalRequestBuilder] public/applications/pas/retrieval_request_builder.cc
    - [GcpParameterClient] components/cloud_config/parameter_client_gcp.cc
    - [BlobStorage]        ListBlobs of the GCP and S3 blob storage clients
    - [RunQueryUdf]        tools/udf/sample_udf/run_query_udf.js
    - [ServerInitializer]  components/data_server/server/server_initializer.cc
    - [Fixtures]           concrete inputs for the examples

    The libraries the code calls into (the Roma sandbox, riegeli's record
    reader, the JSON and protobuf serialisers, the lookup behind the hook)
    are parameters of the definitions that use them. *)

From Stdlib Require Import ZArith List String Ascii Lia Bool.
From Stdlib Require Import DecimalString.
From stdpp Require Import gmap strings list sorting.

Local Open Scope string_scope.
Local Open Scope Z_scope.

Set Warnings "-register-all".

(** ** absl::Status and absl::StatusOr *)

Module Absl.

Inductive StatusCode :=
| kOk | kCancelled | kUnknown | kInvalidArgument | kDeadlineExceeded
| kNotFound | kAlreadyExists | kPermissionDenied | kResourceExhausted
| kFailedPrecondition | kAborted | kOutOfRange | kUnimplemented
| kInternal | kUnavailable | kDataLoss | kUnauthenticated.

(** [static_cast<int>(code)] *)
Definition code_value (c : StatusCode) : Z :=
  match c with
  | kOk => 0 | kCancelled => 1 | kUnknown => 2 | kInvalidArgument => 3
  | kDeadlineExceeded => 4 | kNotFound => 5 | kAlreadyExists => 6
  | kPermissionDenied => 7 | kResourceExhausted => 8
  | kFailedPrecondition => 9 | kAborted => 10 | kOutOfRange => 11
  | kUnimplemented => 12 | kInternal => 13 | kUnavailable => 14
  | kDataLoss => 15 | kUnauthenticated => 16
  end.

Record Status := MkStatus { code : StatusCode; message : string }.

Definition OkStatus : Status := MkStatus kOk "".
Definition InternalError (msg : string) : Status := MkStatus kInternal msg.
Definition InvalidArgumentError (msg : string) : Status :=
  MkStatus kInvalidArgument msg.

Definition ok (s : Status) : bool :=
  match code s with kOk => true | _ => false end.

(** [Status::Update]: keeps the first error. *)
Definition Update (s new_status : Status) : Status :=
  if ok s then new_status else s.

Inductive StatusOr (A : Type) :=
| Value (a : A)
| Error (s : Status).
Arguments Value {A} a.
Arguments Error {A} s.

Definition is_value {A} (r : StatusOr A) : bool :=
  match r with Value _ => true | Error _ => false end.

End Absl.
Import Absl.

(** ** Protocol buffer messages used by the service *)

Module Protobuf.

(** google.protobuf.Value.  A [number_value] carries the bit pattern of its
    double; nothing here computes with it.  [struct_value] lists the fields
    of a google.protobuf.Struct. *)
Inductive ProtoValue :=
| kind_not_set
| null_value
| number_value (bits : Z)
| string_value (s : string)
| bool_value (b : bool)
| struct_value (fields : list (string * ProtoValue))
| list_value (values : list ProtoValue).

Definition has_string_value (v : ProtoValue) : bool :=
  match v with string_value _ => true | _ => false end.

(** UDFArgument: [tags] is a google.protobuf.ListValue. *)
Record UDFArgument := {
  tags : list ProtoValue;
  data : ProtoValue;
}.

(** UDFExecutionMetadata: [request_metadata] is a google.protobuf.Struct. *)
Record UDFExecutionMetadata := {
  udf_interface_version : Z;
  request_metadata : list (string * ProtoValue);
}.

Definition set_udf_interface_version (v : Z) (m : UDFExecutionMetadata)
  : UDFExecutionMetadata :=
  {| udf_interface_version := v; request_metadata := request_metadata m |}.

(** The messages handed to [MessageToJsonString] by the UDF client. *)
Inductive Message :=
| MetadataMessage (m : UDFExecutionMetadata)
| ArgumentMessage (a : UDFArgument)
| ValueMessage (v : ProtoValue).

End Protobuf.
Import Protobuf.

(** ** The UDF client (UdfClientImpl) *)

Module UdfClient.

(** int64_t / uint64_t values are carried as [Z]; the only arithmetic on
    them here is the cast of the version number. *)
Definition static_cast_uint64 (v : Z) : Z := v mod 2 ^ 64.

Record CodeConfig := {
  js : string;
  wasm : string;
  udf_handler_name : string;
  logical_commit_time : Z;
  version : Z;
}.

(** Roma's [CodeObject] and [InvocationRequestStrInput]. *)
Record CodeObject := {
  co_id : string;
  co_version_num : Z;
  co_js : string;
  co_wasm : string;
}.

Record InvocationRequestStrInput := {
  ir_id : string;
  ir_version_num : Z;
  ir_handler_name : string;
  ir_input : list string;
}.

Definition kCodeObjectId : string := "id".
Definition kInvocationRequestId : string := "id".
Definition kUdfInterfaceVersion : Z := 1.

(** The mutable members of [UdfClientImpl]. *)
Record UdfClientImpl := {
  handler_name_ : string;
  logical_commit_time_ : Z;
  version_ : Z;
}.

(** Member initialisers: [logical_commit_time_ = -1], [version_ = 1]. *)
Definition new_client : UdfClientImpl :=
  {| handler_name_ := ""; logical_commit_time_ := -1; version_ := 1 |}.

(** What the sandbox did with one asynchronous request, as the caller
    observes it: the status returned by the dispatching call, whether the
    completion callback ran before the wait timed out, and what the
    callback received. *)
Record RomaOutcome (R : Type) := {
  dispatch_status : Status;
  notified : bool;
  response : StatusOr R;
}.
Arguments dispatch_status {R} _.
Arguments notified {R} _.
Arguments response {R} _.

Definition BuildCodeObject (js wasm : string) (version : Z) : CodeObject :=
  {| co_id := kCodeObjectId;
     co_version_num := static_cast_uint64 version;
     co_js := js;
     co_wasm := wasm |}.

Definition BuildInvocationRequest (self : UdfClientImpl) (keys : list string)
  : InvocationRequestStrInput :=
  {| ir_id := kInvocationRequestId;
     ir_version_num := static_cast_uint64 (version_ self);
     ir_handler_name := handler_name_ self;
     ir_input := keys |}.

(** Roma's [ResponseObject]. *)
Record ResponseObject := { ro_id : string; resp : string }.

(** The callback's effect on the shared [response_status]. *)
Definition response_status {R} (o : RomaOutcome R) : Status :=
  match response o with
  | Value _ => OkStatus
  | Error s => Update OkStatus s
  end.

(** The callback's effect on the shared [result]. *)
Definition result (o : RomaOutcome ResponseObject) : string :=
  match response o with
  | Value code_response => resp code_response
  | Error _ => ""
  end.

Section WithRoma.
(** [LoadCodeObj]: the sandbox, as seen through one load request. *)
Variable LoadCodeObj : CodeObject -> RomaOutcome unit.

Definition SetCodeObject (code_config : CodeConfig) (self : UdfClientImpl)
  : Status * UdfClientImpl :=
  (* Only update code if logical commit time is larger. *)
  if logical_commit_time_ self >=? logical_commit_time code_config
  then (OkStatus, self)
  else
    let code_object :=
      BuildCodeObject (js code_config) (wasm code_config)
                      (version code_config) in
    let o := LoadCodeObj code_object in
    if negb (ok (dispatch_status o)) then (dispatch_status o, self)
    else if negb (notified o)
    then (InternalError "Timed out setting UDF code object.", self)
    else if negb (ok (response_status o)) then (response_status o, self)
    else (OkStatus,
          {| handler_name_ := udf_handler_name code_config;
             logical_commit_time_ := logical_commit_time code_config;
             version_ := version code_config |}).

Definition SetWasmCodeObject (code_config : CodeConfig)
           (self : UdfClientImpl) : Status * UdfClientImpl :=
  let r := SetCodeObject code_config self in
  if negb (ok (fst r)) then r else (OkStatus, snd r).

(** [Execute]: the sandbox, as seen through one invocation request. *)
Variable Execute : InvocationRequestStrInput -> RomaOutcome ResponseObject.

(** [ExecuteCode(std::vector<std::string> keys)] *)
Definition ExecuteCodeKeys (keys : list string) (self : UdfClientImpl)
  : StatusOr string :=
  let invocation_request := BuildInvocationRequest self keys in
  let o := Execute invocation_request in
  if negb (ok (dispatch_status o)) then Error (dispatch_status o)
  else if negb (notified o)
  then Error (InternalError "Timed out waiting for UDF result.")
  else if negb (ok (response_status o)) then Error (response_status o)
  else Value (result o).

(** protobuf's JSON printer. *)
Variable MessageToJsonString : Message -> StatusOr string.

(** The object whose JSON stands for [arg] in the handler's arguments. *)
Definition arg_data (arg : UDFArgument) : Message :=
  match tags arg with
  | [] => ValueMessage (data arg)
  | _ :: _ => ArgumentMessage arg
  end.

(** The body of the loop over [arguments]; a failing serialisation
    returns its status at once. *)
Fixpoint SerializeArguments (arguments : list UDFArgument)
         (string_args : list string) : StatusOr (list string) :=
  match arguments with
  | [] => Value string_args
  | arg :: rest =>
      match MessageToJsonString (arg_data arg) with
      | Error json_status => Error json_status
      | Value json_arg => SerializeArguments rest (string_args ++ [json_arg])
      end
  end.

(** The [string_args] vector built by
    [ExecuteCode(UDFExecutionMetadata&&, arguments)]. *)
Definition BuildStringArgs (execution_metadata : UDFExecutionMetadata)
           (arguments : list UDFArgument) : StatusOr (list string) :=
  let execution_metadata :=
    set_udf_interface_version kUdfInterfaceVersion execution_metadata in
  match MessageToJsonString (MetadataMessage execution_metadata) with
  | Error json_status => Error json_status
  | Value json_metadata => SerializeArguments arguments [json_metadata]
  end.

Definition ExecuteCode (execution_metadata : UDFExecutionMetadata)
           (arguments : list UDFArgument) (self : UdfClientImpl)
  : StatusOr string :=
  match BuildStringArgs execution_metadata arguments with
  | Error json_status => Error json_status
  | Value string_args => ExecuteCodeKeys string_args self
  end.
End WithRoma.

(** What [SerializeArguments] appends: one JSON string per argument, that
    of [data] when the argument has no tags and that of the whole argument
    otherwise. *)
Definition serialized_as (to_json : Message -> StatusOr string)
           (arg : UDFArgument) (json : string) : Prop :=
  (tags arg = [] /\ to_json (ValueMessage (data arg)) = Value json)
  \/ (tags arg <> [] /\ to_json (ArgumentMessage arg) = Value json).

(** The load went through: dispatched, notified in time, response OK. *)
Definition load_succeeds (o : RomaOutcome unit) : bool :=
  ok (dispatch_status o) && notified o && ok (response_status o).

(** The state in which [c] is the installed code object. *)
Definition installed (c : CodeConfig) : UdfClientImpl :=
  {| handler_name_ := udf_handler_name c;
     logical_commit_time_ := logical_commit_time c;
     version_ := version c |}.

(** A run of [SetCodeObject] calls, each with the sandbox it meets. *)
Fixpoint SetCodeObjects
         (calls : list ((CodeObject -> RomaOutcome unit) * CodeConfig))
         (self : UdfClientImpl) : UdfClientImpl :=
  match calls with
  | [] => self
  | (roma, c) :: rest => SetCodeObjects rest (snd (SetCodeObject roma c self))
  end.

End UdfClient.


(** ** IEEE-754 binary64, as far as [BuildShards] uses it *)

Module Binary64.

(** A finite double is carried as the fraction [num / den] it denotes, with
    [den > 0].  The operations are the ones [BuildShards] applies:
    conversion from int64_t, division, [std::ceil] and the conversion back.
    Results are rounded to nearest, ties to even, on a 53-bit significand.
    Quotients of two int64_t values stay clear of overflow and of the
    subnormal range, so neither is modelled. *)
Record double := MkDouble { num : Z; den : Z }.

(** The integer nearest to [n / d], ties to even ([d > 0]). *)
Definition round_half_even (n d : Z) : Z :=
  let q := n / d in
  let r := n mod d in
  if 2 * r <? d then q
  else if d <? 2 * r then q + 1
  else if Z.even q then q else q + 1.

(** [x * 2 ^ k] *)
Definition scale (k : Z) (x : double) : double :=
  if 0 <=? k then MkDouble (num x * 2 ^ k) (den x)
  else MkDouble (num x) (den x * 2 ^ (- k)).

(** [floor (log2 x)] for [x > 0]. *)
Definition ilog2 (x : double) : Z :=
  let e0 := Z.log2 (num x) - Z.log2 (den x) in
  let y := scale (- e0) x in
  if den y <=? num y then e0 else e0 - 1.

(** Rounding of a positive fraction to 53 significant bits. *)
Definition round_pos (x : double) : double :=
  let e := ilog2 x in
  let y := scale (52 - e) x in
  scale (e - 52) (MkDouble (round_half_even (num y) (den y)) 1).

Definition round (x : double) : double :=
  if num x =? 0 then MkDouble 0 1
  else if num x <? 0
       then let r := round_pos (MkDouble (- num x) (den x)) in
            MkDouble (- num r) (den r)
       else round_pos x.

(** [(double)n] *)
Definition of_int64 (n : Z) : double := round (MkDouble n 1).

(** [a / b] for [b > 0] *)
Definition div (a b : double) : double :=
  round (MkDouble (num a * den b) (den a * num b)).

(** [std::ceil] *)
Definition ceil (x : double) : double :=
  MkDouble (- ((- num x) / den x)) 1.

(** [int64_t(x)]: truncation; the value is in range wherever it is used. *)
Definition to_int64 (x : double) : Z := Z.quot (num x) (den x).

End Binary64.

(** ** Record stream readers (riegeli_stream_io.h) *)

Module RiegeliStreamIo.

(** [%d] of [absl::StrFormat] *)
Definition FormatInt (z : Z) : string := NilZero.string_of_int (Z.to_int z).

Definition kDefaultMinShardSize : Z := 8 * 1024 * 1024.

Record Options := {
  num_worker_threads : Z;
  min_shard_size_bytes : Z;
}.

Record ShardRange := {
  start_pos : Z;
  end_pos : Z;
}.

Record ShardResult := {
  first_record_pos : Z;
  next_shard_first_record_pos : Z;
  num_records_read : Z;
}.

(** [RecordStreamSize], from what [tellg] says after seeking to the end. *)
Definition RecordStreamSize (tellg : Z) : StatusOr Z :=
  let size := tellg in
  if size =? -1
  then Error (InvalidArgumentError "Input streams do not support seeking.")
  else Value size.

(** [int64_t(std::ceil((double)stream_size / num_worker_threads))] *)
Definition ceil_of_quotient (stream_size num_worker_threads : Z) : Z :=
  Binary64.to_int64
    (Binary64.ceil
       (Binary64.div (Binary64.of_int64 stream_size)
                     (Binary64.of_int64 num_worker_threads))).

Definition shard_size_of (stream_size : Z) (options : Options) : Z :=
  Z.min stream_size
        (Z.max (ceil_of_quotient stream_size (num_worker_threads options))
               (min_shard_size_bytes options)).

(** The while loop of [BuildShards]; [None] when [fuel] iterations were
    not enough to leave it. *)
Fixpoint BuildShardsLoop (fuel : nat) (stream_size shard_size : Z)
         (shard_start_pos : Z) (shards : list ShardRange)
  : option (list ShardRange) :=
  match fuel with
  | O => None
  | S fuel =>
      if shard_start_pos <? stream_size then
        let shard_end_pos := shard_start_pos + shard_size in
        let shard_end_pos := Z.min shard_end_pos stream_size in
        BuildShardsLoop fuel stream_size shard_size (shard_end_pos + 1)
          (shards ++ [{| start_pos := shard_start_pos;
                         end_pos := shard_end_pos |}])
      else Some shards
  end.

(** [shards.empty() || shards.back().end_pos != stream_size] *)
Definition bad_shards (shards : list ShardRange) (stream_size : Z) : bool :=
  match last shards with
  | None => true
  | Some back => negb (end_pos back =? stream_size)
  end.

Definition BuildShards (fuel : nat) (tellg : Z) (options : Options)
  : option (StatusOr (list ShardRange)) :=
  match RecordStreamSize tellg with
  | Error s => Some (Error s)
  | Value stream_size =>
      if num_worker_threads options <? 1 then
        Some (Error (InvalidArgumentError
                       ("Num worker threads "
                          ++ FormatInt (num_worker_threads options)
                          ++ " must be at least 1.")))
      else
        (* The shard size must be at least min_shard_size_bytes and at
           most stream_size. *)
        let shard_size := shard_size_of stream_size options in
        match BuildShardsLoop fuel stream_size shard_size 0 [] with
        | None => None
        | Some shards =>
            if bad_shards shards stream_size
            then Some (Error (InternalError "Failed to generate shards."))
            else Some (Value shards)
        end
  end.

Definition SkippedRecordsError (prev curr : ShardResult) : Status :=
  InternalError
    ("Skipped some records between byte="
       ++ FormatInt (next_shard_first_record_pos prev)
       ++ " and byte=" ++ FormatInt (first_record_pos curr) ++ ".").

(** The loop of [ReadStreamRecords] over [shard_reader_tasks[1..]], each
    entry being what [get()] returns for that task. *)
Fixpoint JoinLoop (tasks : list (StatusOr ShardResult))
         (prev_shard_result : ShardResult) (total_records_read : Z)
  : Status :=
  match tasks with
  | [] => OkStatus
  | curr_shard_result :: tasks =>
      match curr_shard_result with
      | Error s => s
      | Value curr =>
          if next_shard_first_record_pos prev_shard_result
             <? first_record_pos curr
          then SkippedRecordsError prev_shard_result curr
          else JoinLoop tasks curr
                        (total_records_read + num_records_read curr)
      end
  end.

(** The part of [ReadStreamRecords] that follows the launch of the tasks;
    [first_task] is [shard_reader_tasks[0].get()]. *)
Definition JoinShardTasks (first_task : StatusOr ShardResult)
           (tasks : list (StatusOr ShardResult)) : Status :=
  match first_task with
  | Error s => s
  | Value prev_shard_result =>
      JoinLoop tasks prev_shard_result (num_records_read prev_shard_result)
  end.

(** Consecutive ranges from [start]: each range ends at
    [min (start + shard_size) stream_size] and the next one starts one byte
    past that end. *)
Fixpoint shard_chain (stream_size shard_size start : Z)
         (shards : list ShardRange) : Prop :=
  match shards with
  | [] => True
  | r :: rest =>
      start_pos r = start
      /\ end_pos r = Z.min (start + shard_size) stream_size
      /\ shard_chain stream_size shard_size (end_pos r + 1) rest
  end.

(** Two results next to each other in shard order, and the check
    [ReadStreamRecords] makes on them failing. *)
Definition adjacent (rs : list ShardResult) (i : nat)
           (prev curr : ShardResult) : Prop :=
  rs !! i = Some prev /\ rs !! S i = Some curr.

Definition gap (prev curr : ShardResult) : Prop :=
  next_shard_first_record_pos prev < first_record_pos curr.

Section WithRecords.
Variable RecordT : Type.

(** riegeli::RecordReader as the read loops see it: its position, the
    records [ReadRecord] will still yield (each with the position reached
    once it is read), its status, and the status it ends with when
    [ReadRecord] has nothing more to yield (OK at the end of the stream, an
    error when reading failed and was not recovered). *)
Record RecordReader := {
  pos : Z;
  pending : list (RecordT * Z);
  status : Status;
  end_status : Status;
}.

(** What a read hands back: the value returned, the records passed to the
    callback in order, and the statuses written to the error log. *)
Record ReadOutcome (A : Type) := {
  returned : A;
  delivered : list RecordT;
  logged : list Status;
}.
Arguments returned {A} _.
Arguments delivered {A} _.
Arguments logged {A} _.

(** A record callback may keep state: [callback seen record] is the status
    it returns on [record] after having been given the records [seen]. *)
Definition Callback := list RecordT -> RecordT -> Status.

Definition log_if_error (overall_status : Status) : list Status :=
  if negb (ok overall_status) then [overall_status] else [].

(** [RiegeliStreamReader::ReadStreamRecords]: the while loop, then the
    log line and the result. *)
Fixpoint ReadStreamRecordsLoop (callback : Callback)
         (records : list (RecordT * Z)) (end_status : Status)
         (overall_status : Status) (seen : list RecordT)
  : ReadOutcome Status :=
  match records with
  | (record, _) :: records =>
      (* ReadRecord returned true *)
      ReadStreamRecordsLoop callback records end_status
        (Update overall_status (callback seen record)) (seen ++ [record])
  | [] =>
      (* ReadRecord returned false: reader_.status() is the end status *)
      {| returned := end_status;
         delivered := seen;
         logged := log_if_error overall_status |}
  end.

Definition ReadStreamRecords (reader_ : RecordReader) (callback : Callback)
  : ReadOutcome Status :=
  ReadStreamRecordsLoop callback (pending reader_) (end_status reader_)
                        OkStatus [].

(** A seekable record stream: every call of the stream factory yields a
    stream over the same data, so a stream is what [tellg] reports at its
    end and what a fresh reader looks like after [Seek(start_pos)],
    together with whether the seek succeeded. *)
Record RecordStream := {
  tellg_at_end : Z;
  Seek : Z -> bool * RecordReader;
}.

(** The while loop of [ReadShardRecords]; returns the reader's status
    after the loop, [next_record_pos], [num_records_read],
    [overall_status] and the records delivered. *)
Fixpoint ReadShardRecordsLoop (record_callback : Callback) (shard_end_pos : Z)
         (records : list (RecordT * Z)) (reader_status end_status : Status)
         (next_record_pos num_records_read : Z)
         (overall_status : Status) (seen : list RecordT)
  : Status * Z * Z * Status * list RecordT :=
  if next_record_pos <=? shard_end_pos then
    match records with
    | (record, p) :: records =>
        ReadShardRecordsLoop record_callback shard_end_pos records
          reader_status end_status p (num_records_read + 1)
          (Update overall_status (record_callback seen record))
          (seen ++ [record])
    | [] =>
        (end_status, next_record_pos, num_records_read, overall_status, seen)
    end
  else
    (reader_status, next_record_pos, num_records_read, overall_status, seen).

Definition ReadShardRecords (stream : RecordStream) (shard : ShardRange)
           (record_callback : Callback) : ReadOutcome (StatusOr ShardResult) :=
  let '(result, record_reader) := Seek stream (start_pos shard) in
  if negb result then
    {| returned := Error (status record_reader);
       delivered := []; logged := [] |}
  else
    let next_record_pos := pos record_reader in
    let first := next_record_pos in
    let '(reader_status, next_record_pos, num_records_read,
          overall_status, seen) :=
      ReadShardRecordsLoop record_callback (end_pos shard)
        (pending record_reader) (status record_reader)
        (end_status record_reader) next_record_pos 0 OkStatus [] in
    {| returned :=
         if negb (ok reader_status) then Error reader_status
         else Value {| first_record_pos := first;
                       next_shard_first_record_pos := next_record_pos;
                       num_records_read := num_records_read |};
       delivered := seen;
       logged := log_if_error overall_status |}.

(** The shard tasks share the callback and run in parallel; [callback i]
    is the callback as task [i] experiences it. *)
Fixpoint RunShardTasks (stream : RecordStream) (callback : nat -> Callback)
         (i : nat) (shards : list ShardRange)
  : list (ReadOutcome (StatusOr ShardResult)) :=
  match shards with
  | [] => []
  | shard :: shards =>
      ReadShardRecords stream shard (callback i)
        :: RunShardTasks stream callback (S i) shards
  end.

(** [ConcurrentStreamRecordReader::ReadStreamRecords]: the status
    returned and what each shard task did.  Every task runs to its end
    whatever the status: the futures are joined when they go out of
    scope. *)
Definition ConcurrentReadStreamRecords (fuel : nat) (stream : RecordStream)
           (options : Options) (callback : nat -> Callback)
  : option (Status * list (ReadOutcome (StatusOr ShardResult))) :=
  match BuildShards fuel (tellg_at_end stream) options with
  | None => None
  | Some (Error s) => Some (s, [])
  | Some (Value []) => Some (OkStatus, [])
  | Some (Value (shard0 :: shards)) =>
      let task0 := ReadShardRecords stream shard0 (callback O) in
      let tasks := RunShardTasks stream callback 1%nat shards in
      Some (JoinShardTasks (returned task0) (map returned tasks),
            task0 :: tasks)
  end.

(** What a read is observed to do apart from logging. *)
Definition observed {A} (t : ReadOutcome A) : A * list RecordT :=
  (returned t, delivered t).

(** The result of the loop of [ReadShardRecords] without
    [overall_status]. *)
Definition without_overall (r : Status * Z * Z * Status * list RecordT)
  : Status * Z * Z * list RecordT :=
  let '(reader_status, next_record_pos, num_records_read, _, seen) := r in
  (reader_status, next_record_pos, num_records_read, seen).

(** A seek that fails leaves the reader with a non-OK status. *)
Definition sound_seek (stream : RecordStream) : Prop :=
  forall p, fst (Seek stream p) = false ->
            ok (status (snd (Seek stream p))) = false.

End WithRecords.

Arguments pos {RecordT} _.
Arguments pending {RecordT} _.
Arguments status {RecordT} _.
Arguments end_status {RecordT} _.
Arguments returned {RecordT A} _.
Arguments delivered {RecordT A} _.
Arguments logged {RecordT A} _.
Arguments tellg_at_end {RecordT} _.
Arguments Seek {RecordT} _ _.
Arguments ReadStreamRecords {RecordT} _ _.
Arguments ReadShardRecords {RecordT} _ _ _.
Arguments RunShardTasks {RecordT} _ _ _ _.
Arguments ConcurrentReadStreamRecords {RecordT} _ _ _ _.
Arguments observed {RecordT A} _.
Arguments without_overall {RecordT} _.
Arguments sound_seek {RecordT} _.

(** The range number [k] that the loop of [BuildShards] builds for shards
    of [shard_size] bytes, clipped at the end of the stream. *)
Definition nth_shard (stream_size shard_size : Z) (k : nat) : ShardRange :=
  {| start_pos := Z.of_nat k * (shard_size + 1);
     end_pos := Z.min (Z.of_nat k * (shard_size + 1) + shard_size) stream_size |}.

(** The position following a run of consecutive shards that starts at
    [start]. *)
Fixpoint chain_end (start : Z) (shards : list ShardRange) : Z :=
  match shards with
  | [] => start
  | r :: rest => chain_end (end_pos r + 1) rest
  end.

(** The first status of a list that is not OK, as the list of statuses
    that gets logged. *)
Definition first_error (statuses : list Status) : list Status :=
  match List.find (fun s => negb (ok s)) statuses with
  | Some s => [s]
  | None => []
  end.

Section Positioned.
Context {RecordT : Type}.

(** The statuses a callback returns when it is given [records] one by one
    after [seen]. *)
Fixpoint callback_statuses (callback : Callback RecordT) (seen : list RecordT)
         (records : list RecordT) : list Status :=
  match records with
  | [] => []
  | record :: records =>
      callback seen record
        :: callback_statuses callback (seen ++ [record]) records
  end.

(** A record file as the shard readers meet it: its records in stream
    order, each with the position it starts at, and the position reached
    after the last one.  [records_from records p] are the records from the
    first one that starts at or after [p] on, [records_before records p]
    the ones before the first one that starts at or after [p]. *)
Fixpoint records_from (records : list (RecordT * Z)) (p : Z)
  : list (RecordT * Z) :=
  match records with
  | [] => []
  | (record, q) :: rest =>
      if q <? p then records_from rest p else records
  end.

Fixpoint records_before (records : list (RecordT * Z)) (p : Z)
  : list (RecordT * Z) :=
  match records with
  | [] => []
  | (record, q) :: rest =>
      if q <? p then (record, q) :: records_before rest p else []
  end.

Definition pos_of (records : list (RecordT * Z)) (end_of_records : Z) : Z :=
  match records with
  | [] => end_of_records
  | (_, q) :: _ => q
  end.

Fixpoint pending_of (records : list (RecordT * Z)) (end_of_records : Z)
  : list (RecordT * Z) :=
  match records with
  | [] => []
  | (record, _) :: rest =>
      (record, pos_of rest end_of_records) :: pending_of rest end_of_records
  end.

(** The reader obtained by seeking to [p] in such a file: it stands at the
    first record that starts at or after [p], reads on from there without
    error, and after each record stands at the next one. *)
Definition reader_at (records : list (RecordT * Z)) (end_of_records p : Z)
  : RecordReader RecordT :=
  {| pos := pos_of (records_from records p) end_of_records;
     pending := pending_of (records_from records p) end_of_records;
     status := OkStatus;
     end_status := OkStatus |}.

(** A stream whose every seek lands on the next record of [records]. *)
Definition seeks_to_next_record (stream : RecordStream RecordT)
           (records : list (RecordT * Z)) (end_of_records : Z) : Prop :=
  forall p, Seek stream p = (true, reader_at records end_of_records p).

End Positioned.

End RiegeliStreamIo.

(** ** The getValues hook (get_values_hook.cc) *)

Module GetValuesHook.

Inductive OutputType := kString | kBinary.

(** kv_server's [Status] message. *)
Record StatusProto := { status_code : Z; status_message : string }.

(** [SingleLookupResult]: a oneof of a value and a status. *)
Inductive SingleLookupResult :=
| single_lookup_result_not_set
| lookup_value (v : string)
| lookup_status (s : StatusProto).

Record InternalLookupResponse := {
  kv_pairs : gmap string SingleLookupResult;
}.

(** [Value] of binary_get_values.proto: a oneof of data and a status. *)
Inductive BinaryValue :=
| binary_value_not_set
| binary_data (d : string)
| binary_status (s : StatusProto).

Record BinaryGetValuesResponse := {
  binary_kv_pairs : gmap string BinaryValue;
  binary_response_status : option StatusProto;
}.

(** Roma's [FunctionBindingIoProto]: its input and output oneofs. *)
Inductive IoInput :=
| input_not_set
| input_string (s : string)
| input_list_of_string (data : list string)
| input_map_of_string (m : list (string * string))
| input_bytes (b : string).

Inductive IoOutput :=
| output_not_set
| output_string (s : string)
| output_list_of_string (data : list string)
| output_map_of_string (m : list (string * string))
| output_bytes (b : string).

Record FunctionBindingIoProto := {
  io_input : IoInput;
  io_output : IoOutput;
}.

Definition has_input_list_of_string (io : FunctionBindingIoProto) : bool :=
  match io_input io with input_list_of_string _ => true | _ => false end.

Definition set_output (o : IoOutput) (io : FunctionBindingIoProto)
  : FunctionBindingIoProto :=
  {| io_input := io_input io; io_output := o |}.

(** nlohmann::json values. *)
Inductive Json :=
| JNull
| JBool (b : bool)
| JInt (z : Z)
| JFloat (bits : Z)
| JString (s : string)
| JArray (items : list Json)
| JObject (members : list (string * Json)).

Fixpoint members_set (key : string) (v : Json) (ms : list (string * Json))
  : list (string * Json) :=
  match ms with
  | [] => [(key, v)]
  | (k, x) :: ms =>
      if String.eqb k key then (k, v) :: ms
      else (k, x) :: members_set key v ms
  end.

Fixpoint members_get (key : string) (ms : list (string * Json)) : Json :=
  match ms with
  | [] => JNull
  | (k, x) :: ms => if String.eqb k key then x else members_get key ms
  end.

(** [j[key]] as an lvalue being read: null becomes an object, a missing
    member is created as null, and any other kind of value throws, which
    is [None]. *)
Definition json_at (key : string) (j : Json) : option Json :=
  match j with
  | JNull => Some JNull
  | JObject ms => Some (members_get key ms)
  | _ => None
  end.

(** [j[key] = v] *)
Definition json_set (key : string) (v : Json) (j : Json) : option Json :=
  match j with
  | JNull => Some (JObject [(key, v)])
  | JObject ms => Some (JObject (members_set key v ms))
  | _ => None
  end.

(** [j[outer][inner] = v] *)
Definition json_set2 (outer inner : string) (v : Json) (j : Json)
  : option Json :=
  member ← json_at outer j;
  member ← json_set inner v member;
  json_set outer member j.

Definition kOkStatusMessage : string := "ok".

Definition GetStatus (code : Z) (message : string) : StatusProto :=
  {| status_code := code; status_message := message |}.

(** [Lookup], the interface behind [lookup_]. *)
Record Lookup := {
  GetKeyValues : gset string -> StatusOr InternalLookupResponse;
}.

Record GetValuesHookImpl := {
  lookup_ : option Lookup;
  output_type_ : OutputType;
}.

(** [GetValuesHook::Create] *)
Definition Create (output_type : OutputType) : GetValuesHookImpl :=
  {| lookup_ := None; output_type_ := output_type |}.

(** [FinishInit]; the argument is a [unique_ptr], which may be null. *)
Definition FinishInit (lookup : option Lookup) (self : GetValuesHookImpl)
  : GetValuesHookImpl :=
  match lookup_ self with
  | None => {| lookup_ := lookup; output_type_ := output_type_ self |}
  | Some _ => self
  end.

Section WithSerializers.
(** [SerializeToArray] of a [BinaryGetValuesResponse]. *)
Variable SerializeToArray : BinaryGetValuesResponse -> string.
(** [dump] and [parse] of nlohmann::json; a discarded parse is [None]. *)
Variable json_dump : Json -> string.
Variable json_parse : string -> option Json.
(** protobuf's JSON printer on an [InternalLookupResponse]. *)
Variable MessageToJsonString : InternalLookupResponse -> StatusOr string.

Definition SetBinaryGetValuesAsBytes (binary_response : BinaryGetValuesResponse)
           (io : FunctionBindingIoProto) : FunctionBindingIoProto :=
  set_output (output_bytes (SerializeToArray binary_response)) io.

Definition SetStatusAsBytes (code : StatusCode) (message : string)
           (io : FunctionBindingIoProto) : FunctionBindingIoProto :=
  let binary_response :=
    {| binary_kv_pairs := ∅;
       binary_response_status := Some (GetStatus (code_value code) message) |}
  in
  SetBinaryGetValuesAsBytes binary_response io.

Definition binary_value_of (v : SingleLookupResult) : BinaryValue :=
  match v with
  | single_lookup_result_not_set => binary_value_not_set
  | lookup_status s =>
      binary_status (GetStatus (status_code s) (status_message s))
  | lookup_value d => binary_data d
  end.

Definition SetOutputAsBytes (response : InternalLookupResponse)
           (io : FunctionBindingIoProto) : FunctionBindingIoProto :=
  let binary_response :=
    {| binary_kv_pairs := binary_value_of <$> kv_pairs response;
       binary_response_status := Some (GetStatus 0 kOkStatusMessage) |} in
  SetBinaryGetValuesAsBytes binary_response io.

Definition SetStatusAsString (code : StatusCode) (message : string)
           (io : FunctionBindingIoProto) : option FunctionBindingIoProto :=
  status ← json_set "code" (JInt (code_value code)) JNull;
  status ← json_set "message" (JString message) status;
  Some (set_output (output_string (json_dump status)) io).

Definition SetOutputAsString (response : InternalLookupResponse)
           (io : FunctionBindingIoProto) : option FunctionBindingIoProto :=
  match MessageToJsonString response with
  | Error json_status =>
      SetStatusAsString (code json_status) (message json_status) io
  | Value kv_pairs_json =>
      match json_parse kv_pairs_json with
      | None =>
          SetStatusAsString kInvalidArgument
                            "Error while parsing JSON string." io
      | Some kv_pairs_json_object =>
          o ← json_set2 "status" "code" (JInt 0) kv_pairs_json_object;
          o ← json_set2 "status" "message" (JString kOkStatusMessage) o;
          Some (set_output (output_string (json_dump o)) io)
      end
  end.

Definition SetStatus (self : GetValuesHookImpl) (code : StatusCode)
           (message : string) (io : FunctionBindingIoProto)
  : option FunctionBindingIoProto :=
  match output_type_ self with
  | kString => SetStatusAsString code message io
  | kBinary => Some (SetStatusAsBytes code message io)
  end.

Definition SetOutput (self : GetValuesHookImpl)
           (response : InternalLookupResponse) (io : FunctionBindingIoProto)
  : option FunctionBindingIoProto :=
  match output_type_ self with
  | kString => SetOutputAsString response io
  | kBinary => Some (SetOutputAsBytes response io)
  end.

(** The output that carries the status [code], [message] and nothing
    else, in the encoding of [output_type]: the dumped JSON object with the
    members code and message, or the serialised [BinaryGetValuesResponse]
    with only its status set. *)
Definition status_output (output_type : OutputType) (code : StatusCode)
           (message : string) : IoOutput :=
  match output_type with
  | kString =>
      output_string
        (json_dump (JObject [("code", JInt (code_value code));
                             ("message", JString message)]))
  | kBinary =>
      output_bytes
        (SerializeToArray
           {| binary_kv_pairs := ∅;
              binary_response_status :=
                Some {| status_code := code_value code;
                        status_message := message |} |})
  end.

(** [operator()]: the io it leaves behind, with the key sets handed to
    [lookup_->GetKeyValues]; [None] is an exception leaving the call. *)
Definition call (self : GetValuesHookImpl) (io : FunctionBindingIoProto)
  : option (FunctionBindingIoProto * list (gset string)) :=
  match lookup_ self with
  | None =>
      io ← SetStatus self kInternal "getValues has not been initialized yet" io;
      Some (io, [])
  | Some lookup =>
      match io_input io with
      | input_list_of_string data =>
          let keys : gset string := list_to_set data in
          match GetKeyValues lookup keys with
          | Error s =>
              io ← SetStatus self (code s) (message s) io;
              Some (io, [keys])
          | Value response =>
              io ← SetOutput self response io;
              Some (io, [keys])
          end
      | _ =>
          io ← SetStatus self kInvalidArgument
                         "getValues input must be list of strings" io;
          Some (io, [])
      end
  end.

End WithSerializers.

(** The status object [SetOutputAsString] writes into a response that had
    none. *)
Definition ok_status_json : Json :=
  JObject [("code", JInt 0); ("message", JString kOkStatusMessage)].

(** A JSON value on which [j["status"]["code"] = ...] does not throw: null,
    or an object whose member status, if any, is null or an object. *)
Definition accepts_status (j : Json) : bool :=
  match json_at "status" j with
  | Some JNull | Some (JObject _) => true
  | _ => false
  end.

End GetValuesHook.

(** ** The V1 to V2 adapter (get_values_adapter.cc) *)

Module GetValuesAdapter.

(** application_pa's [ValueObject] and [KeyGroupOutput]. *)
Record ValueObject := { value : ProtoValue }.

Record KeyGroupOutput := {
  kgo_tags : list string;
  key_values : gmap string ValueObject;
}.

Section WithJsonParser.
(** protobuf's JSON parser into a google.protobuf.Value. *)
Variable JsonStringToMessage : string -> StatusOr ProtoValue.

Definition string_value_of (v : ProtoValue) : string :=
  match v with string_value s => s | _ => "" end.

(** The body of the loop of [ProcessKeyValues].  The key is a const member
    of the map entry, so [std::move(k)] copies it and both writes go to the
    same field. *)
Definition ProcessKeyValue (k : string) (v : ValueObject)
           (result_struct : gmap string ProtoValue) : gmap string ProtoValue :=
  let result_struct :=
    if has_string_value (value v) then
      match JsonStringToMessage (string_value_of (value v)) with
      | Value value_proto => <[k := value_proto]> result_struct
      | Error _ => result_struct
      end
    else result_struct in
  <[k := value v]> result_struct.

(** Add key value pairs to the result struct *)
Definition ProcessKeyValues (key_group_output : KeyGroupOutput)
           (result_struct : gmap string ProtoValue) : gmap string ProtoValue :=
  map_fold ProcessKeyValue result_struct (key_values key_group_output).

End WithJsonParser.

(** The conversion without the parse step: every key gets its raw value. *)
Definition WriteRawValues (key_group_output : KeyGroupOutput)
           (result_struct : gmap string ProtoValue) : gmap string ProtoValue :=
  map_fold (fun k v result_struct => <[k := value v]> result_struct)
           result_struct (key_values key_group_output).

End GetValuesAdapter.

(** ** The V2 request handler *)

Module GetValuesV2Handler.

Record RequestPartition := {
  id : Z;
  compression_group_id : Z;
  arguments : list UDFArgument;
}.

Record GetValuesRequest := {
  metadata : list (string * ProtoValue);
  partitions : list RequestPartition;
}.

Inductive PartitionOutput :=
| string_output (s : string)
| partition_status (code : Z) (message : string).

Record ResponsePartition := {
  rp_id : Z;
  rp_output : PartitionOutput;
}.

Inductive ProtocolType := kPlain | kBinaryHttp | kObliviousHttp.

(** What a caller gets back: the transport status, for the two framed
    protocols the status code of the Binary HTTP response, and the
    per-partition outputs. *)
Record Reply := {
  transport_status : Status;
  bhttp_response_code : option Z;
  response_partitions : list ResponsePartition;
}.

Section WithCollaborators.
(** The UDF client behind the handler. *)
Variable ExecuteCode : UDFExecutionMetadata -> list UDFArgument -> StatusOr string.
(** The codec: recovering the JSON body from the body on the wire, and
    parsing the JSON body into a request. *)
Variable Decapsulate : ProtocolType -> string -> StatusOr string.
Variable JsonStringToMessage : string -> StatusOr GetValuesRequest.

(** Modelled from the spec: the per-partition step of the request handler
    (get_values_v2_handler.cc is not among the sources; its test is).
    Build the metadata from the request metadata, call the UDF client, emit
    the id with the string output on success and with the status on
    failure. *)
Definition ProcessOnePartition (request_metadata : list (string * ProtoValue))
           (req_partition : RequestPartition) : ResponsePartition :=
  let udf_metadata :=
    {| udf_interface_version := 0; request_metadata := request_metadata |} in
  match ExecuteCode udf_metadata (arguments req_partition) with
  | Value output => {| rp_id := id req_partition;
                       rp_output := string_output output |}
  | Error s => {| rp_id := id req_partition;
                  rp_output := partition_status (code_value (code s))
                                                (message s) |}
  end.

(** Modelled from the spec: the handler on a parsed request.  Partitions
    are independent; a request without partitions is an internal error
    (the test NoPartition expects the code, the message is left empty). *)
Definition GetValues (request : GetValuesRequest)
  : Status * list ResponsePartition :=
  match partitions request with
  | [] => (InternalError "", [])
  | ps => (OkStatus, map (ProcessOnePartition (metadata request)) ps)
  end.

(** Modelled from the spec: the response code mapping of the Binary HTTP
    layer. *)
Definition BhttpResponseCode (s : Status) : Z :=
  match code s with
  | kOk => 200
  | kInvalidArgument => 400
  | kPermissionDenied => 403
  | kNotFound => 404
  | _ => 500
  end.

(** Modelled from the spec: the handler on a JSON body. *)
Definition GetValuesHttp (body : string) : Status * list ResponsePartition :=
  match JsonStringToMessage body with
  | Error s => (s, [])
  | Value request => GetValues request
  end.

(** Modelled from the spec: opening the envelope of a request.  A
    plaintext body is the JSON request itself; a framed body is
    decapsulated by the codec. *)
Definition OpenEnvelope (protocol : ProtocolType) (raw_body : string)
  : StatusOr string :=
  match protocol with
  | kPlain => Value raw_body
  | _ => Decapsulate protocol raw_body
  end.

(** Modelled from the spec: the three entry points.  A plaintext request
    returns the handler's status.  A framed request whose envelope cannot
    be opened fails at the transport; one whose envelope opens succeeds at
    the transport and carries the handler's status as the response code of
    the Binary HTTP layer. *)
Definition Handle (protocol : ProtocolType) (raw_body : string) : Reply :=
  match OpenEnvelope protocol raw_body with
  | Error s =>
      {| transport_status := s; bhttp_response_code := None;
         response_partitions := [] |}
  | Value body =>
      let '(s, ps) := GetValuesHttp body in
      match protocol with
      | kPlain =>
          {| transport_status := s; bhttp_response_code := None;
             response_partitions := ps |}
      | _ =>
          {| transport_status := OkStatus;
             bhttp_response_code := Some (BhttpResponseCode s);
             response_partitions := ps |}
      end
  end.

End WithCollaborators.

End GetValuesV2Handler.

(** ** The rest of the V1 to V2 adapter (get_values_adapter.cc) *)

Module GetValuesAdapterImpl.
Import GetValuesAdapter.
Import GetValuesV2Handler.

Definition kKeysTag : string := "keys".
Definition kRenderUrlsTag : string := "renderUrls".
Definition kAdComponentRenderUrlsTag : string := "adComponentRenderUrls".
Definition kKvInternalTag : string := "kvInternal".
Definition kCustomTag : string := "custom".

(** v1::GetValuesRequest *)
Record V1Request := {
  subkey : string;
  keys : list string;
  render_urls : list string;
  ad_component_render_urls : list string;
  kv_internal : list string;
}.

(** v1::GetValuesResponse: four google.protobuf.Struct. *)
Record V1Response := {
  response_keys : gmap string ProtoValue;
  response_render_urls : gmap string ProtoValue;
  response_ad_component_render_urls : gmap string ProtoValue;
  response_kv_internal : gmap string ProtoValue;
}.

(** v2::ResponsePartition as far as the adapter reads it: the oneof of a
    string output and a status, which may be unset. *)
Inductive SinglePartition :=
| partition_output_not_set
| partition_string_output (s : string)
| partition_status_output (code : Z) (message : string).

(** v2::GetValuesResponse: [None] when [single_partition] is not set. *)
Record V2Response := { single_partition : option SinglePartition }.

(** grpc::Status; its codes are numbered as those of absl. *)
Record GrpcStatus := { error_code : StatusCode; error_message : string }.

Definition grpc_ok (s : GrpcStatus) : bool :=
  match error_code s with kOk => true | _ => false end.

(** [absl::StrCat] of an int. *)
Definition StrCatInt (z : Z) : string := NilZero.string_of_int (Z.to_int z).

Definition BuildArgument (keys : list string) (namespace_tag : string)
  : UDFArgument :=
  {| tags := [string_value kCustomTag; string_value namespace_tag];
     data := list_value (map string_value keys) |}.

(** The arguments added to the partition for one field of the request. *)
Definition add_arguments (field : list string) (namespace_tag : string)
           (arguments : list UDFArgument) : list UDFArgument :=
  if (0 <? Z.of_nat (length field))
  then arguments ++ [BuildArgument field namespace_tag]
  else arguments.

Definition BuildV2Request (v1_request : V1Request) : GetValuesRequest :=
  let arguments := add_arguments (keys v1_request) kKeysTag [] in
  let arguments :=
    add_arguments (render_urls v1_request) kRenderUrlsTag arguments in
  let arguments :=
    add_arguments (ad_component_render_urls v1_request)
                  kAdComponentRenderUrlsTag arguments in
  let arguments :=
    add_arguments (kv_internal v1_request) kKvInternalTag arguments in
  {| metadata := [("hostname", string_value (subkey v1_request))];
     partitions := [ {| id := 0; compression_group_id := 0;
                        arguments := arguments |} ] |}.

(** The loop of [FindNamespace] over the tags. *)
Fixpoint FindNamespaceLoop (tags : list string) (has_custom_tag : bool)
         (maybe_namespace_tag : string) : bool * string :=
  match tags with
  | [] => (has_custom_tag, maybe_namespace_tag)
  | tag :: tags =>
      if String.eqb tag kCustomTag
      then FindNamespaceLoop tags true maybe_namespace_tag
      else FindNamespaceLoop tags has_custom_tag tag
  end.

(** Find the namespace tag that is paired with the "custom" tag. *)
Definition FindNamespace (tags : list string) : StatusOr string :=
  if negb (Z.of_nat (length tags) =? 2) then
    Error (InvalidArgumentError
             ("Expected 2 tags, found " ++ StrCatInt (Z.of_nat (length tags))))
  else
    let '(has_custom_tag, maybe_namespace_tag) :=
      FindNamespaceLoop tags false "" in
    if has_custom_tag then Value maybe_namespace_tag
    else Error (InvalidArgumentError "No namespace tags found").

Section WithCollaborators.
(** protobuf's JSON parser into a google.protobuf.Value. *)
Variable JsonStringToMessage : string -> StatusOr ProtoValue.
(** application_pa::KeyGroupOutputsFromJson *)
Variable KeyGroupOutputsFromJson : string -> StatusOr (list KeyGroupOutput).
(** [absl::Status(static_cast<absl::StatusCode>(code), message)] *)
Variable StatusFromCode : Z -> string -> Status.
(** privacy_sandbox::server_common::FromAbslStatus *)
Variable FromAbslStatus : Status -> GrpcStatus.
(** The V2 handler behind the adapter: its status and the response it
    fills in. *)
Variable V2GetValues : GetValuesRequest -> GrpcStatus * V2Response.

Definition ProcessKeyGroupOutput (key_group_output : KeyGroupOutput)
           (v1_response : V1Response) : V1Response :=
  (* Ignore if no valid namespace tag that is paired with a 'custom' tag *)
  match FindNamespace (kgo_tags key_group_output) with
  | Error _ => v1_response
  | Value tag_namespace =>
      let v1_response :=
        if String.eqb tag_namespace kKeysTag then
          {| response_keys :=
               ProcessKeyValues JsonStringToMessage key_group_output
                                (response_keys v1_response);
             response_render_urls := response_render_urls v1_response;
             response_ad_component_render_urls :=
               response_ad_component_render_urls v1_response;
             response_kv_internal := response_kv_internal v1_response |}
        else v1_response in
      let v1_response :=
        if String.eqb tag_namespace kRenderUrlsTag then
          {| response_keys := response_keys v1_response;
             response_render_urls :=
               ProcessKeyValues JsonStringToMessage key_group_output
                                (response_render_urls v1_response);
             response_ad_component_render_urls :=
               response_ad_component_render_urls v1_response;
             response_kv_internal := response_kv_internal v1_response |}
        else v1_response in
      let v1_response :=
        if String.eqb tag_namespace kAdComponentRenderUrlsTag then
          {| response_keys := response_keys v1_response;
             response_render_urls := response_render_urls v1_response;
             response_ad_component_render_urls :=
               ProcessKeyValues JsonStringToMessage key_group_output
                                (response_ad_component_render_urls v1_response);
             response_kv_internal := response_kv_internal v1_response |}
        else v1_response in
      if String.eqb tag_namespace kKvInternalTag then
        {| response_keys := response_keys v1_response;
           response_render_urls := response_render_urls v1_response;
           response_ad_component_render_urls :=
             response_ad_component_render_urls v1_response;
           response_kv_internal :=
             ProcessKeyValues JsonStringToMessage key_group_output
                              (response_kv_internal v1_response) |}
      else v1_response
  end.

(** Converts a v2 response into v1 response. *)
Definition ConvertToV1Response (v2_response : V2Response)
           (v1_response : V1Response) : Status * V1Response :=
  match single_partition v2_response with
  | None =>
      (InternalError
         "Bug in KV server! response does not have single_partition set for V1 response.",
       v1_response)
  | Some (partition_status_output code message) =>
      (StatusFromCode code message, v1_response)
  | Some partition =>
      let string_output :=
        match partition with
        | partition_string_output s => s
        | _ => ""
        end in
      match KeyGroupOutputsFromJson string_output with
      | Error s => (s, v1_response)
      | Value outputs =>
          (OkStatus,
           fold_left (fun r key_group_output =>
                        ProcessKeyGroupOutput key_group_output r)
                     outputs v1_response)
      end
  end.

Definition CallV2Handler (v1_request : V1Request) (v1_response : V1Response)
  : GrpcStatus * V1Response :=
  let v2_request := BuildV2Request v1_request in
  let '(status, v2_response) := V2GetValues v2_request in
  if negb (grpc_ok status) then (status, v1_response)
  else
    let '(s, v1_response) := ConvertToV1Response v2_response v1_response in
    (FromAbslStatus s, v1_response).

End WithCollaborators.

(** The field of a response that stands for a namespace tag, if any. *)
Definition response_field (tag_namespace : string) (r : V1Response)
  : option (gmap string ProtoValue) :=
  if String.eqb tag_namespace kKeysTag then Some (response_keys r)
  else if String.eqb tag_namespace kRenderUrlsTag
  then Some (response_render_urls r)
  else if String.eqb tag_namespace kAdComponentRenderUrlsTag
  then Some (response_ad_component_render_urls r)
  else if String.eqb tag_namespace kKvInternalTag
  then Some (response_kv_internal r)
  else None.

Definition empty_response : V1Response :=
  {| response_keys := ∅; response_render_urls := ∅;
     response_ad_component_render_urls := ∅; response_kv_internal := ∅ |}.

End GetValuesAdapterImpl.

(** ** The V1 request handler (get_values_handler.cc) *)

Module GetValuesHandler.
Import GetValuesAdapterImpl.

Definition kCacheKeyHit : string := "CacheKeyHit".
Definition kCacheKeyMiss : string := "CacheKeyMiss".

(** [absl::StrSplit(text, delimiter)] with a single character as the
    delimiter: the pieces between the delimiters, empty ones included, so
    that the empty text has the one piece "". *)
Fixpoint StrSplit (text : string) (delimiter : ascii) : list string :=
  match text with
  | EmptyString => [""]
  | String c rest =>
      if Ascii.eqb c delimiter then "" :: StrSplit rest delimiter
      else match StrSplit rest delimiter with
           | piece :: pieces => String c piece :: pieces
           | [] => [String c ""]
           end
  end.

(** grpc::Status::OK *)
Definition GrpcOk : GrpcStatus := {| error_code := kOk; error_message := "" |}.

Section WithCollaborators.
(** public/constants.h *)
Variable kQueryArgDelimiter : ascii.
(** [Cache::GetKeyValuePairs] *)
Variable GetKeyValuePairs : gset string -> gmap string string.
(** protobuf's JSON parser into a google.protobuf.Value. *)
Variable JsonStringToMessage : string -> StatusOr ProtoValue.
(** [GetValuesAdapter::CallV2Handler] *)
Variable CallV2Handler : V1Request -> V1Response -> GrpcStatus * V1Response.

Definition GetKeys (keys : list string) : gset string :=
  list_to_set (concat (map (fun key => StrSplit key kQueryArgDelimiter) keys)).

(** The body of the loop of [ProcessKeys] over the pairs found. *)
Definition ProcessKey (k v : string) (result_struct : gmap string ProtoValue)
  : gmap string ProtoValue :=
  match JsonStringToMessage v with
  | Value value_proto => <[k := value_proto]> result_struct
  | Error _ =>
      (* If string is not a Json string that can be parsed into Value proto,
         simply set it as pure string value to the response. *)
      <[k := string_value v]> result_struct
  end.

(** [ProcessKeys]: the result struct, the key sets handed to the cache and
    the event counters incremented. *)
Definition ProcessKeys (keys : list string)
           (result_struct : gmap string ProtoValue)
  : gmap string ProtoValue * list (gset string) * list string :=
  match keys with
  | [] => (result_struct, [], [])
  | _ :: _ =>
      let kv_pairs := GetKeyValuePairs (GetKeys keys) in
      let event :=
        if decide (kv_pairs = ∅) then kCacheKeyMiss else kCacheKeyHit in
      (map_fold ProcessKey result_struct kv_pairs, [GetKeys keys], [event])
  end.

(** What a call of [GetValues] leaves behind: the status, the response, the
    cache lookups and the event counters incremented, in order. *)
Record Outcome := {
  grpc_status : GrpcStatus;
  v1_response : V1Response;
  cache_lookups : list (gset string);
  events : list string;
}.

Definition GetValues (use_v2_ : bool) (request : V1Request)
           (response : V1Response) : Outcome :=
  if use_v2_ then
    let '(status, response) := CallV2Handler request response in
    {| grpc_status := status; v1_response := response;
       cache_lookups := []; events := [] |}
  else
    let '(kv_internal', lookups1, events1) :=
      if negb (0 =? Z.of_nat (length (kv_internal request)))
      then ProcessKeys (kv_internal request) (response_kv_internal response)
      else (response_kv_internal response, [], []) in
    let '(keys', lookups2, events2) :=
      if negb (0 =? Z.of_nat (length (keys request)))
      then ProcessKeys (keys request) (response_keys response)
      else (response_keys response, [], []) in
    let '(render_urls', lookups3, events3) :=
      if negb (0 =? Z.of_nat (length (render_urls request)))
      then ProcessKeys (render_urls request) (response_render_urls response)
      else (response_render_urls response, [], []) in
    let '(ad_component_render_urls', lookups4, events4) :=
      if negb (0 =? Z.of_nat (length (ad_component_render_urls request)))
      then ProcessKeys (ad_component_render_urls request)
                       (response_ad_component_render_urls response)
      else (response_ad_component_render_urls response, [], []) in
    {| grpc_status := GrpcOk;
       v1_response :=
         {| response_keys := keys';
            response_render_urls := render_urls';
            response_ad_component_render_urls := ad_component_render_urls';
            response_kv_internal := kv_internal' |};
       cache_lookups := lookups1 ++ lookups2 ++ lookups3 ++ lookups4;
       events := events1 ++ events2 ++ events3 ++ events4 |}.

End WithCollaborators.

(** The value [ProcessKeys] stores for a cached string. *)
Definition stored_value (JsonStringToMessage : string -> StatusOr ProtoValue)
           (v : string) : ProtoValue :=
  match JsonStringToMessage v with
  | Value value_proto => value_proto
  | Error _ => string_value v
  end.

End GetValuesHandler.

(** ** The retrieval request builder (retrieval_request_builder.cc) *)

Module RetrievalRequestBuilder.
Import GetValuesV2Handler.

(** v2::GetValuesRequest as far as the builder fills it in. *)
Record RetrievalRequest := {
  client_version : string;
  retrieval_partitions : list RequestPartition;
}.

Definition kClient : string := "Retrieval.20231018".

(** An argument on which only [mutable_data()] was called, if at all. *)
Definition untagged (data : ProtoValue) : UDFArgument :=
  {| tags := []; data := data |}.

(** The loop over [device_metadata]: the first entry makes the data a
    struct, every entry sets one string field of it. *)
Definition device_metadata_data (device_metadata : gmap string string)
  : ProtoValue :=
  match map_to_list device_metadata with
  | [] => kind_not_set
  | entries =>
      struct_value (map (fun kv => (fst kv, string_value (snd kv))) entries)
  end.

(** The loop over [optional_ad_ids]: the first id makes the data a list,
    every id adds one string to it. *)
Definition ad_ids_data (optional_ad_ids : list string) : ProtoValue :=
  match optional_ad_ids with
  | [] => kind_not_set
  | ids => list_value (map string_value ids)
  end.

Definition BuildRetrievalRequest (protected_signals : string)
           (device_metadata : gmap string string)
           (contextual_signals : string) (optional_ad_ids : list string)
  : RetrievalRequest :=
  {| client_version := kClient;
     retrieval_partitions :=
       [ {| id := 0; compression_group_id := 0;
            arguments :=
              [ untagged (string_value protected_signals);
                untagged (device_metadata_data device_metadata);
                untagged (string_value contextual_signals);
                untagged (ad_ids_data optional_ad_ids) ] |} ] |}.

End RetrievalRequestBuilder.

(** ** The GCP parameter client (parameter_client_gcp.cc) *)

Module GcpParameterClient.

Definition UnavailableError (msg : string) : Status := MkStatus kUnavailable msg.

(** What the CPIO parameter client does with one [GetParameter] request:
    the execution result it returns, and the result and parameter value it
    hands to the callback, if it ever calls it. *)
Record ExecutionResult := { Successful : bool; status_code : Z }.

Record GetParameterOutcome := {
  execution_result : ExecutionResult;
  callback : option (ExecutionResult * string);
}.

Section WithCpio.
Variable CpioGetParameter : string -> GetParameterOutcome.
Variable GetErrorMessage : Z -> string.
(** absl's number and boolean parsers. *)
Variable SimpleAtoi : string -> option Z.
Variable SimpleAtob : string -> option bool.

(** [None]: the callback never runs and [counter.Wait()] does not
    return. *)
Definition GetParameter (parameter_name : string) : option (StatusOr string) :=
  let o := CpioGetParameter parameter_name in
  match callback o with
  | None => None
  | Some (result, parameter_value) =>
      let param_value :=
        if negb (Successful result) then ""
        else if negb (String.eqb parameter_value "EMPTY_STRING")
             then parameter_value
             else "" in
      if negb (Successful (execution_result o))
      then Some (Error (UnavailableError
                          (GetErrorMessage (status_code (execution_result o)))))
      else Some (Value param_value)
  end.

Definition GetInt32Parameter (parameter_name : string)
  : option (StatusOr Z) :=
  match GetParameter parameter_name with
  | None => None
  | Some (Error s) => Some (Error s)
  | Some (Value parameter) =>
      match SimpleAtoi parameter with
      | None =>
          Some (Error (InvalidArgumentError
                         ("Failed converting " ++ parameter_name
                            ++ " parameter: " ++ parameter ++ " to int32.")))
      | Some parameter_int32 => Some (Value parameter_int32)
      end
  end.

Definition GetBoolParameter (parameter_name : string)
  : option (StatusOr bool) :=
  match GetParameter parameter_name with
  | None => None
  | Some (Error s) => Some (Error s)
  | Some (Value parameter) =>
      match SimpleAtob parameter with
      | None =>
          Some (Error (InvalidArgumentError
                         ("Failed converting " ++ parameter_name
                            ++ " parameter: " ++ parameter ++ " to bool.")))
      | Some parameter_bool => Some (Value parameter_bool)
      end
  end.

End WithCpio.
End GcpParameterClient.

(** ** Listing blobs (blob_storage_client_gcp.cc, blob_storage_client_s3.cc) *)

Module BlobStorage.

Record DataLocation := { bucket : string; key : string }.
Record ListOptions := { prefix : string; start_after : string }.

(** [operator<=] of std::string: bytes compared as unsigned values. *)
Definition string_le (a b : string) : Prop := String.leb a b = true.

#[export] Instance string_le_dec (a b : string) : Decision (string_le a b) :=
  decide (String.leb a b = true).

(** [std::sort] of a vector of strings. *)
Definition sort (keys : list string) : list string := merge_sort string_le keys.

Module Gcp.
Section WithClient.
(** [client_->ListObjects(bucket, Prefix, StartOffset)]: the names of the
    objects it yields, or the error met in place of one. *)
Variable ListObjects : string -> string -> string -> list (StatusOr string).

(** The loop of [ListBlobs] over the reader. *)
Fixpoint ListBlobsLoop (list_object_reader : list (StatusOr string))
         (start_after : string) (keys : list string) : list string :=
  match list_object_reader with
  | [] => keys
  | Error _ :: rest => ListBlobsLoop rest start_after keys
  | Value name :: rest =>
      (* Manually exclude the starting name as the StartOffset option is
         inclusive. *)
      if String.eqb name start_after
      then ListBlobsLoop rest start_after keys
      else ListBlobsLoop rest start_after (keys ++ [name])%list
  end.

Definition ListBlobs (location : DataLocation) (options : ListOptions)
  : StatusOr (list string) :=
  let list_object_reader :=
    ListObjects (bucket location) (prefix options) (start_after options) in
  match list_object_reader with
  | [] => Value []
  | _ => Value (sort (ListBlobsLoop list_object_reader (start_after options) []))
  end.
End WithClient.
End Gcp.

Module S3.

Record ListObjectsV2Request := {
  request_bucket : string;
  request_prefix : option string;
  request_start_after : option string;
  continuation_token : option string;
}.

Inductive ListObjectsV2Outcome (AwsError : Type) :=
| Failure (e : AwsError)
| Success (contents : list string) (is_truncated : bool)
          (next_continuation_token : string).
Arguments Failure {AwsError} e.
Arguments Success {AwsError} contents is_truncated next_continuation_token.

Definition SetContinuationToken (token : string) (r : ListObjectsV2Request)
  : ListObjectsV2Request :=
  {| request_bucket := request_bucket r;
     request_prefix := request_prefix r;
     request_start_after := request_start_after r;
     continuation_token := Some token |}.

Definition non_empty (s : string) : option string :=
  if String.eqb s "" then None else Some s.

Definition BuildRequest (location : DataLocation) (options : ListOptions)
  : ListObjectsV2Request :=
  {| request_bucket := bucket location;
     request_prefix := non_empty (prefix options);
     request_start_after := non_empty (start_after options);
     continuation_token := None |}.

Section WithClient.
Variable AwsError : Type.
Variable ListObjectsV2 : ListObjectsV2Request -> ListObjectsV2Outcome AwsError.
Variable AwsErrorToStatus : AwsError -> Status.

(** The while loop of [ListBlobs]; [None] when [fuel] requests were not
    enough to reach the last page. *)
Fixpoint ListBlobsLoop (fuel : nat) (request : ListObjectsV2Request)
         (keys : list string) : option (StatusOr (list string)) :=
  match fuel with
  | O => None
  | S fuel =>
      match ListObjectsV2 request with
      | Failure e => Some (Error (AwsErrorToStatus e))
      | Success objects is_truncated next_continuation_token =>
          let keys := (keys ++ objects)%list in
          if negb is_truncated then Some (Value keys)
          else ListBlobsLoop fuel
                 (SetContinuationToken next_continuation_token request) keys
      end
  end.

Definition ListBlobs (fuel : nat) (location : DataLocation)
           (options : ListOptions) : option (StatusOr (list string)) :=
  ListBlobsLoop fuel (BuildRequest location options) [].

(** The pages the service answers with from [request] on, each but the
    last one truncated and followed by the request that carries its
    continuation token. *)
Fixpoint pages_from (request : ListObjectsV2Request)
         (pages : list (list string * string)) : Prop :=
  match pages with
  | [] => False
  | [(contents, token)] => ListObjectsV2 request = Success contents false token
  | (contents, token) :: rest =>
      ListObjectsV2 request = Success contents true token
      /\ pages_from (SetContinuationToken token request) rest
  end.

(** The same, with a failure in place of a last page. *)
Fixpoint pages_then_failure (request : ListObjectsV2Request)
         (pages : list (list string * string)) (e : AwsError) : Prop :=
  match pages with
  | [] => ListObjectsV2 request = Failure e
  | (contents, token) :: rest =>
      ListObjectsV2 request = Success contents true token
      /\ pages_then_failure (SetContinuationToken token request) rest e
  end.
End WithClient.
End S3.
End BlobStorage.

(** ** The sample run-query UDF (run_query_udf.js) *)

Module RunQueryUdf.

(** JavaScript values as they reach a UDF: what JSON.parse yields, and
    undefined. *)
Inductive JsValue :=
| JsUndefined
| JsNull
| JsBoolean (b : bool)
| JsNumber (z : Z)
| JsString (s : string)
| JsArray (items : list JsValue)
| JsObject (properties : list (string * JsValue)).

Fixpoint own_property (name : string) (properties : list (string * JsValue))
  : JsValue :=
  match properties with
  | [] => JsUndefined
  | (k, v) :: rest => if String.eqb k name then v else own_property name rest
  end.

(** [value.name] for a name that no prototype defines; reading a property
    of undefined or null throws, which is [None]. *)
Definition get (name : string) (value : JsValue) : option JsValue :=
  match value with
  | JsUndefined | JsNull => None
  | JsObject properties => Some (own_property name properties)
  | _ => Some JsUndefined
  end.

Fixpoint is_prefix (p s : string) : bool :=
  match p, s with
  | EmptyString, _ => true
  | String a p, String b s => Ascii.eqb a b && is_prefix p s
  | String _ _, EmptyString => false
  end.

(** String.prototype.includes *)
Fixpoint string_includes (search s : string) : bool :=
  is_prefix search s
  || match s with
     | EmptyString => false
     | String _ rest => string_includes search rest
     end.

Definition is_string (search : string) (v : JsValue) : bool :=
  match v with JsString s => String.eqb s search | _ => false end.

(** [value.includes(search)] for a string [search]: Array.prototype.includes
    on an array, String.prototype.includes on a string; any other value has
    no such method and the call throws. *)
Definition includes (search : string) (value : JsValue) : option bool :=
  match value with
  | JsArray items => Some (existsb (is_string search) items)
  | JsString s => Some (string_includes search s)
  | _ => None
  end.

(** [Array.isArray(value) && value.length], as a condition. *)
Definition non_empty_array (value : JsValue) : bool :=
  match value with
  | JsArray (_ :: _) => true
  | _ => false
  end.

(** [value[0]] of an array. *)
Definition first_item (value : JsValue) : JsValue :=
  match value with
  | JsArray (item :: _) => item
  | _ => JsUndefined
  end.

Section WithHost.
(** The runQuery host function. *)
Variable runQuery : JsValue -> JsValue.

(** The body of the loop of [HandleRequest]: the key group outputs after
    [keyGroup]; [None] when it throws. *)
Definition HandleKeyGroup (keyGroup : JsValue) (keyGroupOutputs : list JsValue)
  : option (list JsValue) :=
  tags ← get "tags" keyGroup;
  has_custom ← includes "custom" tags;
  if negb has_custom then Some keyGroupOutputs
  else
    has_queries ← includes "queries" tags;
    if negb has_queries then Some keyGroupOutputs
    else
      data ← get "data" keyGroup;
      if negb (non_empty_array data) then Some keyGroupOutputs
      else
        (* Get the first key in the data. *)
        let runQueryArray := runQuery (first_item data) in
        if non_empty_array runQueryArray then
          let keyValuesOutput :=
            JsObject [("result", JsObject [("value", runQueryArray)])] in
          let keyGroupOutput :=
            JsObject [("tags", tags); ("keyValues", keyValuesOutput)] in
          Some (keyGroupOutputs ++ [keyGroupOutput])%list
        else Some keyGroupOutputs.

Fixpoint HandleKeyGroups (input : list JsValue) (keyGroupOutputs : list JsValue)
  : option (list JsValue) :=
  match input with
  | [] => Some keyGroupOutputs
  | keyGroup :: input =>
      keyGroupOutputs ← HandleKeyGroup keyGroup keyGroupOutputs;
      HandleKeyGroups input keyGroupOutputs
  end.

Definition HandleRequest (executionMetadata : JsValue) (input : list JsValue)
  : option JsValue :=
  keyGroupOutputs ← HandleKeyGroups input [];
  Some (JsObject [("keyGroupOutputs", JsArray keyGroupOutputs);
                  ("udfOutputApiVersion", JsNumber 1)]).
End WithHost.

(** A key group the loop can inspect without throwing: an object, or any
    value but undefined and null, whose tags are an array or a string. *)
Definition inspectable (keyGroup : JsValue) : bool :=
  match get "tags" keyGroup with
  | Some (JsArray _) | Some (JsString _) => true
  | _ => false
  end.

(** A key group output as [HandleRequest] builds it. *)
Definition is_output_of (runQuery : JsValue -> JsValue)
           (keyGroup output : JsValue) : Prop :=
  exists tags data,
    get "tags" keyGroup = Some tags
    /\ includes "custom" tags = Some true
    /\ includes "queries" tags = Some true
    /\ get "data" keyGroup = Some data
    /\ non_empty_array data = true
    /\ non_empty_array (runQuery (first_item data)) = true
    /\ output
       = JsObject
           [("tags", tags);
            ("keyValues",
             JsObject [("result",
                        JsObject [("value", runQuery (first_item data))])])].

End RunQueryUdf.

(** ** Server initializers (server_initializer.cc) *)

Module ServerInitializer.
Import GetValuesHook.

Section WithCollaborators.
(** The run-query hook and its [FinishInit]. *)
Variable RunQueryHook : Type.
Variable RunQueryFinishInit : option Lookup -> RunQueryHook -> RunQueryHook.
(** The state a shard manager is kept in. *)
Variable ShardManagerState : Type.
Variable empty_shard_manager_state : ShardManagerState.

(** The hooks an initializer is handed by reference. *)
Record Hooks := {
  string_get_values_hook : GetValuesHookImpl;
  binary_get_values_hook : GetValuesHookImpl;
  run_query_hook : RunQueryHook;
}.

(** [get_lookup] is called three times; [get_lookup i] is what call [i]
    returns. *)
Definition InitializeUdfHooksInternal (get_lookup : nat -> option Lookup)
           (hooks : Hooks) : Status * Hooks :=
  let string_get_values_hook :=
    FinishInit (get_lookup 0%nat) (string_get_values_hook hooks) in
  let binary_get_values_hook :=
    FinishInit (get_lookup 1%nat) (binary_get_values_hook hooks) in
  let run_query_hook :=
    RunQueryFinishInit (get_lookup 2%nat) (run_query_hook hooks) in
  (OkStatus,
   {| string_get_values_hook := string_get_values_hook;
      binary_get_values_hook := binary_get_values_hook;
      run_query_hook := run_query_hook |}).

Inductive ServerInitializerKind :=
| NonshardedServerInitializer
| ShardedServerInitializer.

(** [GetServerInitializer]; [None] when the CHECK on [num_shards] fails. *)
Definition GetServerInitializer (num_shards : Z)
  : option ServerInitializerKind :=
  if negb (num_shards >? 0) then None
  else if num_shards =? 1 then Some NonshardedServerInitializer
  else Some ShardedServerInitializer.

(** [CreateLocalLookup], [CreateShardedLookup] on the shard manager made,
    and [CreateShardManager]. *)
Variable CreateLocalLookup : nat -> option Lookup.
Variable CreateShardedLookup : ShardManagerState -> nat -> option Lookup.
Variable CreateShardManager : StatusOr ShardManagerState.

Definition InitializeUdfHooks (self : ServerInitializerKind) (hooks : Hooks)
  : StatusOr ShardManagerState * Hooks :=
  match self with
  | NonshardedServerInitializer =>
      let shard_manager_state := empty_shard_manager_state in
      let '(_, hooks) := InitializeUdfHooksInternal CreateLocalLookup hooks in
      (Value shard_manager_state, hooks)
  | ShardedServerInitializer =>
      match CreateShardManager with
      | Error s => (Error s, hooks)
      | Value maybe_shard_state =>
          let '(_, hooks) :=
            InitializeUdfHooksInternal (CreateShardedLookup maybe_shard_state)
                                       hooks in
          (Value maybe_shard_state, hooks)
      end
  end.

End WithCollaborators.
Arguments string_get_values_hook {RunQueryHook} _.
Arguments binary_get_values_hook {RunQueryHook} _.
Arguments run_query_hook {RunQueryHook} _.
End ServerInitializer.

(** ** Concrete inputs used by the examples below *)

Module Fixtures.
Import UdfClient.
Import RiegeliStreamIo.

(** A sandbox that loads whatever it is given. *)
Definition prompt_load (_ : CodeObject) : RomaOutcome unit :=
  {| dispatch_status := OkStatus; notified := true; response := Value tt |}.

(** A sandbox that accepts the load request and never answers. *)
Definition silent_load (_ : CodeObject) : RomaOutcome unit :=
  {| dispatch_status := OkStatus; notified := false; response := Value tt |}.

(** A sandbox that answers the load with a compilation error. *)
Definition failing_load (_ : CodeObject) : RomaOutcome unit :=
  {| dispatch_status := OkStatus; notified := true;
     response := Error (InternalError "Failed to compile JavaScript code object.") |}.

Definition code_A : CodeConfig :=
  {| js := "A"; wasm := ""; udf_handler_name := "HandleA";
     logical_commit_time := 5; version := 1 |}.

Definition code_B : CodeConfig :=
  {| js := "B"; wasm := ""; udf_handler_name := "HandleB";
     logical_commit_time := 3; version := 2 |}.

Definition code_zero : CodeConfig :=
  {| js := "Z"; wasm := ""; udf_handler_name := "HandleZ";
     logical_commit_time := 0; version := 1 |}.

Definition code_minus_one : CodeConfig :=
  {| js := "M"; wasm := ""; udf_handler_name := "HandleM";
     logical_commit_time := -1; version := 1 |}.

(** A stand-in for the JSON printer: it names the kind of message. *)
Definition kind_of_message (m : Message) : StatusOr string :=
  match m with
  | MetadataMessage md => Value ("metadata v" ++ FormatInt (udf_interface_version md))
  | ArgumentMessage _ => Value "argument"
  | ValueMessage _ => Value "data"
  end.

Definition tagged_argument : UDFArgument :=
  {| tags := [string_value "custom"; string_value "keys"];
     data := list_value [string_value "key1"] |}.

Definition bare_argument : UDFArgument :=
  {| tags := []; data := string_value "ECHO" |}.

Definition some_metadata : UDFExecutionMetadata :=
  {| udf_interface_version := 0;
     request_metadata := [("hostname", string_value "example.com")] |}.

(** A sandbox that echoes the number of arguments it is called with. *)
Definition echo_execute (r : InvocationRequestStrInput)
  : RomaOutcome ResponseObject :=
  {| dispatch_status := OkStatus; notified := true;
     response := Value {| ro_id := ir_id r;
                          resp := FormatInt (Z.of_nat (length (ir_input r))) |} |}.


Definition three_workers : Options :=
  {| num_worker_threads := 3; min_shard_size_bytes := 1 |}.

Definition one_worker : Options :=
  {| num_worker_threads := 1; min_shard_size_bytes := kDefaultMinShardSize |}.

Definition two_workers : Options :=
  {| num_worker_threads := 2; min_shard_size_bytes := 1 |}.

Definition healthy_reader (p : Z) (records : list (string * Z))
  : RecordReader string :=
  {| pos := p; pending := records; status := OkStatus;
     end_status := OkStatus |}.

Definition failed_reader (s : Status) : RecordReader string :=
  {| pos := 0; pending := []; status := s; end_status := s |}.

(** A stream of 2001 bytes read by two workers, as in scenario S5: the
    shards are [0, 1001] and [1002, 2001]; the first task stops at byte
    1000 and the second finds its first record at byte 1100. *)
Definition skipping_stream : RecordStream string :=
  {| tellg_at_end := 2001;
     Seek := fun p =>
       if p =? 0 then (true, healthy_reader 0 [("r0", 1000)])
       else (true, healthy_reader 1100 [("r1", 2001)]) |}.

(** A stream of 9 bytes read by three workers, with shards [0, 3], [4, 7]
    and [8, 9]: the first task stops at byte 5, the second starts at byte 6,
    and the third cannot seek. *)
Definition skipping_then_failing_stream : RecordStream string :=
  {| tellg_at_end := 9;
     Seek := fun p =>
       if p =? 0 then (true, healthy_reader 0 [("a", 5)])
       else if p =? 4 then (true, healthy_reader 6 [("b", 9)])
       else (false, failed_reader (MkStatus kDataLoss "Truncated chunk")) |}.

(** The same 9 bytes: the first task cannot seek, the second stops at
    byte 7 and the third starts at byte 9. *)
Definition failing_then_skipping_stream : RecordStream string :=
  {| tellg_at_end := 9;
     Seek := fun p =>
       if p =? 0
       then (false, failed_reader (MkStatus kDataLoss "Truncated chunk"))
       else if p =? 4 then (true, healthy_reader 4 [("b", 7)])
       else (true, healthy_reader 9 []) |}.

(** The same 9 bytes, the first task failing in one way and the second
    in another. *)
Definition twice_failing_stream : RecordStream string :=
  {| tellg_at_end := 9;
     Seek := fun p =>
       if p =? 0
       then (false, failed_reader (MkStatus kDataLoss "Truncated chunk"))
       else if p =? 4
       then (false, failed_reader (MkStatus kUnavailable "Read timed out"))
       else (true, healthy_reader 9 []) |}.

(** The same 9 bytes, read without a gap up to the third task, whose
    reader fails after its first record. *)
Definition late_failing_stream : RecordStream string :=
  {| tellg_at_end := 9;
     Seek := fun p =>
       if p =? 0 then (true, healthy_reader 0 [("a", 4)])
       else if p =? 4 then (true, healthy_reader 4 [("b", 8)])
       else (true,
             {| pos := 8; pending := [("c", 9)]; status := OkStatus;
                end_status := MkStatus kDataLoss "Truncated chunk" |}) |}.

(** A callback that rejects every record. *)
Definition rejecting_callback : Callback string :=
  fun _ _ => InvalidArgumentError "Bad record".

(** A callback that accepts every record. *)
Definition accepting_callback : Callback string := fun _ _ => OkStatus.

Definition status_of {A} (r : option (Status * A)) : Status :=
  match r with Some (s, _) => s | None => OkStatus end.

Definition tasks_of {A} (r : option (Status * list A)) : list A :=
  match r with Some (_, tasks) => tasks | None => [] end.

Import GetValuesHook.

(** Stand-ins for the serialisers, enough to tell outputs apart. *)
Definition quote : string := String (Ascii.ascii_of_nat 34) EmptyString.

Definition show_scalar (j : Json) : string :=
  match j with
  | JNull => "null"
  | JBool true => "true"
  | JBool false => "false"
  | JInt z => FormatInt z
  | JString s => quote ++ s ++ quote
  | _ => "?"
  end.

Definition show_json (j : Json) : string :=
  match j with
  | JObject ms =>
      "{" ++ String.concat ","
               (map (fun kv => quote ++ fst kv ++ quote ++ ":"
                               ++ show_scalar (snd kv)) ms)
          ++ "}"
  | _ => show_scalar j
  end.

Definition show_binary (r : BinaryGetValuesResponse) : string :=
  match binary_response_status r with
  | Some st => FormatInt (status_code st) ++ ":" ++ status_message st
  | None => ""
  end.

Definition no_parse (_ : string) : option Json := None.

Definition no_json (_ : InternalLookupResponse) : StatusOr string :=
  Error (InternalError "not printable").

(** A lookup that knows no key. *)
Definition empty_lookup : Lookup :=
  {| GetKeyValues := fun _ => Value {| kv_pairs := ∅ |} |}.

(** A lookup that is down. *)
Definition broken_lookup : Lookup :=
  {| GetKeyValues := fun _ => Error (MkStatus kUnavailable "down") |}.

Definition string_io : FunctionBindingIoProto :=
  {| io_input := input_string "key1"; io_output := output_not_set |}.

Import GetValuesAdapter.

(** A parser that reads every string as the number whose bits are 0. *)
Definition parse_as_number (_ : string) : StatusOr ProtoValue :=
  Value (number_value 0).

Definition one_key_output : KeyGroupOutput :=
  {| kgo_tags := ["custom"; "keys"];
     key_values := {[ "key1" := {| value := string_value "123" |} ]} |}.

Import GetValuesV2Handler.

(** The UDF of scenario S4: it fails on a partition without arguments and
    succeeds on any other. *)
Definition failing_on_empty (_ : UDFExecutionMetadata)
           (arguments : list UDFArgument) : StatusOr string :=
  match arguments with
  | [] => Error (InternalError "UDF execution error")
  | _ => Value "ECHO"
  end.

Definition two_partitions : GetValuesRequest :=
  {| metadata := [];
     partitions :=
       [ {| id := 0; compression_group_id := 0; arguments := [] |};
         {| id := 1; compression_group_id := 0;
            arguments := [ {| tags := []; data := string_value "ECHO" |} ] |} ]
  |}.

Definition open_any (_ : ProtocolType) (raw_body : string) : StatusOr string :=
  Value raw_body.

Definition parse_two_partitions (_ : string) : StatusOr GetValuesRequest :=
  Value two_partitions.

(** A stand-in for the JSON printer that cannot print a value whose kind
    is not set. *)
Definition picky_printer (m : Message) : StatusOr string :=
  match m with
  | MetadataMessage _ => Value "{}"
  | ArgumentMessage _ => Value "argument"
  | ValueMessage kind_not_set => Error (InternalError "Value not set.")
  | ValueMessage _ => Value "data"
  end.

Definition unset_argument : UDFArgument :=
  {| tags := []; data := kind_not_set |}.

(** A sandbox that refuses every invocation. *)
Definition down_execute (_ : InvocationRequestStrInput)
  : RomaOutcome ResponseObject :=
  {| dispatch_status := MkStatus kUnavailable "Roma is down";
     notified := false;
     response := Error (InternalError "unused") |}.

(** A stream that does not support seeking. *)
Definition unseekable_stream : RecordStream string :=
  {| tellg_at_end := -1;
     Seek := fun _ =>
       (false, failed_reader (InvalidArgumentError "Not seekable")) |}.

(** A file of 9 bytes with three records, which start at bytes 0, 4 and
    8. *)
Definition three_records : list (string * Z) := [("a", 0); ("b", 4); ("c", 8)].

Definition positioned_stream : RecordStream string :=
  {| tellg_at_end := 9;
     Seek := fun p => (true, reader_at three_records 9 p) |}.

(** A callback that rejects the record b. *)
Definition rejecting_b : Callback string :=
  fun _ record =>
    if String.eqb record "b" then InvalidArgumentError "Bad record"
    else OkStatus.

(** A lookup that finds one key and misses another. *)
Definition two_key_lookup : Lookup :=
  {| GetKeyValues := fun _ =>
       Value {| kv_pairs :=
                  {[ "key1" := lookup_value "value1";
                     "key2" := lookup_status
                                 {| status_code := 5;
                                    status_message := "Key not found" |} ]} |} |}.

Definition list_io : FunctionBindingIoProto :=
  {| io_input := input_list_of_string ["key1"; "key2"; "key1"];
     io_output := output_not_set |}.

(** Stand-ins for the printer and the parser of a lookup response. *)
Definition print_kv_pairs (_ : InternalLookupResponse) : StatusOr string :=
  Value "{kvPairs}".

Definition parse_kv_pairs (_ : string) : option Json :=
  Some (JObject [("kvPairs", JObject [])]).

(** A cache that holds one key. *)
Definition one_key_cache (_ : gset string) : gmap string string :=
  {[ "key1" := "123" ]}.

(** A parameter service in which every parameter is stored as the
    placeholder of the empty string. *)
Definition stored_empty (_ : string) : GcpParameterClient.GetParameterOutcome :=
  {| GcpParameterClient.execution_result :=
       {| GcpParameterClient.Successful := true;
          GcpParameterClient.status_code := 0 |};
     GcpParameterClient.callback :=
       Some ({| GcpParameterClient.Successful := true;
                GcpParameterClient.status_code := 0 |}, "EMPTY_STRING") |}.

Definition error_message (_ : Z) : string := "error".

(** A bucket listed in two pages. *)
Definition two_pages (r : BlobStorage.S3.ListObjectsV2Request)
  : BlobStorage.S3.ListObjectsV2Outcome unit :=
  match BlobStorage.S3.continuation_token r with
  | None => BlobStorage.S3.Success ["b"; "a"] true "page2"
  | Some _ => BlobStorage.S3.Success ["c"] false ""
  end.

Definition some_location : BlobStorage.DataLocation :=
  {| BlobStorage.bucket := "bucket"; BlobStorage.key := "" |}.

Definition no_options : BlobStorage.ListOptions :=
  {| BlobStorage.prefix := ""; BlobStorage.start_after := "" |}.

(** A run-query host that finds two ads for every query. *)
Definition two_ads (_ : RunQueryUdf.JsValue) : RunQueryUdf.JsValue :=
  RunQueryUdf.JsArray [RunQueryUdf.JsString "ad1"; RunQueryUdf.JsString "ad2"].

Definition query_key_group : RunQueryUdf.JsValue :=
  RunQueryUdf.JsObject
    [("tags", RunQueryUdf.JsArray [RunQueryUdf.JsString "custom";
                                   RunQueryUdf.JsString "queries"]);
     ("data", RunQueryUdf.JsArray [RunQueryUdf.JsString "A & B"])].

(** Hooks as the server creates them, and a shard manager that cannot be
    created. *)
Definition fresh_hooks : ServerInitializer.Hooks unit :=
  {| ServerInitializer.string_get_values_hook := Create kString;
     ServerInitializer.binary_get_values_hook := Create kBinary;
     ServerInitializer.run_query_hook := tt |}.

Definition no_shard_manager : StatusOr unit :=
  Error (MkStatus kUnavailable "No replicas").

End Fixtures.

(** * Properties *)

(** ** The UDF client *)

Module UdfClientFacts.
Import UdfClient.

(** The four ways out of [SetCodeObject], by the gate and the load. *)
Lemma SetCodeObject_gate_closed roma c self :
  logical_commit_time c <= logical_commit_time_ self ->
  SetCodeObject roma c self = (OkStatus, self).
Proof.
  intros Hle. unfold SetCodeObject.
  destruct (Z.geb_spec (logical_commit_time_ self) (logical_commit_time c));
    [reflexivity | lia].
Qed.

Lemma SetCodeObject_load_ok roma c self :
  logical_commit_time_ self < logical_commit_time c ->
  load_succeeds (roma (BuildCodeObject (js c) (wasm c) (version c))) = true ->
  SetCodeObject roma c self = (OkStatus, installed c).
Proof.
  intros Hlt Hload. unfold SetCodeObject, load_succeeds in *.
  destruct (Z.geb_spec (logical_commit_time_ self) (logical_commit_time c));
    [lia |].
  apply andb_true_iff in Hload as [Hload Hresp].
  apply andb_true_iff in Hload as [Hdisp Hnot].
  rewrite Hdisp, Hnot, Hresp. reflexivity.
Qed.

Lemma SetCodeObject_load_failed roma c self :
  logical_commit_time_ self < logical_commit_time c ->
  load_succeeds (roma (BuildCodeObject (js c) (wasm c) (version c))) = false ->
  snd (SetCodeObject roma c self) = self /\
  ok (fst (SetCodeObject roma c self)) = false.
Proof.
  intros Hlt Hload. unfold SetCodeObject, load_succeeds in *.
  destruct (Z.geb_spec (logical_commit_time_ self) (logical_commit_time c));
    [lia |].
  set (o := roma _) in *.
  destruct (ok (dispatch_status o)) eqn:Hdisp; cbn [negb]; [| auto].
  destruct (notified o); cbn [negb]; [| auto].
  destruct (ok (response_status o)) eqn:Hresp; cbn [negb]; [| auto].
  discriminate Hload.
Qed.

(** The logical commit time never goes down, so it stays at or above the
    initial -1. *)
Lemma SetCodeObject_lct_monotone roma c self :
  logical_commit_time_ self
  <= logical_commit_time_ (snd (SetCodeObject roma c self)).
Proof.
  destruct (Z_le_gt_dec (logical_commit_time c) (logical_commit_time_ self))
    as [Hle | Hgt].
  - rewrite SetCodeObject_gate_closed by exact Hle. cbn. lia.
  - destruct (load_succeeds
                (roma (BuildCodeObject (js c) (wasm c) (version c)))) eqn:Hl.
    + rewrite SetCodeObject_load_ok by (lia || exact Hl). cbn. lia.
    + destruct (SetCodeObject_load_failed roma c self) as [-> _];
        [lia | exact Hl | lia].
Qed.

Lemma SetCodeObjects_lct_lower_bound calls self :
  logical_commit_time_ self
  <= logical_commit_time_ (SetCodeObjects calls self).
Proof.
  revert self. induction calls as [| [roma c] calls IH]; intros self; cbn.
  - lia.
  - etransitivity; [apply (SetCodeObject_lct_monotone roma c) | apply IH].
Qed.




(** Scenario S6: code A at logical commit time 5, then code B at 3; the
    invocation request that is built afterwards names A's handler. *)
Example code_update_lct_gate :
  ir_handler_name
    (BuildInvocationRequest
       (snd (SetCodeObject Fixtures.prompt_load Fixtures.code_B
               (snd (SetCodeObject Fixtures.prompt_load Fixtures.code_A
                       new_client))))
       ["{}"])
  = "HandleA".
Proof. reflexivity. Qed.

(** C10, as amended.  A fresh client has logical commit time -1.  Its first
    [SetCodeObject] installs any code object whose logical commit time is
    at least 0 when the load into the sandbox goes through (and changes
    nothing, returning an error, when it does not).  A code object whose
    logical commit time is -1 or less is never installed, however many
    calls came before, and the call returns OK. *)
Theorem new_client_lct_sentinel
        (roma : CodeObject -> RomaOutcome unit) (c : CodeConfig)
        (calls : list ((CodeObject -> RomaOutcome unit) * CodeConfig)) :
  let o := roma (BuildCodeObject (js c) (wasm c) (version c)) in
  logical_commit_time_ new_client = -1
  /\ (0 <= logical_commit_time c -> load_succeeds o = true ->
      SetCodeObject roma c new_client = (OkStatus, installed c))
  /\ (0 <= logical_commit_time c -> load_succeeds o = false ->
      snd (SetCodeObject roma c new_client) = new_client
      /\ ok (fst (SetCodeObject roma c new_client)) = false)
  /\ (logical_commit_time c <= -1 ->
      SetCodeObject roma c (SetCodeObjects calls new_client)
      = (OkStatus, SetCodeObjects calls new_client)).
Proof.
  intros o. subst o. repeat split.
  - intros Hge Hl. apply SetCodeObject_load_ok; [cbn; lia | exact Hl].
  - apply SetCodeObject_load_failed; [cbn; lia | assumption].
  - apply SetCodeObject_load_failed; [cbn; lia | assumption].
  - intros Hle. apply SetCodeObject_gate_closed.
    pose proof (SetCodeObjects_lct_lower_bound calls new_client) as Hlb.
    cbn in Hlb. lia.
Qed.

Lemma new_client_lct_sentinel_witness :
  SetCodeObject Fixtures.prompt_load Fixtures.code_zero new_client
  = (OkStatus, installed Fixtures.code_zero)
  /\ SetCodeObject Fixtures.prompt_load Fixtures.code_minus_one
       (SetCodeObjects [(Fixtures.prompt_load, Fixtures.code_A)] new_client)
     = (OkStatus,
        SetCodeObjects [(Fixtures.prompt_load, Fixtures.code_A)] new_client).
Proof.
  split.
  - apply (new_client_lct_sentinel Fixtures.prompt_load Fixtures.code_zero []).
    + cbn. lia.
    + reflexivity.
  - apply (new_client_lct_sentinel Fixtures.prompt_load
             Fixtures.code_minus_one
             [(Fixtures.prompt_load, Fixtures.code_A)]).
    cbn. lia.
Defined.

(** C10 as stated fails: on a fresh client the first call does not install
    a code object with logical commit time 0 when the sandbox answers the
    load with an error. *)
Lemma new_client_lct_sentinel_counterexample :
  0 <= logical_commit_time Fixtures.code_zero
  /\ SetCodeObject Fixtures.failing_load Fixtures.code_zero new_client
     = (InternalError "Failed to compile JavaScript code object.", new_client)
  /\ snd (SetCodeObject Fixtures.failing_load Fixtures.code_zero new_client)
     <> installed Fixtures.code_zero.
Proof. cbn. repeat split; try lia; discriminate. Qed.

Lemma arg_data_serialized_as to_json arg json :
  to_json (arg_data arg) = Value json <-> serialized_as to_json arg json.
Proof.
  unfold arg_data, serialized_as. destruct (tags arg) as [| t ts].
  - split; [intros H; left; auto | intros [[_ H] | [H _]]; congruence].
  - split; [intros H; right; split; [discriminate | exact H]
           | intros [[H _] | [_ H]]; [discriminate | exact H]].
Qed.

Lemma SerializeArguments_spec to_json arguments string_args out :
  SerializeArguments to_json arguments string_args = Value out
  <-> exists jsons, out = (string_args ++ jsons)%list
                    /\ Forall2 (serialized_as to_json) arguments jsons.
Proof.
  revert string_args out.
  induction arguments as [| arg rest IH]; intros string_args out; cbn.
  - split.
    + intros [= <-]. exists []. rewrite app_nil_r. split; constructor.
    + intros (jsons & -> & HF). inversion HF. rewrite app_nil_r. reflexivity.
  - destruct (to_json (arg_data arg)) as [json_arg | json_status] eqn:Harg.
    + rewrite IH. split.
      * intros (jsons & -> & HF). exists (json_arg :: jsons).
        rewrite <- app_assoc. split; [reflexivity |].
        constructor; [apply arg_data_serialized_as; exact Harg | exact HF].
      * intros (jsons & -> & HF). inversion HF as [| a j l l' Hs HF']; subst.
        apply arg_data_serialized_as in Hs.
        rewrite Harg in Hs. injection Hs as <-.
        exists l'. rewrite <- app_assoc. split; [reflexivity | exact HF'].
    + split; [discriminate |].
      intros (jsons & -> & HF). inversion HF as [| a j l l' Hs HF']; subst.
      apply arg_data_serialized_as in Hs. congruence.
Qed.

(** C4.  [ExecuteCode] sets [udf_interface_version] to 1 in the metadata
    before serialising it, puts the metadata's JSON first, and follows it
    with one JSON string per argument: the JSON of [data] alone for an
    argument without tags, the JSON of the whole argument (tags and data)
    for an argument with at least one tag.  These strings are the input of
    the invocation request sent to the sandbox. *)
Theorem ExecuteCode_argument_serialization
        (Execute : InvocationRequestStrInput -> RomaOutcome ResponseObject)
        (MessageToJsonString : Message -> StatusOr string)
        (execution_metadata : UDFExecutionMetadata)
        (arguments : list UDFArgument) (self : UdfClientImpl)
        (string_args : list string) :
  let versioned :=
    set_udf_interface_version kUdfInterfaceVersion execution_metadata in
  udf_interface_version versioned = 1
  /\ request_metadata versioned = request_metadata execution_metadata
  /\ (BuildStringArgs MessageToJsonString execution_metadata arguments
      = Value string_args
      <-> exists json_metadata jsons,
          string_args = json_metadata :: jsons
          /\ MessageToJsonString (MetadataMessage versioned)
             = Value json_metadata
          /\ Forall2 (serialized_as MessageToJsonString) arguments jsons)
  /\ (BuildStringArgs MessageToJsonString execution_metadata arguments
      = Value string_args ->
      ExecuteCode Execute MessageToJsonString execution_metadata arguments
                  self
      = ExecuteCodeKeys Execute string_args self
      /\ ir_input (BuildInvocationRequest self string_args) = string_args).
Proof.
  intros versioned. subst versioned.
  split; [reflexivity |]. split; [reflexivity |]. split.
  - unfold BuildStringArgs.
    destruct (MessageToJsonString (MetadataMessage _))
      as [json_metadata | json_status] eqn:Hmeta.
    + rewrite SerializeArguments_spec. split.
      * intros (jsons & -> & HF). exists json_metadata, jsons. auto.
      * intros (jm & jsons & -> & [= <-] & HF). exists jsons. auto.
    + split; [discriminate |].
      intros (jm & jsons & _ & Hjm & _). discriminate Hjm.
  - intros Hargs. unfold ExecuteCode. rewrite Hargs. split; reflexivity.
Qed.

Lemma ExecuteCode_argument_serialization_witness :
  ExecuteCode Fixtures.echo_execute Fixtures.kind_of_message
              Fixtures.some_metadata
              [Fixtures.tagged_argument; Fixtures.bare_argument] new_client
  = ExecuteCodeKeys Fixtures.echo_execute
                    ["metadata v1"; "argument"; "data"] new_client
  /\ ir_input (BuildInvocationRequest new_client
                                      ["metadata v1"; "argument"; "data"])
     = ["metadata v1"; "argument"; "data"].
Proof.
  apply (ExecuteCode_argument_serialization Fixtures.echo_execute
           Fixtures.kind_of_message Fixtures.some_metadata
           [Fixtures.tagged_argument; Fixtures.bare_argument] new_client
           ["metadata v1"; "argument"; "data"]).
  reflexivity.
Defined.

End UdfClientFacts.

(** ** Binary64: the rounded quotient *)

Module Binary64Facts.
Import Binary64.

Lemma round_half_even_near n d :
  0 < d -> - d <= 2 * (n - d * round_half_even n d) <= d.
Proof.
  intros Hd. unfold round_half_even.
  pose proof (Z.div_mod n d ltac:(lia)) as Hdm.
  pose proof (Z.mod_pos_bound n d Hd) as Hr.
  destruct (Z.ltb_spec (2 * (n mod d)) d);
    [| destruct (Z.ltb_spec d (2 * (n mod d)));
       [| destruct (Z.even (n / d))]]; nia.
Qed.

Lemma round_half_even_le n d z :
  0 < d -> n <= z * d -> round_half_even n d <= z.
Proof.
  intros Hd Hz. pose proof (round_half_even_near n d Hd). nia.
Qed.

Lemma round_half_even_ge n d z :
  0 < d -> z * d <= n -> z <= round_half_even n d.
Proof.
  intros Hd Hz. pose proof (round_half_even_near n d Hd). nia.
Qed.

Lemma round_half_even_unit n : round_half_even n 1 = n.
Proof.
  pose proof (round_half_even_near n 1 ltac:(lia)). lia.
Qed.

Lemma pow2_split a b : 0 <= a -> 0 <= b -> 2 ^ (a + b) = 2 ^ a * 2 ^ b.
Proof. intros. apply Z.pow_add_r; assumption. Qed.

Lemma pow2_succ k : 0 <= k -> 2 ^ (k + 1) = 2 * 2 ^ k.
Proof. intros. rewrite Z.pow_add_r by lia. change (2 ^ 1) with 2. lia. Qed.

Lemma ilog2_spec x K :
  0 < num x -> 0 < den x -> 0 <= K -> 0 <= ilog2 x + K ->
  2 ^ (ilog2 x + K) * den x <= num x * 2 ^ K
    < 2 ^ (ilog2 x + K + 1) * den x.
Proof.
  intros Hn Hd HK. unfold ilog2, scale.
  destruct (Z.log2_spec _ Hn) as [Ha1 Ha2].
  destruct (Z.log2_spec _ Hd) as [Hb1 Hb2].
  pose proof (Z.log2_nonneg (num x)) as Ha0.
  pose proof (Z.log2_nonneg (den x)) as Hb0.
  set (a := Z.log2 (num x)) in *. set (b := Z.log2 (den x)) in *.
  assert (HpK : 0 < 2 ^ K) by (apply Z.pow_pos_nonneg; lia).
  assert (Hpa : 0 < 2 ^ a) by (apply Z.pow_pos_nonneg; lia).
  assert (Hpb : 0 < 2 ^ b) by (apply Z.pow_pos_nonneg; lia).
  replace (Z.succ a) with (a + 1) in Ha2 by lia.
  replace (Z.succ b) with (b + 1) in Hb2 by lia.
  rewrite (pow2_split a 1) in Ha2 by lia.
  rewrite (pow2_split b 1) in Hb2 by lia.
  change (2 ^ 1) with 2 in *.
  destruct (Z.leb_spec 0 (- (a - b))) as [Hs | Hs]; cbn [num den].
  - (* a <= b *)
    assert (Hab : 2 ^ b = 2 ^ (- (a - b)) * 2 ^ a).
    { rewrite <- pow2_split by lia. f_equal. lia. }
    assert (Hp : 0 < 2 ^ (- (a - b))) by (apply Z.pow_pos_nonneg; lia).
    destruct (Z.leb_spec (den x) (num x * 2 ^ (- (a - b)))) as [Ht | Ht];
      intros He.
    + assert (HK' : 2 ^ K = 2 ^ (- (a - b)) * 2 ^ (a - b + K)).
      { rewrite <- pow2_split by lia. f_equal. lia. }
      assert (Hp' : 0 < 2 ^ (a - b + K)) by (apply Z.pow_pos_nonneg; lia).
      rewrite (pow2_split (a - b + K) 1) by lia. change (2 ^ 1) with 2.
      split; [nia |].
      (* n 2^K < 2 * 2^(e+K) * d ; use n < 2*2^a, d >= 2^b *)
      nia.
    + assert (HK' : 2 ^ K = 2 ^ (- (a - b)) * 2 ^ (a - b + K)).
      { rewrite <- pow2_split by lia. f_equal. lia. }
      assert (Hp' : 0 < 2 ^ (a - b - 1 + K)) by (apply Z.pow_pos_nonneg; lia).
      replace (a - b - 1 + K + 1) with (a - b + K) by lia.
      assert (Hq : 2 ^ (a - b + K) = 2 * 2 ^ (a - b - 1 + K)).
      { rewrite <- pow2_succ by lia. f_equal. lia. }
      split; [| nia].
      nia.
  - (* b < a *)
    replace (- - (a - b)) with (a - b) by lia.
    assert (Hab : 2 ^ a = 2 ^ (a - b) * 2 ^ b).
    { rewrite <- pow2_split by lia. f_equal. lia. }
    assert (Hp : 0 < 2 ^ (a - b)) by (apply Z.pow_pos_nonneg; lia).
    destruct (Z.leb_spec (den x * 2 ^ (a - b)) (num x)) as [Ht | Ht];
      intros He.
    + rewrite (pow2_split (a - b + K) 1) by lia. change (2 ^ 1) with 2.
      rewrite (pow2_split (a - b) K) by lia.
      assert (Hu : num x < 2 * 2 ^ (a - b) * den x) by nia.
      split; nia.
    + replace (a - b - 1 + K + 1) with (a - b + K) by lia.
      rewrite (pow2_split (a - b) K) by lia.
      assert (Hq : 2 ^ (a - b) = 2 * 2 ^ (a - b - 1)).
      { rewrite <- pow2_succ by lia. f_equal. lia. }
      assert (Hp' : 0 < 2 ^ (a - b - 1)) by (apply Z.pow_pos_nonneg; lia).
      rewrite (pow2_split (a - b - 1) K) by lia.
      assert (Hl : 2 ^ (a - b - 1) * den x <= num x) by nia.
      split; nia.
Qed.

Lemma ceil_div_unique n d k :
  0 < d -> (k - 1) * d < n <= k * d -> - ((- n) / d) = k.
Proof.
  intros Hd [Hlo Hhi].
  assert (- n / d = - k); [| lia].
  symmetry. apply (Z.div_unique (- n) d (- k) (k * d - n)); lia.
Qed.

Lemma ceil_div_bounds n d :
  0 < d -> ((n + d - 1) / d - 1) * d < n <= (n + d - 1) / d * d.
Proof.
  intros Hd.
  pose proof (Z.div_mod (n + d - 1) d ltac:(lia)).
  pose proof (Z.mod_pos_bound (n + d - 1) d Hd). nia.
Qed.

Lemma scale_nonneg k x :
  0 <= k -> scale k x = MkDouble (num x * 2 ^ k) (den x).
Proof. intros Hk. unfold scale. destruct (Z.leb_spec 0 k); [reflexivity | lia]. Qed.

Lemma scale_neg k x :
  k < 0 -> scale k x = MkDouble (num x) (den x * 2 ^ (- k)).
Proof. intros Hk. unfold scale. destruct (Z.leb_spec 0 k); [lia | reflexivity]. Qed.

Lemma round_pos_quotient_ceil s V c :
  0 < s < 2 ^ 53 -> 1 <= V -> 0 < c ->
  to_int64 (ceil (round_pos (MkDouble (s * c) (V * c)))) = (s + V - 1) / V.
Proof.
  intros HS HV Hc.
  set (x := MkDouble (s * c) (V * c)).
  assert (Hn : 0 < num x) by (cbn; nia).
  assert (Hd : 0 < den x) by (cbn; nia).
  assert (He : ilog2 x <= 52).
  { destruct (Z_le_gt_dec (ilog2 x) 52) as [| Hgt]; [assumption | exfalso].
    pose proof (ilog2_spec x 0 Hn Hd ltac:(lia) ltac:(lia)) as [Hlo _].
    rewrite Z.add_0_r in Hlo. change (2 ^ 0) with 1 in Hlo.
    change (num x) with (s * c) in Hlo. change (den x) with (V * c) in Hlo.
    assert (Hp : 2 ^ 53 <= 2 ^ ilog2 x) by (apply Z.pow_le_mono_r; lia).
    assert (c <= V * c) by nia.
    assert (2 ^ 53 * c <= 2 ^ ilog2 x * (V * c)) by nia.
    nia. }
  pose proof (ilog2_spec x (52 - ilog2 x) Hn Hd ltac:(lia) ltac:(lia))
    as [Hlo _].
  replace (ilog2 x + (52 - ilog2 x)) with 52 in Hlo by lia.
  unfold round_pos. fold x.
  rewrite (scale_nonneg (52 - ilog2 x)) by lia.
  set (t := 52 - ilog2 x) in *.
  assert (Hpt : 0 < 2 ^ t) by (apply Z.pow_pos_nonneg; lia).
  replace (ilog2 x - 52) with (- t) by lia.
  cbn [num den x] in *.
  set (m := round_half_even (s * c * 2 ^ t) (V * c)).
  pose proof (ceil_div_bounds s V ltac:(lia)) as [Hk1 Hk2].
  set (k := (s + V - 1) / V) in *.
  set (P := 2 ^ t) in *.
  assert (HcP : 0 < c * P) by nia.
  assert (HVc : 0 < V * c) by nia.
  assert (HloV : 2 ^ 52 * V <= s * P).
  { apply (Z.mul_le_mono_pos_r _ _ c Hc). lia. }
  assert (Hm_hi : m <= k * P).
  { apply round_half_even_le; [exact HVc |].
    pose proof (Z.mul_le_mono_nonneg_r _ _ (c * P) ltac:(lia) Hk2). lia. }
  assert (Hm_lo : (k - 1) * P < m).
  { assert (Hge : (k - 1) * P <= m).
    { apply round_half_even_ge; [exact HVc |].
      pose proof (Z.mul_le_mono_nonneg_r _ _ (c * P) ltac:(lia)
                    (Z.lt_le_incl _ _ Hk1)). lia. }
    destruct (Z.eq_dec m ((k - 1) * P)) as [Heq | ]; [exfalso | lia].
    pose proof (round_half_even_near (s * c * P) (V * c) HVc) as [_ Hnear].
    fold m in Hnear. rewrite Heq in Hnear.
    assert (Hgap : 2 * P * (s - (k - 1) * V) <= V).
    { apply (Z.mul_le_mono_pos_r _ _ c Hc).
      replace (2 * P * (s - (k - 1) * V) * c)
        with (2 * (s * c * P - V * c * ((k - 1) * P))) by ring.
      exact Hnear. }
    assert (2 * P * 1 <= 2 * P * (s - (k - 1) * V))
      by (apply Z.mul_le_mono_nonneg_l; lia).
    assert (s * P < 2 ^ 53 * P) by (apply Z.mul_lt_mono_pos_r; lia).
    lia. }
  unfold ceil, to_int64.
  destruct (Z.eq_dec t 0) as [Ht | Ht].
  - assert (HP : P = 1) by (subst P; rewrite Ht; reflexivity).
    rewrite HP in Hm_hi, Hm_lo.
    rewrite scale_nonneg by lia. cbn [num den].
    replace (2 ^ (- t)) with 1 by (rewrite Ht; reflexivity).
    rewrite Z.quot_1_r, Z.div_1_r. lia.
  - rewrite scale_neg by lia. cbn [num den].
    rewrite Z.quot_1_r. replace (- - t) with t by lia. rewrite Z.mul_1_l.
    fold P. apply ceil_div_unique; lia.
Qed.

Lemma ilog2_int n : 0 < n -> ilog2 (MkDouble n 1) = Z.log2 n.
Proof.
  intros Hn. unfold ilog2. cbn [num den].
  change (Z.log2 1) with 0. rewrite Z.sub_0_r.
  destruct (Z.log2_spec n Hn) as [Hlo _].
  pose proof (Z.log2_nonneg n) as H0.
  destruct (Z.eq_dec (Z.log2 n) 0) as [Hz | Hz].
  - rewrite Hz. rewrite scale_nonneg by lia. cbn [num den].
    change (2 ^ (- 0)) with 1.
    destruct (Z.leb_spec 1 (n * 1)); [reflexivity | lia].
  - rewrite scale_neg by lia. cbn [num den].
    replace (- - Z.log2 n) with (Z.log2 n) by lia. rewrite Z.mul_1_l.
    destruct (Z.leb_spec (2 ^ Z.log2 n) n); [reflexivity | lia].
Qed.

(** Conversion of a positive int64_t: exact below 2^53, and at least 2^53
    from there on. *)
Lemma of_int64_pos n :
  1 <= n ->
  exists V c, 0 < c /\ num (of_int64 n) = V * c /\ den (of_int64 n) = c
              /\ ((n < 2 ^ 53 /\ V = n) \/ (2 ^ 53 <= n /\ 2 ^ 53 <= V)).
Proof.
  intros Hn. unfold of_int64, round. cbn [num den].
  destruct (Z.eqb_spec n 0) as [| _]; [lia |].
  destruct (Z.ltb_spec n 0) as [| _]; [lia |].
  unfold round_pos. rewrite ilog2_int by lia.
  destruct (Z.log2_spec n ltac:(lia)) as [Hlo Hhi].
  pose proof (Z.log2_nonneg n) as H0.
  set (e := Z.log2 n) in *.
  destruct (Z_le_gt_dec e 52) as [He | He].
  - (* exact *)
    assert (n < 2 ^ 53).
    { eapply Z.lt_le_trans; [exact Hhi |]. apply Z.pow_le_mono_r; lia. }
    rewrite (scale_nonneg (52 - e)) by lia. cbn [num den].
    rewrite round_half_even_unit.
    assert (Hp : 0 < 2 ^ (52 - e)) by (apply Z.pow_pos_nonneg; lia).
    destruct (Z.eq_dec e 52) as [He52 | Hne].
    + rewrite scale_nonneg by lia. cbn [num den].
      replace (52 - e) with 0 by lia. replace (e - 52) with 0 by lia.
      change (2 ^ 0) with 1.
      exists n, 1. split; [lia |]. split; [lia |]. split; [lia |].
      left. lia.
    + rewrite scale_neg by lia. cbn [num den].
      replace (- (e - 52)) with (52 - e) by lia.
      exists n, (2 ^ (52 - e)).
      split; [lia |]. split; [lia |]. split; [lia |]. left. lia.
  - assert (2 ^ 53 <= n).
    { eapply Z.le_trans; [| exact Hlo]. apply Z.pow_le_mono_r; lia. }
    rewrite (scale_neg (52 - e)) by lia. cbn [num den].
    replace (- (52 - e)) with (e - 52) by lia. rewrite Z.mul_1_l.
    rewrite (scale_nonneg (e - 52)) by lia. cbn [num den].
    assert (Hp : 0 < 2 ^ (e - 52)) by (apply Z.pow_pos_nonneg; lia).
    set (m := round_half_even n (2 ^ (e - 52))).
    assert (Hm : 2 ^ 52 <= m).
    { apply round_half_even_ge; [exact Hp |].
      rewrite <- Z.pow_add_r by lia. replace (52 + (e - 52)) with e by lia.
      exact Hlo. }
    exists (m * 2 ^ (e - 52)), 1.
    split; [lia |]. split; [lia |]. split; [lia |]. right.
    split; [assumption |].
    assert (2 ^ 53 <= 2 ^ e) by (apply Z.pow_le_mono_r; lia).
    assert (2 ^ e = 2 ^ 52 * 2 ^ (e - 52)).
    { rewrite <- Z.pow_add_r by lia. f_equal. lia. }
    nia.
Qed.

(** Below 2^53 the double quotient, rounded up, is the exact ceiling of
    the integer quotient. *)
Lemma ceil_of_quotient_exact s W :
  0 <= s < 2 ^ 53 -> 1 <= W ->
  RiegeliStreamIo.ceil_of_quotient s W = (s + W - 1) / W.
Proof.
  intros HS HW. unfold RiegeliStreamIo.ceil_of_quotient.
  destruct (of_int64_pos W HW) as (V & cb & Hcb & Hnb & Hdb & HV).
  destruct (Z.eq_dec s 0) as [-> | HS0].
  - unfold div. change (num (of_int64 0)) with 0. rewrite Z.mul_0_l.
    unfold round. cbn [num]. cbn.
    symmetry. apply Z.div_small. lia.
  - destruct (of_int64_pos s ltac:(lia)) as (V' & ca & Hca & Hna & Hda & HV').
    destruct HV' as [[_ ->] | [? _]]; [| lia].
    unfold div, round. rewrite Hna, Hda, Hnb, Hdb. cbn [num den].
    assert (0 < V) by (destruct HV as [[_ ->] | [_ ?]]; lia).
    destruct (Z.eqb_spec (s * ca * cb) 0) as [| _]; [nia |].
    destruct (Z.ltb_spec (s * ca * cb) 0) as [| _]; [nia |].
    replace (s * ca * cb) with (s * (ca * cb)) by ring.
    replace (ca * (V * cb)) with (V * (ca * cb)) by ring.
    rewrite round_pos_quotient_ceil by nia.
    destruct HV as [[_ ->] | [HWbig HVbig]]; [reflexivity |].
    rewrite <- (Z.div_unique_pos (s + V - 1) V 1 (s - 1)) by lia.
    rewrite <- (Z.div_unique_pos (s + W - 1) W 1 (s - 1)) by lia.
    reflexivity.
Qed.

End Binary64Facts.

(** ** Record stream readers *)

Module RiegeliStreamIoFacts.
Import RiegeliStreamIo.

Lemma BuildShardsLoop_chain fuel stream_size shard_size start acc shards :
  BuildShardsLoop fuel stream_size shard_size start acc = Some shards ->
  exists extra, shards = (acc ++ extra)%list
                /\ shard_chain stream_size shard_size start extra
                /\ (start < stream_size -> extra <> []).
Proof.
  revert start acc. induction fuel as [| fuel IH]; intros start acc; cbn.
  - discriminate.
  - destruct (Z.ltb_spec start stream_size) as [Hlt | Hge].
    + intros Hloop. apply IH in Hloop as (extra & -> & Hchain & _).
      eexists (_ :: extra). rewrite <- app_assoc. split; [reflexivity |].
      split; [| discriminate].
      cbn. auto.
    + intros [= <-]. exists []. rewrite app_nil_r.
      split; [reflexivity |]. split; [exact I | lia].
Qed.

Lemma BuildShardsLoop_terminates fuel stream_size shard_size workers :
  0 <= shard_size -> stream_size <= workers * shard_size ->
  forall j start acc,
    0 <= j <= workers -> j * (shard_size + 1) <= start ->
    workers - j < Z.of_nat fuel ->
    is_Some (BuildShardsLoop fuel stream_size shard_size start acc).
Proof.
  intros Hsize Hcover.
  induction fuel as [| fuel IH]; intros j start acc Hj Hstart Hfuel.
  - lia.
  - cbn. destruct (Z.ltb_spec start stream_size) as [Hlt | Hge];
      [| eexists; reflexivity].
    assert (j < workers) by nia.
    destruct (Z.min_spec (start + shard_size) stream_size)
      as [[Hlt' ->] | [Hle' ->]].
    + apply (IH (j + 1)); lia.
    + destruct fuel as [| fuel]; [lia |]. cbn.
      destruct (Z.ltb_spec (stream_size + 1) stream_size);
        [lia | eexists; reflexivity].
Qed.

(** index form of the chain *)
Lemma shard_chain_lookup stream_size shard_size start shards :
  shard_chain stream_size shard_size start shards ->
  (forall r, head shards = Some r -> start_pos r = start)
  /\ (forall i r, shards !! i = Some r ->
        end_pos r = Z.min (start_pos r + shard_size) stream_size)
  /\ (forall i r r', shards !! i = Some r -> shards !! S i = Some r' ->
        start_pos r' = end_pos r + 1).
Proof.
  revert start. induction shards as [| r0 rest IH]; intros start; cbn.
  - intros _. repeat split; intros; discriminate.
  - intros (Hs & He & Hrest). destruct (IH _ Hrest) as (Hhd & Hend & Hnext).
    split; [intros r [= <-]; exact Hs |]. split.
    + intros [| i] r; cbn; [intros [= <-]; congruence | apply Hend].
    + intros [| i] r r'; cbn.
      * intros [= <-] Hr'. apply Hhd. destruct rest; cbn in *; congruence.
      * apply Hnext.
Qed.

Lemma shard_size_of_exact stream_size options :
  0 <= stream_size < 2 ^ 53 -> 1 <= num_worker_threads options ->
  shard_size_of stream_size options
  = Z.min stream_size
          (Z.max ((stream_size + num_worker_threads options - 1)
                    / num_worker_threads options)
                 (min_shard_size_bytes options)).
Proof.
  intros Hs Hw. unfold shard_size_of.
  rewrite Binary64Facts.ceil_of_quotient_exact by assumption. reflexivity.
Qed.

Lemma bad_shards_false shards stream_size :
  bad_shards shards stream_size = false <->
  exists r, last shards = Some r /\ end_pos r = stream_size.
Proof.
  unfold bad_shards. destruct (last shards) as [r |].
  - destruct (Z.eqb_spec (end_pos r) stream_size); cbn; split;
      try discriminate; eauto.
    + intros (r' & [= <-] & ?). contradiction.
  - split; [discriminate | intros (r & Hr & _); discriminate].
Qed.

(** The test the join loop makes on two neighbouring results. *)
Ltac check_pair prev curr Hgap Hok :=
  destruct (Z.ltb_spec (next_shard_first_record_pos prev)
                       (first_record_pos curr)) as [Hgap | Hok].

Lemma JoinLoop_first_gap rest prev total :
  (JoinLoop (map Value rest) prev total = OkStatus
   /\ forall i p c, adjacent (prev :: rest) i p c -> ~ gap p c)
  \/ (exists i p c,
        adjacent (prev :: rest) i p c /\ gap p c
        /\ (forall j p' c', (j < i)%nat -> adjacent (prev :: rest) j p' c' ->
                            ~ gap p' c')
        /\ JoinLoop (map Value rest) prev total = SkippedRecordsError p c).
Proof.
  revert prev total. induction rest as [| curr rest IH]; intros prev total.
  - left. split; [reflexivity |]. intros i p c [_ H]. destruct i; discriminate.
  - cbn [map JoinLoop].
    check_pair prev curr Hgap Hok.
    + right. exists O, prev, curr. split; [split; reflexivity |].
      split; [exact Hgap |]. split; [intros; lia | reflexivity].
    + destruct (IH curr (total + num_records_read curr))
        as [[Hres Hall] | (i & p & c & Hadj & Hg & Hfirst & Hres)].
      * left. split; [exact Hres |]. intros [| i] p c [Hp Hc].
        -- cbn in Hp, Hc. injection Hp as <-. injection Hc as <-.
           unfold gap. lia.
        -- apply (Hall i). split; assumption.
      * right. exists (S i), p, c. split; [exact Hadj |].
        split; [exact Hg |]. split; [| exact Hres].
        intros [| j] p' c' Hj [Hp Hc].
        -- cbn in Hp, Hc. injection Hp as <-. injection Hc as <-.
           unfold gap. lia.
        -- apply (Hfirst j); [lia | split; assumption].
Qed.

Lemma JoinLoop_first_failure rs prev total s suffix :
  (forall i p c, adjacent (prev :: rs) i p c -> ~ gap p c) ->
  JoinLoop ((map Value rs) ++ Error s :: suffix) prev total = s.
Proof.
  revert prev total. induction rs as [| curr rs IH]; intros prev total Hall.
  - reflexivity.
  - cbn [map app JoinLoop].
    check_pair prev curr Hgap Hok.
    + exfalso. apply (Hall O prev curr); [split; reflexivity | exact Hgap].
    + apply IH. intros i p c [Hp Hc]. apply (Hall (S i)). split; assumption.
Qed.

Lemma JoinLoop_gap rs prev total suffix :
  (exists i p c, adjacent (prev :: rs) i p c /\ gap p c) ->
  exists i p c,
    adjacent (prev :: rs) i p c /\ gap p c
    /\ (forall j p' c', (j < i)%nat -> adjacent (prev :: rs) j p' c' ->
                        ~ gap p' c')
    /\ JoinLoop (map Value rs ++ suffix) prev total = SkippedRecordsError p c.
Proof.
  revert prev total. induction rs as [| curr rs IH]; intros prev total.
  - intros (i & p & c & [_ Habs] & _). destruct i; discriminate Habs.
  - intros (i & p & c & [Hp Hc] & Hgap). cbn [map app JoinLoop].
    check_pair prev curr Hg Hok.
    + exists O, prev, curr. split; [split; reflexivity |]. split; [exact Hg |].
      split; [intros; lia | reflexivity].
    + destruct i as [| i].
      * cbn in Hp, Hc. injection Hp as <-. injection Hc as <-.
        unfold gap in Hgap. lia.
      * destruct (IH curr (total + num_records_read curr))
          as (i' & p' & c' & [Hp' Hc'] & Hg' & Hfirst & Hres).
        { exists i, p, c. split; [split; assumption | exact Hgap]. }
        exists (S i'), p', c'. split; [split; assumption |].
        split; [exact Hg' |]. split; [| exact Hres].
        intros [| j] p'' c'' Hj [Hp'' Hc''].
        -- cbn in Hp'', Hc''. injection Hp'' as <-. injection Hc'' as <-.
           unfold gap. lia.
        -- apply (Hfirst j); [lia | split; assumption].
Qed.

Lemma JoinLoop_not_ok tasks prev total :
  Forall (fun t => forall s, t = Error s -> ok s = false) tasks ->
  Exists (fun t => is_value t = false) tasks ->
  ok (JoinLoop tasks prev total) = false.
Proof.
  revert prev total. induction tasks as [| t tasks IH]; intros prev total HF HE.
  - inversion HE.
  - inversion HF as [| ? ? Ht HF']; subst. cbn [JoinLoop].
    destruct t as [curr | s]; [| apply Ht; reflexivity].
    check_pair prev curr Hgap Hok; [reflexivity |].
    apply IH; [exact HF' |]. inversion HE as [? ? Hv | ]; subst;
      [discriminate Hv | assumption].
Qed.




(** A stream need not be empty for [BuildShards] to fail: with 10 bytes and
    three workers the shard size is 4, the shards are [0, 4] and [5, 9], and
    the loop stops with the next start at the stream size. *)
Example BuildShards_ten_bytes_three_workers :
  BuildShardsLoop 4 10 4 0 []
  = Some [ {| start_pos := 0; end_pos := 4 |};
           {| start_pos := 5; end_pos := 9 |} ]
  /\ BuildShards 4 10 Fixtures.three_workers
     = Some (Error (InternalError "Failed to generate shards.")).
Proof. split; reflexivity. Qed.

Section Reads.
Context {RecordT : Type}.
Implicit Types (callback cb : Callback RecordT) (stream : RecordStream RecordT).

Lemma ReadStreamRecordsLoop_spec callback records end_st overall seen :
  let out := ReadStreamRecordsLoop RecordT callback records end_st overall seen
  in returned out = end_st /\ delivered out = (seen ++ map fst records)%list.
Proof.
  revert overall seen.
  induction records as [| [record p] records IH]; intros overall seen; cbn.
  - rewrite app_nil_r. split; reflexivity.
  - destruct (IH (Update overall (callback seen record)) (seen ++ [record])%list)
      as [Hr Hd].
    split; [exact Hr |]. rewrite Hd, <- app_assoc. reflexivity.
Qed.

Lemma ReadShardRecordsLoop_callback cb1 cb2 shard_end records st end_st
      next num overall1 overall2 seen :
  without_overall
    (ReadShardRecordsLoop RecordT cb1 shard_end records st end_st next num
                          overall1 seen)
  = without_overall
      (ReadShardRecordsLoop RecordT cb2 shard_end records st end_st next num
                            overall2 seen).
Proof.
  revert next num overall1 overall2 seen.
  induction records as [| [record p] records IH];
    intros next num overall1 overall2 seen; cbn;
    destruct (Z.leb_spec next shard_end); try reflexivity.
  apply IH.
Qed.

Lemma ReadShardRecords_callback stream shard cb1 cb2 :
  observed (ReadShardRecords stream shard cb1)
  = observed (ReadShardRecords stream shard cb2).
Proof.
  unfold ReadShardRecords, observed.
  destruct (Seek stream (start_pos shard)) as [result reader].
  destruct result; cbn [negb]; [| reflexivity].
  pose proof (ReadShardRecordsLoop_callback cb1 cb2 (end_pos shard)
                (pending reader) (status reader) (end_status reader)
                (pos reader) 0 OkStatus OkStatus []) as H.
  destruct (ReadShardRecordsLoop RecordT cb1 _ _ _ _ _ _ _ _)
    as [[[[rs1 np1] n1] o1] seen1].
  destruct (ReadShardRecordsLoop RecordT cb2 _ _ _ _ _ _ _ _)
    as [[[[rs2 np2] n2] o2] seen2].
  cbn in H. injection H as -> -> -> ->. reflexivity.
Qed.

Lemma RunShardTasks_callback stream (cbs1 cbs2 : nat -> Callback RecordT)
      i shards :
  map observed (RunShardTasks stream cbs1 i shards)
  = map observed (RunShardTasks stream cbs2 i shards).
Proof.
  revert i. induction shards as [| shard shards IH]; intros i; cbn.
  - reflexivity.
  - rewrite (ReadShardRecords_callback stream shard (cbs1 i) (cbs2 i)), IH.
    reflexivity.
Qed.

(** A failed shard task carries a non-OK status. *)
Lemma ReadShardRecords_error stream shard callback s :
  sound_seek stream ->
  returned (ReadShardRecords stream shard callback) = Error s ->
  ok s = false.
Proof.
  intros Hseek. unfold ReadShardRecords.
  pose proof (Hseek (start_pos shard)) as Hs.
  destruct (Seek stream (start_pos shard)) as [result reader].
  destruct result; cbn [negb].
  - destruct (ReadShardRecordsLoop RecordT callback _ _ _ _ _ _ _ _)
      as [[[[rs np] n] o] seen]. cbn.
    destruct (ok rs) eqn:Hok; cbn; [discriminate | congruence].
  - cbn. intros [= <-]. apply Hs. reflexivity.
Qed.

End Reads.

Lemma RunShardTasks_errors {RecordT} (stream : RecordStream RecordT)
      (callback : nat -> Callback RecordT) i shards :
  sound_seek stream ->
  Forall (fun t => forall s, t = Error s -> ok s = false)
         (map returned (RunShardTasks stream callback i shards)).
Proof.
  intros Hseek. revert i.
  induction shards as [| shard shards IH]; intros i; cbn; constructor.
  - intros s Hs. eapply ReadShardRecords_error; eassumption.
  - apply IH.
Qed.

(** How [ConcurrentReadStreamRecords] comes by its status when it has
    launched tasks. *)
Lemma ConcurrentReadStreamRecords_tasks {RecordT} fuel
      (stream : RecordStream RecordT) options
      (callback : nat -> Callback RecordT) st tasks :
  ConcurrentReadStreamRecords fuel stream options callback = Some (st, tasks) ->
  tasks <> [] ->
  exists shards first rest,
    tasks = RunShardTasks stream callback 0 shards
    /\ map returned tasks = first :: rest
    /\ st = JoinShardTasks first rest.
Proof.
  unfold ConcurrentReadStreamRecords.
  destruct (BuildShards fuel (tellg_at_end stream) options)
    as [[[| shard0 shards] | s] |]; try discriminate;
    intros [= <- <-] Hne; try contradiction.
  exists (shard0 :: shards). do 2 eexists.
  split; [reflexivity |]. split; reflexivity.
Qed.




(** Scenario S5: the second shard's first record lies 100 bytes past the
    point where the first shard stopped. *)
Example ReadStreamRecords_skipped_1000_1100 :
  ConcurrentReadStreamRecords 3 Fixtures.skipping_stream Fixtures.two_workers
                              (fun _ => Fixtures.rejecting_callback)
  = Some (InternalError
            "Skipped some records between byte=1000 and byte=1100.",
          Fixtures.tasks_of
            (ConcurrentReadStreamRecords 3 Fixtures.skipping_stream
               Fixtures.two_workers (fun _ => Fixtures.rejecting_callback))).
Proof. reflexivity. Qed.


Lemma late_failing_stream_sound : sound_seek Fixtures.late_failing_stream.
Proof.
  intros p. cbn. destruct (p =? 0); [discriminate |].
  destruct (p =? 4); discriminate.
Qed.



End RiegeliStreamIoFacts.

(** ** The getValues hook *)

Module GetValuesHookFacts.
Import GetValuesHook.

Section WithSerializers.
Variable SerializeToArray : BinaryGetValuesResponse -> string.
Variable json_dump : Json -> string.
Variable json_parse : string -> option Json.
Variable MessageToJsonString : InternalLookupResponse -> StatusOr string.

Local Abbreviation call :=
  (call SerializeToArray json_dump json_parse MessageToJsonString).
Local Abbreviation status_output :=
  (status_output SerializeToArray json_dump).

Lemma SetStatus_output self code message io :
  SetStatus SerializeToArray json_dump self code message io
  = Some (set_output (status_output (output_type_ self) code message) io).
Proof. unfold SetStatus. destruct (output_type_ self); reflexivity. Qed.

(** C7, as amended.  Once the lookup has been supplied, a call whose input
    is not a list of strings returns normally, leaves as its output the
    status with code 3 (InvalidArgument) and message "getValues input must
    be list of strings" in the encoding chosen at construction, and makes
    no lookup. *)
Theorem call_rejects_other_inputs (self : GetValuesHookImpl)
        (lookup : Lookup) (io : FunctionBindingIoProto) :
  lookup_ self = Some lookup ->
  has_input_list_of_string io = false ->
  call self io
  = Some (set_output
            (status_output (output_type_ self) kInvalidArgument
                           "getValues input must be list of strings") io,
          [])
  /\ code_value kInvalidArgument = 3.
Proof.
  intros Hlookup Hinput. split; [| reflexivity].
  unfold GetValuesHook.call, has_input_list_of_string in *. rewrite Hlookup.
  destruct (io_input io); try discriminate Hinput;
    rewrite SetStatus_output; reflexivity.
Qed.

(** C9.  While no lookup has been supplied, every call returns normally,
    leaves as its output the status with code 13 (Internal) and message
    "getValues has not been initialized yet" in the encoding chosen at
    construction, and makes no lookup.  [FinishInit] installs its argument
    only when no lookup is installed, so after a first lookup has been
    supplied a second [FinishInit] changes nothing. *)
Theorem call_before_FinishInit (self : GetValuesHookImpl)
        (io : FunctionBindingIoProto) (lookup : option Lookup)
        (first_lookup : Lookup) (output_type : OutputType) :
  (lookup_ self = None ->
   call self io
   = Some (set_output
             (status_output (output_type_ self) kInternal
                            "getValues has not been initialized yet") io,
           []))
  /\ code_value kInternal = 13
  /\ (lookup_ self = None -> lookup_ (FinishInit lookup self) = lookup)
  /\ (is_Some (lookup_ self) -> FinishInit lookup self = self)
  /\ lookup_ (Create output_type) = None
  /\ lookup_ (FinishInit lookup
                (FinishInit (Some first_lookup) (Create output_type)))
     = Some first_lookup.
Proof.
  split; [| split; [reflexivity | split; [| split; [| split]]]].
  - intros Hnone. unfold GetValuesHook.call. rewrite Hnone.
    rewrite SetStatus_output. reflexivity.
  - intros Hnone. unfold FinishInit. rewrite Hnone. reflexivity.
  - intros [l Hl]. unfold FinishInit. rewrite Hl. reflexivity.
  - reflexivity.
  - reflexivity.
Qed.

End WithSerializers.

Lemma call_rejects_other_inputs_witness :
  call Fixtures.show_binary Fixtures.show_json Fixtures.no_parse
       Fixtures.no_json
       (FinishInit (Some Fixtures.empty_lookup) (Create kBinary))
       Fixtures.string_io
  = Some (set_output
            (status_output Fixtures.show_binary Fixtures.show_json kBinary
                           kInvalidArgument
                           "getValues input must be list of strings")
            Fixtures.string_io,
          []).
Proof.
  apply (call_rejects_other_inputs Fixtures.show_binary Fixtures.show_json
           Fixtures.no_parse Fixtures.no_json
           (FinishInit (Some Fixtures.empty_lookup) (Create kBinary))
           Fixtures.empty_lookup Fixtures.string_io).
  - reflexivity.
  - reflexivity.
Defined.

(** C7 as stated fails: before the lookup has been supplied, a call whose
    input is a plain string is answered with the status Internal (13),
    "getValues has not been initialized yet", not with InvalidArgument. *)
Lemma call_rejects_other_inputs_counterexample :
  has_input_list_of_string Fixtures.string_io = false
  /\ call Fixtures.show_binary Fixtures.show_json Fixtures.no_parse
          Fixtures.no_json (Create kString) Fixtures.string_io
     = Some (set_output
               (status_output Fixtures.show_binary Fixtures.show_json kString
                              kInternal
                              "getValues has not been initialized yet")
               Fixtures.string_io,
             [])
  /\ call Fixtures.show_binary Fixtures.show_json Fixtures.no_parse
          Fixtures.no_json (Create kString) Fixtures.string_io
     <> Some (set_output
                (status_output Fixtures.show_binary Fixtures.show_json kString
                               kInvalidArgument
                               "getValues input must be list of strings")
                Fixtures.string_io,
              []).
Proof.
  split; [reflexivity |]. split; [reflexivity |]. vm_compute. discriminate.
Qed.

Lemma call_before_FinishInit_witness :
  call Fixtures.show_binary Fixtures.show_json Fixtures.no_parse
       Fixtures.no_json (Create kString) Fixtures.string_io
  = Some (set_output
            (status_output Fixtures.show_binary Fixtures.show_json kString
                           kInternal "getValues has not been initialized yet")
            Fixtures.string_io,
          [])
  /\ FinishInit (Some Fixtures.broken_lookup)
                (FinishInit (Some Fixtures.empty_lookup) (Create kString))
     = FinishInit (Some Fixtures.empty_lookup) (Create kString).
Proof.
  split.
  - apply (call_before_FinishInit Fixtures.show_binary Fixtures.show_json
             Fixtures.no_parse Fixtures.no_json (Create kString)
             Fixtures.string_io None Fixtures.empty_lookup kString).
    reflexivity.
  - apply (call_before_FinishInit Fixtures.show_binary Fixtures.show_json
             Fixtures.no_parse Fixtures.no_json
             (FinishInit (Some Fixtures.empty_lookup) (Create kString))
             Fixtures.string_io (Some Fixtures.broken_lookup)
             Fixtures.empty_lookup kString).
    eexists. reflexivity.
Defined.

End GetValuesHookFacts.

(** ** The V1 to V2 adapter *)

Module GetValuesAdapterFacts.
Import GetValuesAdapter.

(** Both writes of [ProcessKeyValue] go to the same key, so only the
    second one shows. *)
Lemma ProcessKeyValue_raw JsonStringToMessage k v
      (result_struct : gmap string ProtoValue) :
  ProcessKeyValue JsonStringToMessage k v result_struct
  = <[k := value v]> result_struct.
Proof.
  unfold ProcessKeyValue. destruct (has_string_value (value v)); [| reflexivity].
  destruct (JsonStringToMessage _); [apply insert_insert_eq | reflexivity].
Qed.

Lemma foldr_ProcessKeyValue JsonStringToMessage
      (l : list (string * ValueObject)) (result_struct : gmap string ProtoValue) :
  foldr (uncurry (ProcessKeyValue JsonStringToMessage)) result_struct l
  = foldr (uncurry (fun k v r => <[k := value v]> r)) result_struct l.
Proof.
  induction l as [| [k v] l IH]; cbn; [reflexivity |].
  rewrite ProcessKeyValue_raw, IH. reflexivity.
Qed.

Lemma WriteRawValues_lookup kgo (result_struct : gmap string ProtoValue) k :
  WriteRawValues kgo result_struct !! k
  = match key_values kgo !! k with
    | Some v => Some (value v)
    | None => result_struct !! k
    end.
Proof.
  unfold WriteRawValues.
  apply (map_fold_weak_ind
           (fun (r : gmap string ProtoValue) (m : gmap string ValueObject) =>
              r !! k = match m !! k with
                       | Some v => Some (value v)
                       | None => result_struct !! k
                       end)).
  - rewrite lookup_empty. reflexivity.
  - intros i x m r Hi IH. destruct (decide (i = k)) as [-> | Hne].
    + rewrite !lookup_insert_eq. reflexivity.
    + rewrite !lookup_insert_ne by exact Hne. exact IH.
Qed.

(** C8.  [ProcessKeyValues] leaves, for every key of the key group output,
    the raw value of that key in the result struct, whatever the JSON
    parser makes of a string value: it is the same function as the one
    that only writes the raw values.  In particular a key whose value is a
    string ends up with that string. *)
Theorem ProcessKeyValues_writes_raw_values
        (JsonStringToMessage : string -> StatusOr ProtoValue)
        (key_group_output : KeyGroupOutput)
        (result_struct : gmap string ProtoValue) :
  ProcessKeyValues JsonStringToMessage key_group_output result_struct
  = WriteRawValues key_group_output result_struct
  /\ (forall k v s,
        key_values key_group_output !! k = Some v ->
        value v = string_value s ->
        ProcessKeyValues JsonStringToMessage key_group_output result_struct
        !! k = Some (string_value s))
  /\ (forall k v,
        key_values key_group_output !! k = Some v ->
        ProcessKeyValues JsonStringToMessage key_group_output result_struct
        !! k = Some (value v))
  /\ (forall k,
        key_values key_group_output !! k = None ->
        ProcessKeyValues JsonStringToMessage key_group_output result_struct
        !! k = result_struct !! k).
Proof.
  assert (Heq : ProcessKeyValues JsonStringToMessage key_group_output
                                 result_struct
                = WriteRawValues key_group_output result_struct).
  { unfold ProcessKeyValues, WriteRawValues. rewrite !map_fold_foldr.
    apply foldr_ProcessKeyValue. }
  split; [exact Heq |]. rewrite Heq. repeat split.
  - intros k v s Hk Hs. rewrite WriteRawValues_lookup, Hk, Hs. reflexivity.
  - intros k v Hk. rewrite WriteRawValues_lookup, Hk. reflexivity.
  - intros k Hk. rewrite WriteRawValues_lookup, Hk. reflexivity.
Qed.

Lemma ProcessKeyValues_writes_raw_values_witness :
  ProcessKeyValues Fixtures.parse_as_number Fixtures.one_key_output ∅
  !! "key1" = Some (string_value "123").
Proof.
  apply (proj1 (proj2 (ProcessKeyValues_writes_raw_values
                         Fixtures.parse_as_number Fixtures.one_key_output ∅))
               "key1" {| value := string_value "123" |} "123").
  - reflexivity.
  - reflexivity.
Defined.

End GetValuesAdapterFacts.

(** ** The V2 request handler *)

Module GetValuesV2HandlerFacts.
Import GetValuesV2Handler.

(** C5.  When the envelope of a request opens and the request has
    partitions, a UDF failure does not fail the request: the transport
    status is OK, the response code of the Binary HTTP layer is 200, and
    the response has one partition per request partition, in order, with
    the partition's id and either the UDF's string output or, where the UDF
    failed, the code and message of its error. *)
Theorem udf_failure_stays_in_its_partition
        (ExecuteCode : UDFExecutionMetadata -> list UDFArgument
                       -> StatusOr string)
        (Decapsulate : ProtocolType -> string -> StatusOr string)
        (JsonStringToMessage : string -> StatusOr GetValuesRequest)
        (protocol : ProtocolType) (raw_body body : string)
        (request : GetValuesRequest) :
  OpenEnvelope Decapsulate protocol raw_body = Value body ->
  JsonStringToMessage body = Value request ->
  partitions request <> [] ->
  let reply := Handle ExecuteCode Decapsulate JsonStringToMessage
                      protocol raw_body in
  transport_status reply = OkStatus
  /\ bhttp_response_code reply
     = match protocol with kPlain => None | _ => Some 200 end
  /\ response_partitions reply
     = map (ProcessOnePartition ExecuteCode (metadata request))
           (partitions request)
  /\ Forall2
       (fun req_partition resp_partition =>
          rp_id resp_partition = id req_partition
          /\ match ExecuteCode
                     {| udf_interface_version := 0;
                        request_metadata := metadata request |}
                     (arguments req_partition) with
             | Value output =>
                 rp_output resp_partition = string_output output
             | Error s =>
                 rp_output resp_partition
                 = partition_status (code_value (code s)) (message s)
             end)
       (partitions request) (response_partitions reply).
Proof.
  intros Hopen Hparse Hne reply. subst reply.
  unfold Handle, GetValuesHttp, GetValues. rewrite Hopen, Hparse.
  destruct (partitions request) as [| p ps] eqn:Hps; [contradiction |].
  assert (HF : Forall2
                 (fun req_partition resp_partition =>
                    rp_id resp_partition = id req_partition
                    /\ match ExecuteCode
                               {| udf_interface_version := 0;
                                  request_metadata := metadata request |}
                               (arguments req_partition) with
                       | Value output =>
                           rp_output resp_partition = string_output output
                       | Error s =>
                           rp_output resp_partition
                           = partition_status (code_value (code s))
                                              (message s)
                       end)
                 (p :: ps)
                 (map (ProcessOnePartition ExecuteCode (metadata request))
                      (p :: ps))).
  { clear. induction (p :: ps) as [| q qs IH]; cbn; constructor; [| exact IH].
    unfold ProcessOnePartition.
    destruct (ExecuteCode _ (arguments q)); split; reflexivity. }
  destruct protocol; cbn; repeat split; exact HF.
Qed.

Lemma udf_failure_stays_in_its_partition_witness :
  response_partitions
    (Handle Fixtures.failing_on_empty Fixtures.open_any
            Fixtures.parse_two_partitions kObliviousHttp "request")
  = map (ProcessOnePartition Fixtures.failing_on_empty [])
        (partitions Fixtures.two_partitions).
Proof.
  apply (udf_failure_stays_in_its_partition Fixtures.failing_on_empty
           Fixtures.open_any Fixtures.parse_two_partitions kObliviousHttp
           "request" "request" Fixtures.two_partitions).
  - reflexivity.
  - reflexivity.
  - discriminate.
Defined.

(** Scenario S4: partition 0 fails in the UDF, partition 1 succeeds. *)
Example udf_failure_isolation :
  Handle Fixtures.failing_on_empty Fixtures.open_any
         Fixtures.parse_two_partitions kBinaryHttp "request"
  = {| transport_status := OkStatus;
       bhttp_response_code := Some 200;
       response_partitions :=
         [ {| rp_id := 0;
              rp_output := partition_status 13 "UDF execution error" |};
           {| rp_id := 1; rp_output := string_output "ECHO" |} ] |}.
Proof. reflexivity. Qed.

End GetValuesV2HandlerFacts.

(** ** The UDF client: invocation and serialisation errors *)

Module UdfClientCallFacts.
Import UdfClient.

(** X9.  [SetWasmCodeObject] returns what [SetCodeObject] returns and leaves
    the client in the same state, for every code config and every answer of
    the sandbox. *)
Theorem SetWasmCodeObject_is_SetCodeObject
        (roma : CodeObject -> RomaOutcome unit) (c : CodeConfig)
        (self : UdfClientImpl) :
  SetWasmCodeObject roma c self = SetCodeObject roma c self.
Proof.
  unfold SetWasmCodeObject, SetCodeObject.
  destruct (logical_commit_time_ self >=? logical_commit_time c);
    [reflexivity |].
  destruct (ok (dispatch_status _)) eqn:Hd; cbn [negb fst snd];
    [| rewrite Hd; reflexivity].
  destruct (notified _); cbn [negb fst snd]; [| reflexivity].
  destruct (ok (response_status _)) eqn:Hr; cbn [negb fst snd];
    [reflexivity | rewrite Hr; reflexivity].
Qed.

(** X10.  [ExecuteCode(keys)] never returns an error whose status is OK.  It
    returns a value exactly when the request was dispatched, the callback
    ran before the timeout and the response carried no error, and the value
    is then the response of the sandbox.  A dispatch error is returned as it
    is, and a request that was dispatched but not answered in time gives
    Internal "Timed out waiting for UDF result." *)
Theorem ExecuteCodeKeys_outcome
        (Execute : InvocationRequestStrInput -> RomaOutcome ResponseObject)
        (keys : list string) (self : UdfClientImpl) :
  let o := Execute (BuildInvocationRequest self keys) in
  (forall s, ExecuteCodeKeys Execute keys self = Error s -> ok s = false)
  /\ (forall v, ExecuteCodeKeys Execute keys self = Value v
                <-> ok (dispatch_status o) = true /\ notified o = true
                    /\ ok (response_status o) = true /\ v = result o)
  /\ (ok (dispatch_status o) = true -> notified o = false ->
      ExecuteCodeKeys Execute keys self
      = Error (InternalError "Timed out waiting for UDF result."))
  /\ (ok (dispatch_status o) = false ->
      ExecuteCodeKeys Execute keys self = Error (dispatch_status o)).
Proof.
  intros o. unfold ExecuteCodeKeys. fold o.
  destruct (ok (dispatch_status o)) eqn:Hd; cbn [negb];
    [destruct (notified o) eqn:Hn; cbn [negb];
     [destruct (ok (response_status o)) eqn:Hr; cbn [negb] |] |];
    repeat split; intros;
    repeat match goal with
           | H : _ /\ _ |- _ => destruct H
           | H : Error _ = Error _ |- _ => injection H as <-
           | H : Value _ = Value _ |- _ => injection H as <-
           end;
    subst; try discriminate; try congruence; auto.
Qed.

(** X11.  The first message that cannot be printed as JSON decides the
    result of [ExecuteCode(metadata, arguments)]: when the metadata cannot
    be printed, or when it can and the first argument that cannot be printed
    fails with [json_status], the call returns [json_status], whatever the
    sandbox would have done with the request. *)
Theorem ExecuteCode_first_serialization_failure
        (Execute : InvocationRequestStrInput -> RomaOutcome ResponseObject)
        (MessageToJsonString : Message -> StatusOr string)
        (execution_metadata : UDFExecutionMetadata)
        (before after : list UDFArgument) (arg : UDFArgument)
        (self : UdfClientImpl) (json_status : Status) :
  let versioned :=
    set_udf_interface_version kUdfInterfaceVersion execution_metadata in
  (MessageToJsonString (MetadataMessage versioned) = Error json_status ->
   ExecuteCode Execute MessageToJsonString execution_metadata
               (before ++ arg :: after) self
   = Error json_status)
  /\ (is_value (MessageToJsonString (MetadataMessage versioned)) = true ->
      Forall (fun a => is_value (MessageToJsonString (arg_data a)) = true)
             before ->
      MessageToJsonString (arg_data arg) = Error json_status ->
      ExecuteCode Execute MessageToJsonString execution_metadata
                  (before ++ arg :: after) self
      = Error json_status).
Proof.
  intros versioned. unfold ExecuteCode, BuildStringArgs. fold versioned. split.
  - intros ->. reflexivity.
  - destruct (MessageToJsonString (MetadataMessage versioned))
      as [json_metadata |]; [| discriminate].
    intros _ Hbefore Harg.
    assert (H : forall string_args,
               SerializeArguments MessageToJsonString (before ++ arg :: after)
                                  string_args = Error json_status).
    { induction Hbefore as [| a before Ha _ IH]; intros string_args; cbn.
      - rewrite Harg. reflexivity.
      - destruct (MessageToJsonString (arg_data a)); [apply IH | discriminate]. }
    rewrite H. reflexivity.
Qed.

Lemma ExecuteCode_first_serialization_failure_witness :
  ExecuteCode Fixtures.down_execute Fixtures.picky_printer
              Fixtures.some_metadata
              ([Fixtures.tagged_argument; Fixtures.bare_argument]
                 ++ Fixtures.unset_argument :: [Fixtures.bare_argument])
              new_client
  = Error (InternalError "Value not set.").
Proof.
  apply (ExecuteCode_first_serialization_failure
           Fixtures.down_execute Fixtures.picky_printer Fixtures.some_metadata
           [Fixtures.tagged_argument; Fixtures.bare_argument]
           [Fixtures.bare_argument] Fixtures.unset_argument new_client
           (InternalError "Value not set.")).
  - reflexivity.
  - repeat constructor.
  - reflexivity.
Defined.

End UdfClientCallFacts.

(** ** The shards of a stream *)

Module BuildShardsFacts.
Import RiegeliStreamIo RiegeliStreamIoFacts.

Lemma BuildShardsLoop_closed fuel stream_size shard_size :
  0 <= shard_size ->
  forall j acc shards,
    BuildShardsLoop fuel stream_size shard_size
                    (Z.of_nat j * (shard_size + 1)) acc = Some shards ->
    exists n, shards = (acc ++ map (nth_shard stream_size shard_size) (seq j n))%list
              /\ (forall k, (k < j + n)%nat -> (j <= k)%nat -> Z.of_nat k * (shard_size + 1) < stream_size)
              /\ (stream_size <= Z.of_nat (j + n) * (shard_size + 1)).
Proof.
  intros Hsize. induction fuel as [| fuel IH]; intros j acc shards; cbn.
  - discriminate.
  - destruct (Z.ltb_spec (Z.of_nat j * (shard_size + 1)) stream_size) as [Hlt | Hge].
    + destruct (Z.min_spec (Z.of_nat j * (shard_size + 1) + shard_size) stream_size)
        as [[Hlt' Hmin] | [Hle' Hmin]].
      * rewrite Hmin.
        replace (Z.of_nat j * (shard_size + 1) + shard_size + 1)
          with (Z.of_nat (S j) * (shard_size + 1)) by lia.
        intros Hloop. apply IH in Hloop as (n & -> & Hin & Hout).
        exists (S n). rewrite <- app_assoc. cbn. split.
        { unfold nth_shard at 2. rewrite Hmin. reflexivity. }
        split.
        { intros k Hk Hj. destruct (Nat.eq_dec k j) as [-> |]; [exact Hlt |].
          apply Hin; lia. }
        { replace (j + S n)%nat with (S j + n)%nat by lia. exact Hout. }
      * rewrite Hmin. destruct fuel as [| fuel]; [discriminate |]. cbn.
        destruct (Z.ltb_spec (stream_size + 1) stream_size); [lia |].
        intros [= <-]. exists 1%nat. cbn. split.
        { unfold nth_shard. rewrite Hmin. reflexivity. }
        split.
        { intros k Hk Hj. assert (k = j) as -> by lia. exact Hlt. }
        { lia. }
    + intros [= <-]. exists 0%nat. cbn. rewrite app_nil_r.
      split; [reflexivity |]. split; [lia |].
      replace (j + 0)%nat with j by lia. lia.
Qed.

Lemma last_map_seq {A} (f : nat -> A) n :
  last (map f (seq 0 (S n))) = Some (f n).
Proof.
  rewrite seq_S, map_app. cbn. apply last_snoc.
Qed.

Lemma shard_size_of_bounds stream_size options :
  0 <= stream_size < 2 ^ 53 -> 1 <= num_worker_threads options ->
  let shard_size := shard_size_of stream_size options in
  0 <= shard_size <= stream_size
  /\ (1 <= stream_size -> 1 <= shard_size)
  /\ (shard_size = stream_size
      \/ stream_size <= num_worker_threads options * shard_size).
Proof.
  intros Hs Hw. cbn. rewrite shard_size_of_exact by assumption.
  set (W := num_worker_threads options) in *.
  pose proof (Binary64Facts.ceil_div_bounds stream_size W ltac:(lia))
    as [Hlo Hc].
  assert (0 <= (stream_size + W - 1) / W) by (apply Z.div_pos; lia).
  assert (1 <= stream_size -> 1 <= (stream_size + W - 1) / W).
  { intros. apply Z.div_le_lower_bound; lia. }
  split; [lia |]. split; [lia |].
  destruct (Z.min_spec stream_size
              (Z.max ((stream_size + W - 1) / W)
                     (min_shard_size_bytes options))) as [[_ ->] | [_ ->]];
    [left; reflexivity | right; nia].
Qed.

(** What [BuildShards] returns for a stream below 2^53 bytes: an error
    exactly when the size is a multiple of the shard size plus one, and
    the ranges [nth_shard 0], [nth_shard 1], ... otherwise. *)
Lemma BuildShards_result fuel stream_size options :
  0 <= stream_size < 2 ^ 53 ->
  1 <= num_worker_threads options ->
  num_worker_threads options < Z.of_nat fuel ->
  let shard_size := shard_size_of stream_size options in
  exists n,
    BuildShards fuel stream_size options
    = Some (if stream_size mod (shard_size + 1) =? 0
            then Error (InternalError "Failed to generate shards.")
            else Value (map (nth_shard stream_size shard_size) (seq 0 n)))
    /\ Z.of_nat n <= num_worker_threads options
    /\ (forall k, (k < n)%nat -> Z.of_nat k * (shard_size + 1) < stream_size)
    /\ stream_size <= Z.of_nat n * (shard_size + 1).
Proof.
  intros Hs Hw Hfuel shard_size.
  destruct (shard_size_of_bounds stream_size options Hs Hw)
    as (Hsize & Hpos & Hcover).
  fold shard_size in Hsize, Hpos, Hcover.
  set (W := num_worker_threads options) in *.
  assert (Hcover' : stream_size <= W * shard_size) by nia.
  destruct (BuildShardsLoop_terminates fuel stream_size shard_size W
              ltac:(lia) Hcover' 0 0 [] ltac:(lia) ltac:(lia) ltac:(lia))
    as [shards Hloop].
  destruct (BuildShardsLoop_closed fuel stream_size shard_size ltac:(lia)
              0%nat [] shards Hloop) as (n & -> & Hin & Hout).
  rewrite app_nil_l in Hloop. cbn in Hin, Hout |- *. exists n.
  assert (Hin' : forall k, (k < n)%nat ->
                           Z.of_nat k * (shard_size + 1) < stream_size)
    by (intros; apply Hin; lia).
  assert (Hn : Z.of_nat n <= W).
  { destruct n as [| n]; [lia |].
    specialize (Hin' n ltac:(lia)). nia. }
  split; [| auto].
  unfold BuildShards, RecordStreamSize.
  destruct (Z.eqb_spec stream_size (-1)); [lia |].
  fold W. destruct (Z.ltb_spec W 1); [lia |].
  fold shard_size. rewrite Hloop.
  destruct n as [| n].
  - cbn. assert (stream_size = 0) as -> by lia. reflexivity.
  - unfold bad_shards. rewrite last_map_seq. cbn [end_pos nth_shard].
    specialize (Hin' n ltac:(lia)).
    destruct (Z.eqb_spec (stream_size mod (shard_size + 1)) 0) as [Hmod | Hmod].
    + apply Z.mod_divide in Hmod; [| lia]. destruct Hmod as [m Hm].
      assert (m = Z.of_nat (S n)) by nia.
      destruct (Z.eqb_spec (Z.min (Z.of_nat n * (shard_size + 1) + shard_size)
                                  stream_size) stream_size); [lia | reflexivity].
    + destruct (Z.eqb_spec (Z.min (Z.of_nat n * (shard_size + 1) + shard_size)
                                  stream_size) stream_size) as [| Hne];
        [reflexivity |].
      exfalso. apply Hmod.
      assert (Heq : stream_size = Z.of_nat (S n) * (shard_size + 1)) by lia.
      rewrite Heq. apply Z.mod_mul. lia.
Qed.

Lemma lookup_map_seq {A} (f : nat -> A) n i r :
  map f (seq 0 n) !! i = Some r <-> (i < n)%nat /\ r = f i.
Proof.
  change (map f (seq 0 n)) with (f <$> seq 0 n).
  rewrite list_lookup_fmap. split.
  - destruct (seq 0 n !! i) as [k |] eqn:Hk; [| discriminate].
    apply lookup_seq in Hk as [-> Hlt]. cbn. intros [= <-]. auto.
  - intros [Hlt ->]. rewrite (lookup_seq_lt 0 n i Hlt). reflexivity.
Qed.

Lemma BuildShards_error fuel tellg options s :
  BuildShards fuel tellg options = Some (Error s) -> ok s = false.
Proof.
  unfold BuildShards, RecordStreamSize.
  destruct (tellg =? -1); [intros [= <-]; reflexivity |].
  destruct (num_worker_threads options <? 1); [intros [= <-]; reflexivity |].
  destruct (BuildShardsLoop _ _ _ _ _) as [shards |]; [| discriminate].
  destruct (bad_shards shards tellg); [| discriminate].
  intros [= <-]. reflexivity.
Qed.

Lemma BuildShards_nonempty fuel tellg options shards :
  BuildShards fuel tellg options = Some (Value shards) -> shards <> [].
Proof.
  unfold BuildShards, RecordStreamSize.
  destruct (tellg =? -1); [discriminate |].
  destruct (num_worker_threads options <? 1); [discriminate |].
  destruct (BuildShardsLoop _ _ _ _ _) as [shards' |]; [| discriminate].
  destruct shards' as [| r shards']; [discriminate |].
  destruct (bad_shards (r :: shards') tellg); [discriminate |].
  intros [= <-]. discriminate.
Qed.

Lemma BuildShards_value fuel tellg options shards :
  BuildShards fuel tellg options = Some (Value shards) ->
  shard_chain tellg (shard_size_of tellg options) 0 shards
  /\ exists r, last shards = Some r /\ end_pos r = tellg.
Proof.
  unfold BuildShards, RecordStreamSize.
  destruct (tellg =? -1); [discriminate |].
  destruct (num_worker_threads options <? 1); [discriminate |].
  destruct (BuildShardsLoop _ _ _ _ _) as [shards' |] eqn:Hloop;
    [| discriminate].
  destruct (bad_shards shards' tellg) eqn:Hbad; [discriminate |].
  intros [= <-].
  destruct (BuildShardsLoop_chain _ _ _ _ _ _ Hloop)
    as (extra & -> & Hchain & _).
  split; [exact Hchain |]. apply bad_shards_false. exact Hbad.
Qed.

(** X1.  For a stream of fewer than 2^53 bytes and at least one worker,
    [BuildShards] fails with Internal "Failed to generate shards." exactly
    when the stream size is a multiple of the shard size plus one (the
    empty stream included), and returns shards in every other case. *)
Theorem BuildShards_fails_on_multiples (fuel : nat) (stream_size : Z)
        (options : Options) :
  0 <= stream_size < 2 ^ 53 ->
  1 <= num_worker_threads options ->
  num_worker_threads options < Z.of_nat fuel ->
  let shard_size :=
    Z.min stream_size
          (Z.max ((stream_size + num_worker_threads options - 1)
                    / num_worker_threads options)
                 (min_shard_size_bytes options)) in
  (BuildShards fuel stream_size options
   = Some (Error (InternalError "Failed to generate shards."))
   <-> stream_size mod (shard_size + 1) = 0)
  /\ (stream_size mod (shard_size + 1) <> 0 ->
      exists shards, BuildShards fuel stream_size options = Some (Value shards)).
Proof.
  intros Hs Hw Hfuel shard_size.
  destruct (BuildShards_result fuel stream_size options Hs Hw Hfuel)
    as (n & Hres & _).
  rewrite (shard_size_of_exact stream_size options Hs Hw) in Hres.
  fold shard_size in Hres. rewrite Hres.
  destruct (Z.eqb_spec (stream_size mod (shard_size + 1)) 0) as [Hmod | Hmod].
  - split; [split; auto | contradiction].
  - split; [split; [discriminate | contradiction] | eauto].
Qed.

Lemma BuildShards_fails_on_multiples_witness :
  (BuildShards 4 10 Fixtures.three_workers
   = Some (Error (InternalError "Failed to generate shards."))
   <-> 10 mod (4 + 1) = 0)
  /\ (10 mod (4 + 1) <> 0 ->
      exists shards, BuildShards 4 10 Fixtures.three_workers = Some (Value shards)).
Proof.
  apply (BuildShards_fails_on_multiples 4 10 Fixtures.three_workers).
  - split; [discriminate | reflexivity].
  - discriminate.
  - reflexivity.
Defined.





End BuildShardsFacts.

(** ** What the readers deliver, return and log *)

Module RecordReaderFacts.
Import RiegeliStreamIo RiegeliStreamIoFacts BuildShardsFacts.

(** X4.  When [BuildShards] fails, [ReadStreamRecords] returns its status,
    which is not OK, starts no shard task and so delivers no record.  The
    status is InvalidArgument "Input streams do not support seeking." for a
    stream that cannot seek, whatever the options; InvalidArgument naming
    the number of worker threads when that number is below 1; and Internal
    "Failed to generate shards." in every other case. *)
Theorem ReadStreamRecords_without_shards {RecordT} (fuel : nat)
        (stream : RecordStream RecordT) (options : Options)
        (callback : nat -> Callback RecordT) (s : Status) :
  BuildShards fuel (tellg_at_end stream) options = Some (Error s) ->
  ConcurrentReadStreamRecords fuel stream options callback = Some (s, [])
  /\ ok s = false
  /\ (tellg_at_end stream = -1 ->
      s = InvalidArgumentError "Input streams do not support seeking.")
  /\ (tellg_at_end stream <> -1 -> num_worker_threads options < 1 ->
      s = InvalidArgumentError
            ("Num worker threads "
               ++ FormatInt (num_worker_threads options)
               ++ " must be at least 1."))
  /\ (tellg_at_end stream <> -1 -> 1 <= num_worker_threads options ->
      s = InternalError "Failed to generate shards.").
Proof.
  intros Hbuild.
  split; [unfold ConcurrentReadStreamRecords; rewrite Hbuild; reflexivity |].
  split; [eapply BuildShards_error; exact Hbuild |].
  unfold BuildShards, RecordStreamSize in Hbuild.
  destruct (Z.eqb_spec (tellg_at_end stream) (-1)) as [Hseek | Hseek].
  - injection Hbuild as <-. split; [reflexivity |]. split; contradiction.
  - split; [contradiction |].
    destruct (Z.ltb_spec (num_worker_threads options) 1) as [Hw | Hw].
    + injection Hbuild as <-. split; [reflexivity |]. intros _ ?. lia.
    + split; [intros _ ?; lia |]. intros _ _.
      destruct (BuildShardsLoop _ _ _ _ _) as [shards |]; [| discriminate].
      destruct (bad_shards shards (tellg_at_end stream)); [| discriminate].
      injection Hbuild as <-. reflexivity.
Qed.

Lemma ReadStreamRecords_without_shards_witness :
  ConcurrentReadStreamRecords 0 Fixtures.unseekable_stream
                              Fixtures.three_workers
                              (fun _ => Fixtures.accepting_callback)
  = Some (InvalidArgumentError "Input streams do not support seeking.", []).
Proof.
  apply (ReadStreamRecords_without_shards 0 Fixtures.unseekable_stream
           Fixtures.three_workers (fun _ => Fixtures.accepting_callback)
           (InvalidArgumentError "Input streams do not support seeking.")).
  reflexivity.
Defined.

Section Reads.
Context {RecordT : Type}.
Implicit Types (callback cb : Callback RecordT) (stream : RecordStream RecordT).
Implicit Types (records l : list (RecordT * Z)).

Lemma log_if_error_Update overall statuses :
  log_if_error (fold_left Update statuses overall)
  = if ok overall then first_error statuses else [overall].
Proof.
  revert overall. induction statuses as [| s statuses IH]; intros overall; cbn.
  - unfold log_if_error, first_error. cbn. destruct (ok overall); reflexivity.
  - rewrite IH. unfold Update, first_error. cbn.
    destruct (ok overall) eqn:Ho; [| rewrite Ho; reflexivity].
    destruct (ok s); reflexivity.
Qed.

Lemma ReadStreamRecordsLoop_logged callback records end_st overall seen :
  logged (ReadStreamRecordsLoop RecordT callback records end_st overall seen)
  = log_if_error
      (fold_left Update (callback_statuses callback seen (map fst records))
                 overall).
Proof.
  revert overall seen.
  induction records as [| [record p] records IH]; intros overall seen; cbn.
  - reflexivity.
  - apply IH.
Qed.

(** What the loop of [ReadShardRecords] leaves behind. *)
Lemma ReadShardRecordsLoop_spec callback shard_end records st end_st
      next num overall seen :
  exists k next' more,
    ReadShardRecordsLoop RecordT callback shard_end records st end_st next num
                         overall seen
    = (if (k =? length records)%nat && (next' <=? shard_end) then end_st else st,
       next', num + Z.of_nat k,
       fold_left Update (callback_statuses callback seen more) overall,
       (seen ++ more)%list)
    /\ more = map fst (take k records)
    /\ (k <= length records)%nat
    /\ (shard_end < next' \/ k = length records)
    /\ last (next :: map snd (take k records)) = Some next'.
Proof.
  revert next num overall seen.
  induction records as [| [record p] records IH];
    intros next num overall seen; cbn [ReadShardRecordsLoop].
  - exists 0%nat, next, []. cbn.
    destruct (Z.leb_spec next shard_end); cbn;
      rewrite Z.add_0_r, app_nil_r; repeat split; auto.
  - destruct (Z.leb_spec next shard_end) as [Hle | Hgt].
    + destruct (IH p (num + 1) (Update overall (callback seen record))
                  (seen ++ [record])%list)
        as (k & next' & more & Heq & Hmore & Hk & Hstop & Hlast).
      exists (S k), next', (record :: more). rewrite Heq. cbn.
      rewrite <- app_assoc. cbn.
      replace (num + 1 + Z.of_nat k) with (num + Z.pos (Pos.of_succ_nat k))
        by lia.
      split; [reflexivity |]. split; [rewrite Hmore; reflexivity |].
      split; [lia |]. split; [lia |].
      cbn in Hlast. destruct (map snd (take k records)); exact Hlast.
    + exists 0%nat, next, []. cbn.
      rewrite Z.add_0_r, app_nil_r. repeat split; auto. lia.
Qed.

Lemma records_from_from l a b :
  a <= b -> records_from (records_from l a) b = records_from l b.
Proof.
  intros Hab. induction l as [| [r q] l IH]; cbn; [reflexivity |].
  destruct (Z.ltb_spec q a) as [Hqa | Hqa].
  - destruct (Z.ltb_spec q b); [exact IH | lia].
  - reflexivity.
Qed.

Lemma records_before_from l a : records_before (records_from l a) a = [].
Proof.
  induction l as [| [r q] l IH]; cbn; [reflexivity |].
  destruct (Z.ltb_spec q a) as [Hqa | Hqa]; [exact IH |].
  cbn. destruct (Z.ltb_spec q a); [lia | reflexivity].
Qed.

Lemma records_before_split l a b :
  a <= b ->
  records_before l b
  = (records_before l a ++ records_before (records_from l a) b)%list.
Proof.
  intros Hab. induction l as [| [r q] l IH]; cbn; [reflexivity |].
  destruct (Z.ltb_spec q a) as [Hqa | Hqa].
  - destruct (Z.ltb_spec q b); [| lia]. cbn. rewrite IH. reflexivity.
  - cbn. reflexivity.
Qed.

Lemma records_from_all l a :
  Forall (fun rq => a <= snd rq) l -> records_from l a = l.
Proof.
  destruct 1 as [| [r q] l Hq _]; cbn in *; [reflexivity |].
  destruct (Z.ltb_spec q a); [lia | reflexivity].
Qed.

Lemma records_before_all l b :
  Forall (fun rq => snd rq < b) l -> records_before l b = l.
Proof.
  induction 1 as [| [r q] l Hq _ IH]; cbn in *; [reflexivity |].
  destruct (Z.ltb_spec q b); [| lia]. rewrite IH. reflexivity.
Qed.

Lemma ReadShardRecordsLoop_positioned cb shard_end l E num overall seen :
  exists overall',
    ReadShardRecordsLoop RecordT cb shard_end (pending_of l E) OkStatus
                         OkStatus (pos_of l E) num overall seen
    = (OkStatus, pos_of (records_from l (shard_end + 1)) E,
       num + Z.of_nat (length (records_before l (shard_end + 1))),
       overall',
       (seen ++ map fst (records_before l (shard_end + 1)))%list).
Proof.
  revert num overall seen.
  induction l as [| [r q] l IH]; intros num overall seen.
  - cbn. eexists. destruct (E <=? shard_end);
      rewrite Z.add_0_r, app_nil_r; reflexivity.
  - cbn [pending_of pos_of ReadShardRecordsLoop records_from records_before].
    destruct (Z.leb_spec q shard_end) as [Hle | Hgt].
    + destruct (Z.ltb_spec q (shard_end + 1)); [| lia].
      destruct (IH (num + 1) (Update overall (cb seen r)) (seen ++ [r])%list)
        as (overall' & ->).
      exists overall'. cbn [length map fst]. rewrite <- app_assoc. cbn [app].
      rewrite Nat2Z.inj_succ, <- Z.add_1_l, Z.add_assoc. reflexivity.
    + destruct (Z.ltb_spec q (shard_end + 1)); [lia |].
      exists overall. cbn. rewrite Z.add_0_r, app_nil_r. reflexivity.
Qed.

Lemma ReadShardRecords_positioned stream records E shard cb :
  seeks_to_next_record stream records E ->
  start_pos shard <= end_pos shard + 1 ->
  let out := ReadShardRecords stream shard cb in
  returned out
  = Value {| first_record_pos := pos_of (records_from records (start_pos shard)) E;
             next_shard_first_record_pos :=
               pos_of (records_from records (end_pos shard + 1)) E;
             num_records_read :=
               Z.of_nat (length (records_before
                                   (records_from records (start_pos shard))
                                   (end_pos shard + 1))) |}
  /\ delivered out
     = map fst (records_before (records_from records (start_pos shard))
                               (end_pos shard + 1)).
Proof.
  intros Hseek Hle. unfold ReadShardRecords. rewrite Hseek. cbn [negb].
  unfold reader_at. cbn [pos pending status end_status].
  destruct (ReadShardRecordsLoop_positioned cb (end_pos shard)
              (records_from records (start_pos shard)) E 0 OkStatus [])
    as (overall' & ->).
  cbn. rewrite records_from_from by exact Hle. split; reflexivity.
Qed.

Lemma chain_end_bounds stream_size shard_size shards start :
  0 <= shard_size ->
  shard_chain stream_size shard_size start shards ->
  start <= stream_size + 1 ->
  start <= chain_end start shards <= stream_size + 1.
Proof.
  intros Hsize. revert start.
  induction shards as [| r shards IH]; intros start; cbn; [lia |].
  intros (Hs & He & Hchain) Hstart.
  specialize (IH _ Hchain ltac:(lia)). lia.
Qed.

Lemma RunShardTasks_positioned stream records E (cbs : nat -> Callback RecordT)
      stream_size shard_size :
  seeks_to_next_record stream records E ->
  0 <= shard_size ->
  forall shards start i prev total,
    shard_chain stream_size shard_size start shards ->
    start <= stream_size + 1 ->
    next_shard_first_record_pos prev = pos_of (records_from records start) E ->
    JoinLoop (map returned (RunShardTasks stream cbs i shards)) prev total
    = OkStatus
    /\ concat (map delivered (RunShardTasks stream cbs i shards))
       = map fst (records_before (records_from records start)
                                 (chain_end start shards)).
Proof.
  intros Hseek Hsize.
  induction shards as [| r shards IH]; intros start i prev total;
    cbn [shard_chain RunShardTasks map JoinLoop concat chain_end].
  - intros _ _ _. rewrite records_before_from. split; reflexivity.
  - intros (Hs & He & Hchain) Hstart Hprev.
    assert (Hle : start_pos r <= end_pos r + 1) by lia.
    destruct (ReadShardRecords_positioned stream records E r (cbs i)
                Hseek Hle) as [-> ->].
    cbn [first_record_pos next_shard_first_record_pos]. rewrite Hs in *.
    rewrite Hprev, Z.ltb_irrefl.
    match goal with
    | |- JoinLoop _ ?p ?t = _ /\ _ =>
        destruct (IH (end_pos r + 1) (S i) p t Hchain ltac:(lia) eq_refl)
          as [-> Hd]
    end.
    split; [reflexivity |]. rewrite Hd.
    assert (Hmono : end_pos r + 1 <= chain_end (end_pos r + 1) shards).
    { eapply chain_end_bounds; [exact Hsize | exact Hchain | lia]. }
    rewrite <- map_app. f_equal.
    rewrite (records_before_split (records_from records start)
               (end_pos r + 1) (chain_end (end_pos r + 1) shards) Hmono).
    rewrite records_from_from by lia. reflexivity.
Qed.

End Reads.

Lemma chain_end_last start shards r :
  last shards = Some r -> chain_end start shards = end_pos r + 1.
Proof.
  revert start. induction shards as [| r0 shards IH]; intros start;
    [discriminate |].
  destruct shards as [| r1 shards].
  - cbn. intros [= <-]. reflexivity.
  - intros Hlast. exact (IH (end_pos r0 + 1) Hlast).
Qed.

Lemma JoinLoop_ok tasks prev total :
  Forall (fun t => forall s, t = Error s -> ok s = false) tasks ->
  ok (JoinLoop tasks prev total) = true ->
  exists rs, tasks = map Value rs
             /\ forall i p c, adjacent (prev :: rs) i p c -> ~ gap p c.
Proof.
  intros Herr. revert prev total.
  induction Herr as [| t tasks Ht _ IH]; intros prev total; cbn.
  - intros _. exists []. split; [reflexivity |].
    intros [| i] p c [_ Hc]; discriminate.
  - destruct t as [curr | s].
    + check_pair prev curr Hgap Hok; [discriminate |].
      intros Hjoin. destruct (IH _ _ Hjoin) as (rs & -> & Hno).
      exists (curr :: rs). split; [reflexivity |].
      intros [| i] p c [Hp Hc]; cbn in Hp, Hc.
      * injection Hp as <-. injection Hc as <-. unfold gap. lia.
      * apply (Hno i). split; assumption.
    + intros Hok. rewrite (Ht s eq_refl) in Hok. discriminate.
Qed.

(** X5.  A shard task that succeeds reports as [first_record_pos] the
    position of its reader after the seek and as [num_records_read] the
    number of records it passed to the callback.  These records are the
    first ones the reader yields, in order; the task stops either because
    the next record starts past the end of the shard or because the reader
    has no more records, and [next_shard_first_record_pos] is the position
    reached after the last record read. *)
Theorem ReadShardRecords_result {RecordT} (stream : RecordStream RecordT)
        (shard : ShardRange) (callback : Callback RecordT)
        (reader : RecordReader RecordT) (r : ShardResult) :
  Seek stream (start_pos shard) = (true, reader) ->
  returned (ReadShardRecords stream shard callback) = Value r ->
  let out := ReadShardRecords stream shard callback in
  first_record_pos r = pos reader
  /\ num_records_read r = Z.of_nat (length (delivered out))
  /\ delivered out `prefix_of` map fst (pending reader)
  /\ (end_pos shard < next_shard_first_record_pos r
      \/ delivered out = map fst (pending reader))
  /\ last (pos reader
             :: map snd (take (length (delivered out)) (pending reader)))
     = Some (next_shard_first_record_pos r).
Proof.
  intros Hseek. unfold ReadShardRecords. rewrite Hseek. cbn [negb].
  destruct (ReadShardRecordsLoop_spec callback (end_pos shard)
              (pending reader) (status reader) (end_status reader)
              (pos reader) 0 OkStatus [])
    as (k & next' & more & -> & Hmore & Hk & Hstop & Hlast).
  cbn.
  match goal with |- context [negb (ok ?s)] => destruct (ok s) end;
    cbn; [| discriminate].
  intros [= <-]. cbn.
  assert (Hlen : length more = k).
  { rewrite Hmore, length_map, length_take. lia. }
  rewrite Hlen.
  split; [reflexivity |]. split; [lia |]. split; [| split].
  - rewrite Hmore. exists (map fst (drop k (pending reader))).
    rewrite <- map_app, take_drop. reflexivity.
  - destruct Hstop as [Hgt | ->]; [left; exact Hgt | right].
    rewrite Hmore, firstn_all. reflexivity.
  - exact Hlast.
Qed.

Lemma ReadShardRecords_result_witness :
  first_record_pos {| first_record_pos := 4;
                      next_shard_first_record_pos := 8;
                      num_records_read := 1 |} = 4
  /\ num_records_read {| first_record_pos := 4;
                         next_shard_first_record_pos := 8;
                         num_records_read := 1 |}
     = Z.of_nat
         (length (delivered
                    (ReadShardRecords Fixtures.positioned_stream
                       {| start_pos := 4; end_pos := 7 |}
                       Fixtures.accepting_callback)))
  /\ delivered (ReadShardRecords Fixtures.positioned_stream
                  {| start_pos := 4; end_pos := 7 |}
                  Fixtures.accepting_callback)
     `prefix_of` map fst [("b", 8); ("c", 9)]
  /\ (7 < next_shard_first_record_pos
            {| first_record_pos := 4;
               next_shard_first_record_pos := 8;
               num_records_read := 1 |}
      \/ delivered (ReadShardRecords Fixtures.positioned_stream
                      {| start_pos := 4; end_pos := 7 |}
                      Fixtures.accepting_callback)
         = map fst [("b", 8); ("c", 9)])
  /\ last (4 :: map snd
                  (take (length
                           (delivered
                              (ReadShardRecords Fixtures.positioned_stream
                                 {| start_pos := 4; end_pos := 7 |}
                                 Fixtures.accepting_callback)))
                        [("b", 8); ("c", 9)]))
     = Some (next_shard_first_record_pos
               {| first_record_pos := 4;
                  next_shard_first_record_pos := 8;
                  num_records_read := 1 |}).
Proof.
  apply (ReadShardRecords_result Fixtures.positioned_stream
           {| start_pos := 4; end_pos := 7 |} Fixtures.accepting_callback
           {| pos := 4; pending := [("b", 8); ("c", 9)];
              status := OkStatus; end_status := OkStatus |}
           {| first_record_pos := 4; next_shard_first_record_pos := 8;
              num_records_read := 1 |}).
  - reflexivity.
  - reflexivity.
Defined.

(** X6.  Both readers log at most one status for all the failures of the
    callback: the first status that is not OK among those the callback
    returned for the records delivered, and nothing when the callback
    accepted them all. *)
Theorem readers_log_first_callback_error {RecordT}
        (reader_ : RecordReader RecordT) (stream : RecordStream RecordT)
        (shard : ShardRange) (callback : Callback RecordT) :
  logged (ReadStreamRecords reader_ callback)
  = first_error (callback_statuses callback [] (map fst (pending reader_)))
  /\ logged (ReadShardRecords stream shard callback)
     = first_error
         (callback_statuses callback []
            (delivered (ReadShardRecords stream shard callback))).
Proof.
  split.
  - unfold ReadStreamRecords.
    rewrite ReadStreamRecordsLoop_logged, log_if_error_Update. reflexivity.
  - unfold ReadShardRecords.
    destruct (Seek stream (start_pos shard)) as [[|] reader]; cbn [negb];
      [| reflexivity].
    destruct (ReadShardRecordsLoop_spec callback (end_pos shard)
                (pending reader) (status reader) (end_status reader)
                (pos reader) 0 OkStatus [])
      as (k & next' & more & -> & _).
    cbn. apply log_if_error_Update.
Qed.

(** X7.  Over a stream whose failed seeks leave a non-OK status,
    [ReadStreamRecords] returns OK only if it started shard tasks, every
    task succeeded, and every shard result begins no later than the place
    the result before it says the next shard begins. *)
Theorem ReadStreamRecords_ok_is_complete {RecordT} (fuel : nat)
        (stream : RecordStream RecordT) (options : Options)
        (callback : nat -> Callback RecordT) (st : Status)
        (tasks : list (ReadOutcome RecordT (StatusOr ShardResult))) :
  sound_seek stream ->
  ConcurrentReadStreamRecords fuel stream options callback = Some (st, tasks) ->
  ok st = true ->
  tasks <> []
  /\ exists rs,
      map returned tasks = map Value rs
      /\ forall i prev curr,
          adjacent rs i prev curr ->
          first_record_pos curr <= next_shard_first_record_pos prev.
Proof.
  intros Hseek Hrun Hok.
  assert (Hne : tasks <> []).
  { unfold ConcurrentReadStreamRecords in Hrun.
    destruct (BuildShards fuel (tellg_at_end stream) options)
      as [[[| shard0 shards] | s] |] eqn:Hb; try discriminate.
    - apply BuildShards_nonempty in Hb. contradiction.
    - injection Hrun as <- <-. discriminate.
    - injection Hrun as <- <-. apply BuildShards_error in Hb. congruence. }
  split; [exact Hne |].
  destruct (ConcurrentReadStreamRecords_tasks _ _ _ _ _ _ Hrun Hne)
    as (shards & first & rest & Htasks & Hret & ->).
  pose proof (RunShardTasks_errors stream callback 0%nat shards Hseek) as Herr.
  rewrite <- Htasks, Hret in Herr. inversion Herr as [| ? ? Hfirst Hrest]; subst.
  rewrite Hret. unfold JoinShardTasks in Hok.
  destruct first as [prev | s]; [| rewrite (Hfirst s eq_refl) in Hok; discriminate].
  destruct (JoinLoop_ok _ _ _ Hrest Hok) as (rs & -> & Hno).
  exists (prev :: rs). split; [reflexivity |].
  intros i p c Hadj. specialize (Hno i p c Hadj). unfold gap in Hno. lia.
Qed.

Lemma positioned_stream_sound : sound_seek Fixtures.positioned_stream.
Proof. intros p. cbn. discriminate. Qed.

Lemma ReadStreamRecords_ok_is_complete_witness :
  Fixtures.tasks_of
    (ConcurrentReadStreamRecords 4 Fixtures.positioned_stream
       Fixtures.three_workers (fun _ => Fixtures.rejecting_callback)) <> []
  /\ exists rs,
      map returned
          (Fixtures.tasks_of
             (ConcurrentReadStreamRecords 4 Fixtures.positioned_stream
                Fixtures.three_workers (fun _ => Fixtures.rejecting_callback)))
      = map Value rs
      /\ forall i prev curr,
          adjacent rs i prev curr ->
          first_record_pos curr <= next_shard_first_record_pos prev.
Proof.
  apply (ReadStreamRecords_ok_is_complete 4 Fixtures.positioned_stream
           Fixtures.three_workers (fun _ => Fixtures.rejecting_callback)
           OkStatus
           (Fixtures.tasks_of
              (ConcurrentReadStreamRecords 4 Fixtures.positioned_stream
                 Fixtures.three_workers
                 (fun _ => Fixtures.rejecting_callback)))).
  - exact positioned_stream_sound.
  - reflexivity.
  - reflexivity.
Defined.



End RecordReaderFacts.

(** ** The getValues hook once it has its lookup *)

Module GetValuesHookCallFacts.
Import GetValuesHook GetValuesHookFacts.

Section WithSerializers.
Variable SerializeToArray : BinaryGetValuesResponse -> string.
Variable json_dump : Json -> string.
Variable json_parse : string -> option Json.
Variable MessageToJsonString : InternalLookupResponse -> StatusOr string.

Local Abbreviation call :=
  (call SerializeToArray json_dump json_parse MessageToJsonString).
Local Abbreviation status_output :=
  (status_output SerializeToArray json_dump).
Local Abbreviation SetOutputAsString :=
  (SetOutputAsString json_dump json_parse MessageToJsonString).
Local Abbreviation SetOutput :=
  (SetOutput SerializeToArray json_dump json_parse MessageToJsonString).

Lemma SetStatusAsString_output code message io :
  SetStatusAsString json_dump code message io
  = Some (set_output (status_output kString code message) io).
Proof. reflexivity. Qed.

Lemma SetOutput_input self response io io' :
  SetOutput self response io = Some io' -> io_input io' = io_input io.
Proof.
  unfold GetValuesHook.SetOutput, GetValuesHook.SetOutputAsString.
  destruct (output_type_ self); [| intros [= <-]; reflexivity].
  destruct (MessageToJsonString response) as [js | st].
  - destruct (json_parse js) as [j |].
    + destruct (json_set2 "status" "code" (JInt 0) j) as [o |]; cbn;
        [| discriminate].
      destruct (json_set2 "status" "message" _ o) as [o' |]; cbn;
        [| discriminate].
      intros [= <-]. reflexivity.
    + intros [= <-]. reflexivity.
  - intros [= <-]. reflexivity.
Qed.

Lemma members_get_set_eq key v ms : members_get key (members_set key v ms) = v.
Proof.
  induction ms as [| [k x] ms IH]; cbn.
  - rewrite String.eqb_refl. reflexivity.
  - destruct (String.eqb_spec k key) as [-> | Hne]; cbn.
    + rewrite String.eqb_refl. reflexivity.
    + destruct (String.eqb_spec k key); [contradiction | exact IH].
Qed.

Lemma members_get_set_ne key key' v ms :
  key <> key' -> members_get key' (members_set key v ms) = members_get key' ms.
Proof.
  intros Hne. induction ms as [| [k x] ms IH]; cbn.
  - destruct (String.eqb_spec key key'); [contradiction | reflexivity].
  - destruct (String.eqb_spec k key) as [-> | Hk]; cbn.
    + destruct (String.eqb_spec key key'); [contradiction | reflexivity].
    + destruct (String.eqb_spec k key'); [reflexivity | exact IH].
Qed.

Lemma members_set_absent key v ms :
  Forall (fun kv => fst kv <> key) ms ->
  members_set key v ms = (ms ++ [(key, v)])%list
  /\ members_get key ms = JNull.
Proof.
  induction 1 as [| [k x] ms Hk _ [IH1 IH2]]; cbn in *; [auto |].
  destruct (String.eqb_spec k key); [contradiction |].
  rewrite IH1. auto.
Qed.

Lemma members_set_set key v w ms :
  members_set key w (members_set key v ms) = members_set key w ms.
Proof.
  induction ms as [| [k x] ms IH]; cbn.
  - rewrite String.eqb_refl. reflexivity.
  - destruct (String.eqb_spec k key) as [-> | Hne]; cbn.
    + rewrite String.eqb_refl. reflexivity.
    + destruct (String.eqb_spec k key); [contradiction |]. rewrite IH.
      reflexivity.
Qed.

(** The two assignments of [SetOutputAsString] on a parsed object. *)
Lemma json_set2_status ms :
  accepts_status (JObject ms) = true ->
  exists status_members,
    (o ← json_set2 "status" "code" (JInt 0) (JObject ms);
     json_set2 "status" "message" (JString kOkStatusMessage) o)
    = Some (JObject (members_set "status" (JObject status_members) ms))
    /\ members_get "code" status_members = JInt 0
    /\ members_get "message" status_members = JString "ok"
    /\ (members_get "status" ms = JNull -> JObject status_members = ok_status_json).
Proof.
  unfold accepts_status, json_set2. cbn [json_at mbind option_bind].
  destruct (members_get "status" ms) as [| | | | | | st] eqn:Hst;
    try discriminate; intros _; cbn.
  - rewrite members_get_set_eq. cbn. rewrite members_set_set.
    eexists. split; [reflexivity |]. cbn. auto.
  - rewrite members_get_set_eq. cbn. rewrite members_set_set.
    eexists. split; [reflexivity |].
    rewrite members_get_set_eq.
    rewrite members_get_set_ne by discriminate.
    rewrite members_get_set_eq. split; [reflexivity |].
    split; [reflexivity | discriminate].
Qed.

Lemma SetOutputAsString_None response io :
  SetOutputAsString response io = None
  <-> exists kv_pairs_json j,
      MessageToJsonString response = Value kv_pairs_json
      /\ json_parse kv_pairs_json = Some j
      /\ accepts_status j = false.
Proof.
  unfold GetValuesHook.SetOutputAsString.
  destruct (MessageToJsonString response) as [js | st].
  - destruct (json_parse js) as [j |] eqn:Hparse.
    + assert (H : (o ← json_set2 "status" "code" (JInt 0) j;
                   o0 ← json_set2 "status" "message"
                          (JString kOkStatusMessage) o;
                   Some (set_output (output_string (json_dump o0)) io)) = None
                  <-> accepts_status j = false).
      { destruct j as [| b | z | f | str | items | ms];
          try (cbn; split; reflexivity).
        - cbn. split; discriminate.
        - destruct (accepts_status (JObject ms)) eqn:Hacc.
          + destruct (json_set2_status ms Hacc) as (st & Hset & _).
            cbn [mbind option_bind] in Hset |- *.
            destruct (json_set2 "status" "code" (JInt 0) (JObject ms));
              cbn in Hset |- *; [| discriminate].
            rewrite Hset. cbn. split; discriminate.
          + split; [reflexivity | intros _].
            unfold accepts_status, json_set2 in *. cbn in Hacc |- *.
            destruct (members_get "status" ms); try discriminate; reflexivity. }
      rewrite H. split.
      * intros Hacc. exists js, j. auto.
      * intros (js' & j' & [= <-] & Hp & Hacc). rewrite Hparse in Hp.
        injection Hp as <-. exact Hacc.
    + rewrite SetStatusAsString_output. split; [discriminate |].
      intros (js' & j' & [= <-] & Hp & _). congruence.
  - rewrite SetStatusAsString_output. split; [discriminate |].
    intros (js' & j' & ? & _). discriminate.
Qed.


(** X13.  A call that returns leaves the input of the io as it was.  It
    makes one lookup when the hook has its lookup and the input is a list of
    strings, and none otherwise; the set looked up holds exactly the strings
    of the input list, so duplicates are looked up once. *)
Theorem call_keeps_input_and_looks_up_once (self : GetValuesHookImpl)
        (io io' : FunctionBindingIoProto) (lookups : list (gset string)) :
  call self io = Some (io', lookups) ->
  io_input io' = io_input io
  /\ (lookups
      = match lookup_ self, io_input io with
        | Some _, input_list_of_string data => [list_to_set data]
        | _, _ => []
        end)
  /\ (forall keys key, lookups = [keys] ->
        key ∈ keys <-> exists data, io_input io = input_list_of_string data
                                    /\ In key data).
Proof.
  unfold GetValuesHook.call.
  assert (Hstatus : forall code message lookups0,
             (io0 ← SetStatus SerializeToArray json_dump self code message io;
              Some (io0, lookups0)) = Some (io', lookups) ->
             io_input io' = io_input io /\ lookups = lookups0).
  { intros code message lookups0. rewrite SetStatus_output. cbn.
    intros [= <- <-]. split; reflexivity. }
  assert (Hkeys : forall data (keys : gset string) key,
             [list_to_set data] = [keys] ->
             key ∈ keys <-> exists data', input_list_of_string data
                                         = input_list_of_string data'
                                         /\ In key data').
  { intros data keys key [= <-]. rewrite elem_of_list_to_set, list_elem_of_In.
    split.
    - intros Hin. exists data. split; [reflexivity | exact Hin].
    - intros (data' & [= <-] & Hin). exact Hin. }
  destruct (lookup_ self) as [lookup |].
  - destruct (io_input io) as [| str | data | m | b] eqn:Hinput;
      try (intros H; apply Hstatus in H as [-> ->];
           split; [reflexivity |]; split; [reflexivity |]; discriminate).
    destruct (GetKeyValues lookup (list_to_set data)) as [response | s].
    + destruct (SetOutput self response io) as [io0 |] eqn:Hout; cbn;
        [| discriminate].
      intros [= <- <-]. apply SetOutput_input in Hout.
      split; [congruence |]. split; [reflexivity |]. apply Hkeys.
    + intros H. apply Hstatus in H as [-> ->].
      split; [congruence |]. split; [reflexivity |]. apply Hkeys.
  - intros H. apply Hstatus in H as [-> ->].
    split; [reflexivity |]. split; [reflexivity |]. discriminate.
Qed.

(** X14.  A hook created for binary output always returns, and its output
    is the serialised form of a [BinaryGetValuesResponse] that has a status.
    After a successful lookup that status is (0, "ok") and the response has
    one entry for each key of the lookup response and no other, an entry
    carrying the value or the status found for its key. *)
Theorem call_binary_answers_in_bytes (self : GetValuesHookImpl)
        (io : FunctionBindingIoProto) :
  output_type_ self = kBinary ->
  exists binary_response lookups,
    call self io
    = Some (set_output (output_bytes (SerializeToArray binary_response)) io,
            lookups)
    /\ is_Some (binary_response_status binary_response)
    /\ forall lookup data response,
        lookup_ self = Some lookup ->
        io_input io = input_list_of_string data ->
        GetKeyValues lookup (list_to_set data) = Value response ->
        binary_response_status binary_response
        = Some {| status_code := 0; status_message := "ok" |}
        /\ dom (binary_kv_pairs binary_response) = dom (kv_pairs response)
        /\ forall key,
            binary_kv_pairs binary_response !! key
            = match kv_pairs response !! key with
              | Some (lookup_value v) => Some (binary_data v)
              | Some (lookup_status st) => Some (binary_status st)
              | Some single_lookup_result_not_set => Some binary_value_not_set
              | None => None
              end.
Proof.
  intros Hbin. unfold GetValuesHook.call, SetStatus, GetValuesHook.SetOutput.
  rewrite Hbin. unfold SetStatusAsBytes, SetOutputAsBytes,
    SetBinaryGetValuesAsBytes.
  destruct (lookup_ self) as [lookup |].
  - destruct (io_input io) as [| str | data | m | b] eqn:Hinput;
      try (cbn; do 2 eexists; split; [reflexivity |];
           split; [cbn; eauto | discriminate]).
    destruct (GetKeyValues lookup (list_to_set data)) as [response | s] eqn:Hl.
    + cbn. do 2 eexists. split; [reflexivity |]. split; [cbn; eauto |].
      intros lookup' data' response' [= <-] [= <-]. rewrite Hl.
      intros [= <-]. cbn. split; [reflexivity |].
      split; [apply dom_fmap_L |].
      intros key. rewrite lookup_fmap.
      destruct (kv_pairs response !! key) as [[| v | [c m]] |]; reflexivity.
    + cbn. do 2 eexists. split; [reflexivity |]. split; [cbn; eauto |].
      intros lookup' data' response' [= <-] [= <-]. rewrite Hl. discriminate.
  - cbn. do 2 eexists. split; [reflexivity |]. split; [cbn; eauto |].
    discriminate.
Qed.

(** X15.  When the lookup response prints as JSON that parses to an object
    whose member status, if any, is null or an object, [SetOutputAsString]
    returns the dump of that object with status.code set to 0 and
    status.message set to "ok", every other member being kept.  When the
    object had no member status, the status object is appended as the last
    member, with code before message. *)
Theorem SetOutputAsString_sets_ok_status (response : InternalLookupResponse)
        (io : FunctionBindingIoProto) (kv_pairs_json : string)
        (members : list (string * Json)) :
  MessageToJsonString response = Value kv_pairs_json ->
  json_parse kv_pairs_json = Some (JObject members) ->
  accepts_status (JObject members) = true ->
  exists members' status_members,
    SetOutputAsString response io
    = Some (set_output (output_string (json_dump (JObject members'))) io)
    /\ members_get "status" members' = JObject status_members
    /\ members_get "code" status_members = JInt 0
    /\ members_get "message" status_members = JString "ok"
    /\ (forall key, key <> "status" ->
          members_get key members' = members_get key members)
    /\ (Forall (fun kv => fst kv <> "status") members ->
        members' = (members ++ [("status", ok_status_json)])%list).
Proof.
  intros Hprint Hparse Hacc. unfold GetValuesHook.SetOutputAsString.
  rewrite Hprint, Hparse.
  destruct (json_set2_status members Hacc) as (st & Hset & Hcode & Hmsg & Hnew).
  exists (members_set "status" (JObject st) members), st.
  split.
  - cbn [mbind option_bind] in Hset |- *.
    destruct (json_set2 "status" "code" (JInt 0) (JObject members)) as [o |];
      cbn in Hset |- *; [| discriminate].
    rewrite Hset. reflexivity.
  - split; [apply members_get_set_eq |]. split; [exact Hcode |].
    split; [exact Hmsg |]. split.
    + intros key Hkey. apply members_get_set_ne. congruence.
    + intros Habsent.
      destruct (members_set_absent "status" (JObject st) members Habsent)
        as [-> Hnull].
      rewrite (Hnew Hnull). reflexivity.
Qed.


End WithSerializers.


Lemma call_keeps_input_and_looks_up_once_witness :
  io_input
    (set_output
       (status_output Fixtures.show_binary Fixtures.show_json kString
                      kUnavailable "down")
       Fixtures.list_io)
  = io_input Fixtures.list_io
  /\ ([list_to_set ["key1"; "key2"; "key1"]] : list (gset string))
     = match lookup_ (FinishInit (Some Fixtures.broken_lookup)
                                 (Create kString)),
             io_input Fixtures.list_io with
       | Some _, input_list_of_string data => [list_to_set data]
       | _, _ => []
       end
  /\ (forall (keys : gset string) key,
        ([list_to_set ["key1"; "key2"; "key1"]] : list (gset string))
        = [keys] ->
        key ∈ keys
        <-> exists data, io_input Fixtures.list_io = input_list_of_string data
                         /\ In key data).
Proof.
  apply (call_keeps_input_and_looks_up_once Fixtures.show_binary
           Fixtures.show_json Fixtures.no_parse Fixtures.no_json
           (FinishInit (Some Fixtures.broken_lookup) (Create kString))
           Fixtures.list_io
           (set_output
              (status_output Fixtures.show_binary Fixtures.show_json kString
                             kUnavailable "down")
              Fixtures.list_io)
           [list_to_set ["key1"; "key2"; "key1"]]).
  reflexivity.
Defined.

Lemma call_binary_answers_in_bytes_witness :
  exists binary_response lookups,
    call Fixtures.show_binary Fixtures.show_json Fixtures.no_parse
         Fixtures.no_json
         (FinishInit (Some Fixtures.two_key_lookup) (Create kBinary))
         Fixtures.list_io
    = Some (set_output
              (output_bytes (Fixtures.show_binary binary_response))
              Fixtures.list_io,
            lookups)
    /\ is_Some (binary_response_status binary_response)
    /\ forall lookup data response,
        lookup_ (FinishInit (Some Fixtures.two_key_lookup) (Create kBinary))
        = Some lookup ->
        io_input Fixtures.list_io = input_list_of_string data ->
        GetKeyValues lookup (list_to_set data) = Value response ->
        binary_response_status binary_response
        = Some {| status_code := 0; status_message := "ok" |}
        /\ dom (binary_kv_pairs binary_response) = dom (kv_pairs response)
        /\ forall key,
            binary_kv_pairs binary_response !! key
            = match kv_pairs response !! key with
              | Some (lookup_value v) => Some (binary_data v)
              | Some (lookup_status st) => Some (binary_status st)
              | Some single_lookup_result_not_set => Some binary_value_not_set
              | None => None
              end.
Proof.
  apply (call_binary_answers_in_bytes Fixtures.show_binary Fixtures.show_json
           Fixtures.no_parse Fixtures.no_json
           (FinishInit (Some Fixtures.two_key_lookup) (Create kBinary))
           Fixtures.list_io).
  reflexivity.
Defined.

Lemma SetOutputAsString_sets_ok_status_witness :
  exists members' status_members,
    SetOutputAsString Fixtures.show_json Fixtures.parse_kv_pairs
                      Fixtures.print_kv_pairs {| kv_pairs := ∅ |}
                      Fixtures.list_io
    = Some (set_output
              (output_string (Fixtures.show_json (JObject members')))
              Fixtures.list_io)
    /\ members_get "status" members' = JObject status_members
    /\ members_get "code" status_members = JInt 0
    /\ members_get "message" status_members = JString "ok"
    /\ (forall key, key <> "status" ->
          members_get key members'
          = members_get key [("kvPairs", JObject [])])
    /\ (Forall (fun kv => fst kv <> "status") [("kvPairs", JObject [])] ->
        members' = ([("kvPairs", JObject [])]
                      ++ [("status", ok_status_json)])%list).
Proof.
  apply (SetOutputAsString_sets_ok_status Fixtures.show_json
           Fixtures.parse_kv_pairs Fixtures.print_kv_pairs
           {| kv_pairs := ∅ |} Fixtures.list_io "{kvPairs}"
           [("kvPairs", JObject [])]).
  - reflexivity.
  - reflexivity.
  - reflexivity.
Defined.

End GetValuesHookCallFacts.

(** ** The V1 to V2 adapter: requests, namespaces and responses *)

Module GetValuesAdapterImplFacts.
Import GetValuesAdapter GetValuesAdapterFacts GetValuesV2Handler.
Import GetValuesAdapterImpl.

Lemma FindNamespace_two a b :
  FindNamespace [a; b]
  = if String.eqb b kCustomTag
    then (if String.eqb a kCustomTag then Value "" else Value a)
    else (if String.eqb a kCustomTag then Value b
          else Error (InvalidArgumentError "No namespace tags found")).
Proof.
  unfold FindNamespace. cbn.
  destruct (String.eqb a kCustomTag), (String.eqb b kCustomTag); reflexivity.
Qed.

(** X17.  [FindNamespace] does not depend on the order of the two tags.
    It returns the tag that stands next to "custom", and the empty
    namespace when both tags are "custom"; whenever it returns a namespace
    there are exactly two tags and one of them is "custom".  Any other
    number of tags is an InvalidArgument error that names the number. *)
Theorem FindNamespace_pairs (tags : list string) :
  (forall a b, FindNamespace [a; b] = FindNamespace [b; a])
  /\ (forall namespace_tag,
        namespace_tag <> kCustomTag ->
        FindNamespace [kCustomTag; namespace_tag] = Value namespace_tag)
  /\ FindNamespace [kCustomTag; kCustomTag] = Value ""
  /\ (forall namespace_tag,
        FindNamespace tags = Value namespace_tag ->
        (tags = [kCustomTag; namespace_tag] /\ namespace_tag <> kCustomTag)
        \/ (tags = [namespace_tag; kCustomTag] /\ namespace_tag <> kCustomTag)
        \/ (tags = [kCustomTag; kCustomTag] /\ namespace_tag = ""))
  /\ (length tags <> 2%nat ->
      FindNamespace tags
      = Error (InvalidArgumentError
                 ("Expected 2 tags, found "
                    ++ StrCatInt (Z.of_nat (length tags))))).
Proof.
  split; [| split; [| split; [| split]]].
  - intros a b. rewrite !FindNamespace_two.
    destruct (String.eqb_spec a kCustomTag) as [-> |],
             (String.eqb_spec b kCustomTag) as [-> |]; reflexivity.
  - intros ns Hns. rewrite FindNamespace_two.
    destruct (String.eqb_spec ns kCustomTag); [contradiction | reflexivity].
  - reflexivity.
  - intros ns. destruct tags as [| a [| b [| c tags]]];
      try (unfold FindNamespace; cbn [length negb Z.eqb Z.of_nat];
           discriminate).
    + rewrite FindNamespace_two.
      destruct (String.eqb_spec a kCustomTag) as [-> | Ha],
               (String.eqb_spec b kCustomTag) as [-> | Hb];
        intros [= <-]; auto.
    + unfold FindNamespace.
      replace (Z.of_nat (length (a :: b :: c :: tags)) =? 2) with false;
        [discriminate |].
      symmetry. apply Z.eqb_neq. cbn [length]. lia.
  - intros Hlen. unfold FindNamespace.
    destruct (Z.eqb_spec (Z.of_nat (length tags)) 2); [lia | reflexivity].
Qed.

Lemma add_arguments_Forall (P : UDFArgument -> Prop) field namespace_tag args :
  Forall P args ->
  (field <> [] -> P (BuildArgument field namespace_tag)) ->
  Forall P (add_arguments field namespace_tag args).
Proof.
  intros Hargs Hnew. unfold add_arguments.
  destruct field as [| k field]; cbn; [exact Hargs |].
  apply Forall_app. split; [exact Hargs |]. constructor; [| constructor].
  apply Hnew. discriminate.
Qed.

Lemma add_arguments_length field namespace_tag args :
  length (add_arguments field namespace_tag args)
  = (length args + if field is [] then 0 else 1)%nat.
Proof.
  unfold add_arguments. destruct field as [| k field].
  - cbn [length Z.of_nat Z.ltb Z.compare]. symmetry. apply Nat.add_0_r.
  - change (0 <? Z.of_nat (length (k :: field))) with true. cbv iota.
    rewrite length_app. reflexivity.
Qed.

(** X18.  The V2 request built from a V1 request has the subkey as its
    hostname metadata and one partition, with one argument for each
    non-empty field of the V1 request.  Every argument is tagged, so the
    UDF client passes it to the UDF whole; it carries the strings of its
    field in order, and [FindNamespace] finds in its tags the namespace of
    that field, which names a field of the V1 response. *)
Theorem BuildV2Request_shape (v1_request : V1Request) :
  exists partition,
    partitions (BuildV2Request v1_request) = [partition]
    /\ metadata (BuildV2Request v1_request)
       = [("hostname", string_value (subkey v1_request))]
    /\ length (arguments partition)
       = ((if keys v1_request is [] then 0 else 1)
          + (if render_urls v1_request is [] then 0 else 1)
          + (if ad_component_render_urls v1_request is [] then 0 else 1)
          + (if kv_internal v1_request is [] then 0 else 1))%nat
    /\ Forall (fun arg =>
                 UdfClient.arg_data arg = ArgumentMessage arg
                 /\ exists namespace_tag field,
                     FindNamespace (map string_value_of (tags arg))
                     = Value namespace_tag
                     /\ is_Some (response_field namespace_tag empty_response)
                     /\ field <> []
                     /\ data arg = list_value (map string_value field)
                     /\ In (namespace_tag, field)
                           [ (kKeysTag, keys v1_request);
                             (kRenderUrlsTag, render_urls v1_request);
                             (kAdComponentRenderUrlsTag,
                              ad_component_render_urls v1_request);
                             (kKvInternalTag, kv_internal v1_request) ])
              (arguments partition).
Proof.
  eexists. split; [reflexivity |]. split; [reflexivity |].
  cbn [arguments]. split.
  - rewrite !add_arguments_length. cbn [length].
    destruct (keys v1_request), (render_urls v1_request),
      (ad_component_render_urls v1_request), (kv_internal v1_request);
      reflexivity.
  - repeat (apply add_arguments_Forall;
            [| intros Hne; split; [reflexivity |]; do 2 eexists;
               split; [reflexivity |]; split; [eexists; reflexivity |];
               split; [exact Hne |]; split; [reflexivity |];
               cbn; auto 6]).
    constructor.
Qed.

Section WithCollaborators.
Variable JsonStringToMessage : string -> StatusOr ProtoValue.
Variable KeyGroupOutputsFromJson : string -> StatusOr (list KeyGroupOutput).
Variable StatusFromCode : Z -> string -> Status.
Variable FromAbslStatus : Status -> GrpcStatus.
Variable V2GetValues : GetValuesRequest -> GrpcStatus * V2Response.

Local Abbreviation ProcessKeyGroupOutput :=
  (ProcessKeyGroupOutput JsonStringToMessage).
Local Abbreviation ConvertToV1Response :=
  (ConvertToV1Response JsonStringToMessage KeyGroupOutputsFromJson
                       StatusFromCode).
Local Abbreviation CallV2Handler :=
  (CallV2Handler JsonStringToMessage KeyGroupOutputsFromJson StatusFromCode
                 FromAbslStatus V2GetValues).

Lemma ProcessKeyValues_raw kgo (result_struct : gmap string ProtoValue) :
  ProcessKeyValues JsonStringToMessage kgo result_struct
  = WriteRawValues kgo result_struct.
Proof.
  unfold ProcessKeyValues, WriteRawValues. rewrite !map_fold_foldr.
  apply foldr_ProcessKeyValue.
Qed.

(** X19.  [ProcessKeyGroupOutput] leaves the response as it is when the
    tags of the key group output hold no namespace or a namespace that names
    no field of the response.  Otherwise it changes the field that the
    namespace names and no other, and that field then has the raw value of
    every key of the key group output. *)
Theorem ProcessKeyGroupOutput_writes_one_field
        (key_group_output : KeyGroupOutput) (v1_response : V1Response) :
  (forall s, FindNamespace (kgo_tags key_group_output) = Error s ->
             ProcessKeyGroupOutput key_group_output v1_response = v1_response)
  /\ (forall tag_namespace,
        FindNamespace (kgo_tags key_group_output) = Value tag_namespace ->
        response_field tag_namespace v1_response = None ->
        ProcessKeyGroupOutput key_group_output v1_response = v1_response)
  /\ (forall tag_namespace field,
        FindNamespace (kgo_tags key_group_output) = Value tag_namespace ->
        response_field tag_namespace v1_response = Some field ->
        response_field tag_namespace
                       (ProcessKeyGroupOutput key_group_output v1_response)
        = Some (WriteRawValues key_group_output field)
        /\ forall other,
            other <> tag_namespace ->
            response_field other
                           (ProcessKeyGroupOutput key_group_output v1_response)
            = response_field other v1_response).
Proof.
  unfold GetValuesAdapterImpl.ProcessKeyGroupOutput.
  split; [intros s ->; reflexivity |].
  split.
  - intros ns -> Hnone. unfold response_field in Hnone.
    destruct (String.eqb ns kKeysTag); [discriminate |].
    destruct (String.eqb ns kRenderUrlsTag); [discriminate |].
    destruct (String.eqb ns kAdComponentRenderUrlsTag); [discriminate |].
    destruct (String.eqb ns kKvInternalTag); [discriminate | reflexivity].
  - intros ns field -> Hfield. rewrite !ProcessKeyValues_raw.
    unfold response_field in *.
    destruct (String.eqb_spec ns kKeysTag) as [-> | Hk].
    { injection Hfield as <-. cbn. split; [reflexivity |].
      intros other Hother.
      destruct (String.eqb_spec other kKeysTag); [contradiction | reflexivity]. }
    destruct (String.eqb_spec ns kRenderUrlsTag) as [-> | Hr].
    { injection Hfield as <-. cbn. split; [reflexivity |].
      intros other Hother.
      destruct (String.eqb_spec other kRenderUrlsTag); [contradiction |].
      reflexivity. }
    destruct (String.eqb_spec ns kAdComponentRenderUrlsTag) as [-> | Ha].
    { injection Hfield as <-. cbn. split; [reflexivity |].
      intros other Hother.
      destruct (String.eqb_spec other kAdComponentRenderUrlsTag);
        [contradiction | reflexivity]. }
    destruct (String.eqb_spec ns kKvInternalTag) as [-> | Hi];
      [| discriminate].
    injection Hfield as <-. cbn. split; [reflexivity |].
    intros other Hother.
    destruct (String.eqb_spec other kKvInternalTag); [contradiction |].
    reflexivity.
Qed.

Lemma ConvertToV1Response_not_ok (v2_response : V2Response)
      (v1_response : V1Response) :
  (ok (fst (ConvertToV1Response v2_response v1_response)) = false ->
   snd (ConvertToV1Response v2_response v1_response) = v1_response)
  /\ (snd (ConvertToV1Response v2_response v1_response) <> v1_response ->
      fst (ConvertToV1Response v2_response v1_response) = OkStatus).
Proof.
  unfold GetValuesAdapterImpl.ConvertToV1Response.
  destruct (single_partition v2_response) as [[| s | c m] |]; cbn;
    try (split; [reflexivity | contradiction]);
    destruct (KeyGroupOutputsFromJson _); cbn;
    (split; [try reflexivity; discriminate | try contradiction; reflexivity]).
Qed.

(** X20.  Whenever [ConvertToV1Response] returns a status that is not OK,
    the V1 response is as it was.  A V2 response without a single partition
    is an Internal error, a partition that carries a status is turned into
    that status without touching the response, and a partition whose output
    is not set is converted like one whose string output is empty. *)
Theorem ConvertToV1Response_failure_leaves_response
        (v2_response : V2Response) (v1_response : V1Response) :
  (ok (fst (ConvertToV1Response v2_response v1_response)) = false ->
   snd (ConvertToV1Response v2_response v1_response) = v1_response)
  /\ (single_partition v2_response = None ->
      ConvertToV1Response v2_response v1_response
      = (InternalError
           "Bug in KV server! response does not have single_partition set for V1 response.",
         v1_response))
  /\ (forall code message,
        single_partition v2_response
        = Some (partition_status_output code message) ->
        ConvertToV1Response v2_response v1_response
        = (StatusFromCode code message, v1_response))
  /\ (single_partition v2_response = Some partition_output_not_set ->
      ConvertToV1Response v2_response v1_response
      = ConvertToV1Response
          {| single_partition := Some (partition_string_output "") |}
          v1_response).
Proof.
  split; [apply ConvertToV1Response_not_ok |].
  unfold GetValuesAdapterImpl.ConvertToV1Response.
  split; [| split].
  - intros ->. reflexivity.
  - intros c m ->. reflexivity.
  - intros ->. reflexivity.
Qed.

(** X21.  [CallV2Handler] returns the status of the V2 handler when that
    status is not OK, without converting anything, and the converted status
    otherwise.  The V1 response can only have changed when the handler
    succeeded and the conversion returned OK. *)
Theorem CallV2Handler_failure_leaves_response
        (v1_request : V1Request) (v1_response : V1Response) :
  let reply := V2GetValues (BuildV2Request v1_request) in
  let converted := ConvertToV1Response (snd reply) v1_response in
  (grpc_ok (fst reply) = false ->
   CallV2Handler v1_request v1_response = (fst reply, v1_response))
  /\ (grpc_ok (fst reply) = true ->
      CallV2Handler v1_request v1_response
      = (FromAbslStatus (fst converted), snd converted))
  /\ (snd (CallV2Handler v1_request v1_response) <> v1_response ->
      grpc_ok (fst reply) = true /\ fst converted = OkStatus).
Proof.
  intros reply converted. unfold GetValuesAdapterImpl.CallV2Handler.
  fold reply. destruct reply as [status v2_response] eqn:Hreply.
  cbn [fst snd] in *.
  pose proof (proj2 (ConvertToV1Response_not_ok v2_response v1_response))
    as Hok.
  fold converted in Hok.
  destruct (grpc_ok status); cbn [negb].
  - fold converted. destruct converted as [s r]. cbn [fst snd] in *.
    split; [discriminate |]. split; [reflexivity |].
    intros Hne. split; [reflexivity | apply Hok; exact Hne].
  - split; [reflexivity |]. split; [discriminate |].
    cbn. contradiction.
Qed.

End WithCollaborators.
End GetValuesAdapterImplFacts.

(** ** The V1 request handler *)

Module GetValuesHandlerFacts.
Import GetValuesAdapterImpl GetValuesHandler.

Lemma StrSplit_nonempty text d : StrSplit text d <> [].
Proof.
  induction text as [| c rest IH]; cbn [StrSplit]; [discriminate |].
  destruct (Ascii.eqb c d); [discriminate |].
  destruct (StrSplit rest d); [contradiction | discriminate].
Qed.

Lemma StrSplit_app a b d :
  StrSplit (a ++ String d b) d = (StrSplit a d ++ StrSplit b d)%list.
Proof.
  induction a as [| c a IH].
  - change (("" ++ String d b)%string) with (String d b). cbn [StrSplit app].
    rewrite Ascii.eqb_refl. reflexivity.
  - change ((String c a ++ String d b)%string)
      with (String c (a ++ String d b)%string).
    cbn [StrSplit].
    destruct (Ascii.eqb c d); [rewrite IH; reflexivity |].
    rewrite IH. pose proof (StrSplit_nonempty a d).
    destruct (StrSplit a d); [contradiction | reflexivity].
Qed.

Lemma StrSplit_no_delimiter text d :
  (forall c, In c (list_ascii_of_string text) -> c <> d) ->
  StrSplit text d = [text].
Proof.
  induction text as [| c rest IH]; cbn [StrSplit list_ascii_of_string];
    [reflexivity |].
  intros Hno. destruct (Ascii.eqb_spec c d) as [-> | _].
  - exfalso. apply (Hno d); [left; reflexivity | reflexivity].
  - rewrite IH; [reflexivity |]. intros c' Hc'. apply Hno. right. exact Hc'.
Qed.

(** X22.  An entry of the key list that holds keys joined by the delimiter
    is looked up as those keys: the set of keys is the same as if they had
    been listed one by one.  A key without the delimiter is looked up as it
    is, and an entry that ends in the delimiter adds the empty key to the
    lookup. *)
Theorem GetKeys_splits_joined_keys (d : ascii)
        (before after : list string) (k1 k2 : string) :
  GetKeys d (before ++ (k1 ++ String d k2) :: after)
  = GetKeys d (before ++ k1 :: k2 :: after)
  /\ ((forall c, In c (list_ascii_of_string k1) -> c <> d) ->
      GetKeys d [k1] = {[ k1 ]})
  /\ "" ∈ GetKeys d [k1 ++ String d ""].
Proof.
  unfold GetKeys. split; [| split].
  - rewrite !map_app, !concat_app. cbn [map concat].
    rewrite StrSplit_app, <- app_assoc. reflexivity.
  - intros Hno. cbn [map concat]. rewrite StrSplit_no_delimiter by exact Hno.
    cbn. apply (right_id_L ∅ (∪)).
  - cbn [map concat]. rewrite StrSplit_app, app_nil_r.
    rewrite elem_of_list_to_set, elem_of_app. right. cbn [StrSplit].
    apply list_elem_of_In. left. reflexivity.
Qed.

Section WithCollaborators.
Variable kQueryArgDelimiter : ascii.
Variable GetKeyValuePairs : gset string -> gmap string string.
Variable JsonStringToMessage : string -> StatusOr ProtoValue.
Variable CallV2Handler : V1Request -> V1Response -> GrpcStatus * V1Response.

Local Abbreviation GetKeys := (GetKeys kQueryArgDelimiter).
Local Abbreviation ProcessKeys :=
  (ProcessKeys kQueryArgDelimiter GetKeyValuePairs JsonStringToMessage).
Local Abbreviation GetValues :=
  (GetValues kQueryArgDelimiter GetKeyValuePairs JsonStringToMessage
             CallV2Handler).
Local Abbreviation stored_value := (stored_value JsonStringToMessage).

Lemma map_fold_ProcessKey (kv_pairs : gmap string string)
      (result_struct : gmap string ProtoValue) k :
  map_fold (ProcessKey JsonStringToMessage) result_struct kv_pairs !! k
  = match kv_pairs !! k with
    | Some v => Some (stored_value v)
    | None => result_struct !! k
    end.
Proof.
  apply (map_fold_weak_ind
           (fun (r : gmap string ProtoValue) (m : gmap string string) =>
              r !! k = match m !! k with
                       | Some v => Some (stored_value v)
                       | None => result_struct !! k
                       end)).
  - rewrite lookup_empty. reflexivity.
  - intros i x m r Hi IH. unfold ProcessKey, GetValuesHandler.stored_value.
    destruct (decide (i = k)) as [-> | Hne].
    + rewrite lookup_insert_eq.
      destruct (JsonStringToMessage x); rewrite lookup_insert_eq; reflexivity.
    + rewrite lookup_insert_ne by exact Hne.
      destruct (JsonStringToMessage x); rewrite lookup_insert_ne by exact Hne;
        exact IH.
Qed.

(** X23.  For a non-empty key list, [ProcessKeys] asks the cache once, for
    the set of the split keys.  Every key the cache returns ends up in the
    result struct with its value parsed as JSON, or with the value as a
    string when it does not parse; every other field of the struct is kept.
    The counter CacheKeyMiss is incremented when the cache returned nothing
    and CacheKeyHit otherwise. *)
Theorem ProcessKeys_stores_parsed_or_raw (keys : list string)
        (result_struct : gmap string ProtoValue) :
  keys <> [] ->
  let kv_pairs := GetKeyValuePairs (GetKeys keys) in
  (forall k,
     fst (fst (ProcessKeys keys result_struct)) !! k
     = match kv_pairs !! k with
       | Some v => Some (stored_value v)
       | None => result_struct !! k
       end)
  /\ snd (fst (ProcessKeys keys result_struct)) = [GetKeys keys]
  /\ (snd (ProcessKeys keys result_struct) = [kCacheKeyMiss]
      <-> kv_pairs = ∅)
  /\ (snd (ProcessKeys keys result_struct) = [kCacheKeyHit]
      <-> kv_pairs <> ∅).
Proof.
  intros Hne kv_pairs. unfold GetValuesHandler.ProcessKeys.
  destruct keys as [| key keys]; [contradiction |]. fold kv_pairs.
  cbn [fst snd]. split; [intros k; apply map_fold_ProcessKey |].
  split; [reflexivity |].
  destruct (decide (kv_pairs = ∅)) as [He | Hne'].
  - split; [split; auto |]. split; [discriminate | contradiction].
  - split; [split; [discriminate | contradiction] |]. split; auto.
Qed.

(** X24.  With V2 switched on, [GetValues] returns what the adapter
    returns and neither asks the cache nor counts an event.  With V2
    switched off it always returns OK; each field of the response is the
    result of [ProcessKeys] on the field of the request of the same name;
    and the cache is asked once for each non-empty field, kv_internal
    first, then keys, render_urls and ad_component_render_urls, with one
    event counted per lookup. *)
Theorem GetValues_routing (request : V1Request) (response : V1Response) :
  let out := GetValues false request response in
  let out_v2 := GetValues true request response in
  (grpc_status out_v2, v1_response out_v2) = CallV2Handler request response
  /\ cache_lookups out_v2 = [] /\ events out_v2 = []
  /\ grpc_status out = GrpcOk
  /\ response_keys (v1_response out)
     = fst (fst (ProcessKeys (keys request) (response_keys response)))
  /\ response_render_urls (v1_response out)
     = fst (fst (ProcessKeys (render_urls request)
                             (response_render_urls response)))
  /\ response_ad_component_render_urls (v1_response out)
     = fst (fst (ProcessKeys (ad_component_render_urls request)
                             (response_ad_component_render_urls response)))
  /\ response_kv_internal (v1_response out)
     = fst (fst (ProcessKeys (kv_internal request)
                             (response_kv_internal response)))
  /\ cache_lookups out
     = map GetKeys
           (filter (fun field => field <> [])
                   [kv_internal request; keys request; render_urls request;
                    ad_component_render_urls request])
  /\ length (events out) = length (cache_lookups out).
Proof.
  unfold GetValuesHandler.GetValues.
  split; [destruct (CallV2Handler request response); reflexivity |].
  split; [destruct (CallV2Handler request response); reflexivity |].
  split; [destruct (CallV2Handler request response); reflexivity |].
  destruct (kv_internal request) as [| k1 f1],
           (keys request) as [| k2 f2],
           (render_urls request) as [| k3 f3],
           (ad_component_render_urls request) as [| k4 f4];
    cbn; repeat split; reflexivity.
Qed.

End WithCollaborators.

Lemma ProcessKeys_stores_parsed_or_raw_witness :
  (forall k,
     fst (fst (ProcessKeys "," Fixtures.one_key_cache Fixtures.parse_as_number
                           ["key1,key2"] ∅)) !! k
     = match Fixtures.one_key_cache (GetKeys "," ["key1,key2"]) !! k with
       | Some v => Some (stored_value Fixtures.parse_as_number v)
       | None => (∅ : gmap string ProtoValue) !! k
       end)
  /\ snd (fst (ProcessKeys "," Fixtures.one_key_cache
                           Fixtures.parse_as_number ["key1,key2"] ∅))
     = [GetKeys "," ["key1,key2"]]
  /\ (snd (ProcessKeys "," Fixtures.one_key_cache Fixtures.parse_as_number
                       ["key1,key2"] ∅) = [kCacheKeyMiss]
      <-> Fixtures.one_key_cache (GetKeys "," ["key1,key2"]) = ∅)
  /\ (snd (ProcessKeys "," Fixtures.one_key_cache Fixtures.parse_as_number
                       ["key1,key2"] ∅) = [kCacheKeyHit]
      <-> Fixtures.one_key_cache (GetKeys "," ["key1,key2"]) <> ∅).
Proof.
  apply (ProcessKeys_stores_parsed_or_raw "," Fixtures.one_key_cache
           Fixtures.parse_as_number ["key1,key2"] ∅).
  discriminate.
Defined.

End GetValuesHandlerFacts.

(** ** The retrieval request builder *)

Module RetrievalRequestBuilderFacts.
Import GetValuesV2Handler RetrievalRequestBuilder UdfClient.

(** X25.  A retrieval request has one partition with four arguments, none
    of them tagged, so the UDF client passes each one to the UDF as its bare
    data: the UDF is called with the JSON of the metadata followed by the
    JSON of the protected signals, the device metadata, the contextual
    signals and the ad ids.  The device metadata and the ad ids have no data
    at all, rather than an empty struct or list, exactly when they are
    empty. *)
Theorem BuildRetrievalRequest_arguments
        (MessageToJsonString : Message -> StatusOr string)
        (execution_metadata : UDFExecutionMetadata)
        (protected_signals contextual_signals : string)
        (device_metadata : gmap string string)
        (optional_ad_ids : list string) (string_args : list string) :
  exists partition,
    retrieval_partitions
      (BuildRetrievalRequest protected_signals device_metadata
                             contextual_signals optional_ad_ids)
    = [partition]
    /\ length (arguments partition) = 4%nat
    /\ Forall (fun arg => arg_data arg = ValueMessage (data arg))
              (arguments partition)
    /\ (BuildStringArgs MessageToJsonString execution_metadata
                        (arguments partition) = Value string_args
        <-> exists json_metadata j1 j2 j3 j4,
            string_args = [json_metadata; j1; j2; j3; j4]
            /\ MessageToJsonString
                 (MetadataMessage
                    (set_udf_interface_version kUdfInterfaceVersion
                                               execution_metadata))
               = Value json_metadata
            /\ MessageToJsonString (ValueMessage (string_value protected_signals))
               = Value j1
            /\ MessageToJsonString
                 (ValueMessage (device_metadata_data device_metadata))
               = Value j2
            /\ MessageToJsonString
                 (ValueMessage (string_value contextual_signals))
               = Value j3
            /\ MessageToJsonString (ValueMessage (ad_ids_data optional_ad_ids))
               = Value j4)
    /\ (device_metadata = ∅ <-> device_metadata_data device_metadata = kind_not_set)
    /\ (optional_ad_ids = [] <-> ad_ids_data optional_ad_ids = kind_not_set).
Proof.
  eexists. split; [reflexivity |]. cbn [arguments].
  split; [reflexivity |]. split; [repeat constructor |]. split; [| split].
  - unfold BuildStringArgs. cbn [SerializeArguments arg_data untagged tags data].
    destruct (MessageToJsonString (MetadataMessage _)) as [jm | s].
    + cbn [SerializeArguments arg_data untagged tags data].
      destruct (MessageToJsonString (ValueMessage (string_value protected_signals)))
        as [j1 | s1];
        [| split; [discriminate
                  | intros (? & ? & ? & ? & ? & _ & _ & ? & _); discriminate]].
      destruct (MessageToJsonString
                  (ValueMessage (device_metadata_data device_metadata)))
        as [j2 | s2];
        [| split; [discriminate
                  | intros (? & ? & ? & ? & ? & _ & _ & _ & ? & _); discriminate]].
      destruct (MessageToJsonString
                  (ValueMessage (string_value contextual_signals)))
        as [j3 | s3];
        [| split; [discriminate
                  | intros (? & ? & ? & ? & ? & _ & _ & _ & _ & ? & _);
                    discriminate]].
      destruct (MessageToJsonString (ValueMessage (ad_ids_data optional_ad_ids)))
        as [j4 | s4];
        [| split; [discriminate
                  | intros (? & ? & ? & ? & ? & _ & _ & _ & _ & _ & ?);
                    discriminate]].
      cbn. split.
      * intros [= <-]. exists jm, j1, j2, j3, j4. repeat split; reflexivity.
      * intros (? & ? & ? & ? & ? & -> & [= <-] & [= <-] & [= <-] & [= <-]
                & [= <-]). reflexivity.
    + split; [discriminate |].
      intros (? & ? & ? & ? & ? & _ & ? & _); discriminate.
  - unfold device_metadata_data. split.
    + intros ->. rewrite map_to_list_empty. reflexivity.
    + destruct (map_to_list device_metadata) eqn:Hl; [| discriminate].
      intros _. apply map_to_list_empty_iff. exact Hl.
  - unfold ad_ids_data. destruct optional_ad_ids; split;
      try reflexivity; discriminate.
Qed.

End RetrievalRequestBuilderFacts.

(** ** The GCP parameter client *)

Module GcpParameterClientFacts.
Import GcpParameterClient.

Section WithCpio.
Variable CpioGetParameter : string -> GetParameterOutcome.
Variable GetErrorMessage : Z -> string.
Variable SimpleAtoi : string -> option Z.
Variable SimpleAtob : string -> option bool.

Local Abbreviation GetParameter :=
  (GetParameter CpioGetParameter GetErrorMessage).
Local Abbreviation GetInt32Parameter :=
  (GetInt32Parameter CpioGetParameter GetErrorMessage SimpleAtoi).
Local Abbreviation GetBoolParameter :=
  (GetBoolParameter CpioGetParameter GetErrorMessage SimpleAtob).


End WithCpio.


End GcpParameterClientFacts.

(** ** Listing blobs *)

Module BlobStorageFacts.
Import BlobStorage.

Lemma string_le_total : Total string_le.
Proof. intros a b. apply String.leb_total. Qed.

Lemma Gcp_ListBlobsLoop_elem reader start_after keys name :
  name ∈ Gcp.ListBlobsLoop reader start_after keys
  <-> name ∈ keys \/ (Value name ∈ reader /\ name <> start_after).
Proof.
  revert keys. induction reader as [| [n | e] reader IH]; intros keys; cbn.
  - split; [auto |]. intros [H | [H _]]; [exact H | inversion H].
  - destruct (String.eqb_spec n start_after) as [-> | Hne]; rewrite IH.
    + rewrite elem_of_cons. split.
      * intros [H | [H Hn]]; auto.
      * intros [H | [[[= ->] | H] Hn]]; auto. contradiction.
    + rewrite elem_of_app, list_elem_of_singleton, elem_of_cons. split.
      * intros [[H | ->] | [H Hn]]; auto.
      * intros [H | [[[= ->] | H] Hn]]; auto.
  - rewrite IH, elem_of_cons. split.
    + intros [H | [H Hn]]; auto.
    + intros [H | [[H | H] Hn]]; auto. discriminate.
Qed.

(** X27.  On GCP, [ListBlobs] always succeeds.  The keys it returns are
    sorted; they are the names that the listing yielded without error, minus
    the name equal to [start_after], which is never returned; objects whose
    entry is an error are left out. *)
Theorem Gcp_ListBlobs_sorted_without_start
        (ListObjects : string -> string -> string -> list (StatusOr string))
        (location : DataLocation) (options : ListOptions) :
  exists keys,
    Gcp.ListBlobs ListObjects location options = Value keys
    /\ Sorted string_le keys
    /\ ~ (start_after options ∈ keys)
    /\ forall name,
        name ∈ keys
        <-> Value name ∈ ListObjects (bucket location) (prefix options)
                                     (start_after options)
            /\ name <> start_after options.
Proof.
  unfold Gcp.ListBlobs.
  set (reader := ListObjects _ _ _).
  assert (Hin : forall name,
             name ∈ sort (Gcp.ListBlobsLoop reader (start_after options) [])
             <-> Value name ∈ reader /\ name <> start_after options).
  { intros name. unfold sort. rewrite merge_sort_Permutation.
    rewrite Gcp_ListBlobsLoop_elem. split.
    - intros [H | H]; [inversion H | exact H].
    - auto. }
  destruct reader as [| r rest] eqn:Hr.
  - exists []. split; [reflexivity |]. split; [constructor |].
    split; [intros H; inversion H |].
    intros name. split; [intros H; inversion H | intros [H _]; inversion H].
  - eexists. split; [reflexivity |].
    split; [apply Sorted_merge_sort; exact string_le_total |].
    split; [| exact Hin].
    intros H. apply Hin in H as [_ H]. contradiction.
Qed.

Section S3Facts.
Variable AwsError : Type.
Variable ListObjectsV2
  : S3.ListObjectsV2Request -> S3.ListObjectsV2Outcome AwsError.
Variable AwsErrorToStatus : AwsError -> Status.

Lemma S3_ListBlobsLoop_pages pages :
  forall fuel request keys,
    S3.pages_from AwsError ListObjectsV2 request pages ->
    (length pages <= fuel)%nat ->
    S3.ListBlobsLoop AwsError ListObjectsV2 AwsErrorToStatus fuel request keys
    = Some (Value (keys ++ concat (map fst pages))%list).
Proof.
  induction pages as [| [contents token] pages IH]; intros fuel request keys;
    [contradiction |].
  destruct fuel as [| fuel]; [cbn; lia |].
  destruct pages as [| page pages].
  - cbn. intros -> _. rewrite app_nil_r. reflexivity.
  - intros [Hpage Hrest] Hfuel.
    cbn [S3.ListBlobsLoop]. rewrite Hpage. cbn [negb].
    rewrite (IH fuel _ _ Hrest) by (cbn in Hfuel |- *; lia).
    cbn [map concat fst]. rewrite <- app_assoc. reflexivity.
Qed.

Lemma S3_ListBlobsLoop_failure pages e :
  forall fuel request keys,
    S3.pages_then_failure AwsError ListObjectsV2 request pages e ->
    (length pages < fuel)%nat ->
    S3.ListBlobsLoop AwsError ListObjectsV2 AwsErrorToStatus fuel request keys
    = Some (Error (AwsErrorToStatus e)).
Proof.
  induction pages as [| [contents token] pages IH]; intros fuel request keys.
  - destruct fuel as [| fuel]; [cbn; lia |]. cbn. intros -> _. reflexivity.
  - destruct fuel as [| fuel]; [cbn; lia |].
    intros [Hpage Hrest] Hfuel. cbn [S3.ListBlobsLoop]. rewrite Hpage.
    cbn [negb]. apply IH; [exact Hrest | cbn in Hfuel; lia].
Qed.

(** X28.  On S3, when the service answers with pages of which only the
    last one is not truncated, each requested with the continuation token
    of the page before, [ListBlobs] returns the keys of all pages in the
    order received, given enough requests.  When the service fails after
    some truncated pages, the error is returned and the keys already
    received are dropped. *)
Theorem S3_ListBlobs_joins_pages (fuel : nat) (location : DataLocation)
        (options : ListOptions) (pages : list (list string * string))
        (e : AwsError) :
  (S3.pages_from AwsError ListObjectsV2 (S3.BuildRequest location options)
                 pages ->
   (length pages <= fuel)%nat ->
   S3.ListBlobs AwsError ListObjectsV2 AwsErrorToStatus fuel location options
   = Some (Value (concat (map fst pages))))
  /\ (S3.pages_then_failure AwsError ListObjectsV2
                            (S3.BuildRequest location options) pages e ->
      (length pages < fuel)%nat ->
      S3.ListBlobs AwsError ListObjectsV2 AwsErrorToStatus fuel location
                   options
      = Some (Error (AwsErrorToStatus e))).
Proof.
  unfold S3.ListBlobs. split.
  - intros Hpages Hfuel.
    rewrite (S3_ListBlobsLoop_pages pages fuel _ [] Hpages Hfuel).
    reflexivity.
  - intros Hpages Hfuel. apply (S3_ListBlobsLoop_failure pages e); assumption.
Qed.

End S3Facts.

Lemma S3_ListBlobs_joins_pages_witness :
  S3.ListBlobs unit Fixtures.two_pages (fun _ => OkStatus) 2
               Fixtures.some_location Fixtures.no_options
  = Some (Value (concat (map fst [(["b"; "a"], "page2"); (["c"], "")]))).
Proof.
  apply (proj1 (S3_ListBlobs_joins_pages unit Fixtures.two_pages
                  (fun _ => OkStatus) 2 Fixtures.some_location
                  Fixtures.no_options
                  [(["b"; "a"], "page2"); (["c"], "")] tt)).
  - split; reflexivity.
  - cbn. lia.
Defined.

End BlobStorageFacts.

(** ** The sample run-query UDF *)

Module RunQueryUdfFacts.
Import RunQueryUdf.

Section WithHost.
Variable runQuery : JsValue -> JsValue.

Lemma HandleKeyGroup_spec keyGroup outputs :
  (inspectable keyGroup = false
   /\ HandleKeyGroup runQuery keyGroup outputs = None)
  \/ (inspectable keyGroup = true
      /\ (HandleKeyGroup runQuery keyGroup outputs = Some outputs
          \/ exists output,
              is_output_of runQuery keyGroup output
              /\ HandleKeyGroup runQuery keyGroup outputs
                 = Some (outputs ++ [output])%list)).
Proof.
  unfold HandleKeyGroup, inspectable, is_output_of.
  destruct (get "tags" keyGroup) as [tags |] eqn:Htags; cbn; [| left; auto].
  destruct tags as [| | b | z | s | items | props]; cbn; try (left; auto; fail).
  - right. split; [reflexivity |].
    destruct (string_includes "custom" s) eqn:Hc; cbn; [| left; reflexivity].
    destruct (string_includes "queries" s) eqn:Hq; cbn; [| left; reflexivity].
    assert (Hdata : exists data, get "data" keyGroup = Some data).
    { destruct keyGroup; try discriminate; cbn; eauto. }
    destruct Hdata as [data Hdata]. rewrite Hdata. cbn.
    destruct (non_empty_array data) eqn:Hd; cbn; [| left; reflexivity].
    destruct (non_empty_array (runQuery (first_item data))) eqn:Hr;
      [| left; reflexivity].
    right. eexists. split; [| reflexivity].
    exists (JsString s), data. cbn. rewrite Hc, Hq. auto 10.
  - right. split; [reflexivity |].
    destruct (existsb (is_string "custom") items) eqn:Hc; cbn;
      [| left; reflexivity].
    destruct (existsb (is_string "queries") items) eqn:Hq; cbn;
      [| left; reflexivity].
    assert (Hdata : exists data, get "data" keyGroup = Some data).
    { destruct keyGroup; try discriminate; cbn; eauto. }
    destruct Hdata as [data Hdata]. rewrite Hdata. cbn.
    destruct (non_empty_array data) eqn:Hd; cbn; [| left; reflexivity].
    destruct (non_empty_array (runQuery (first_item data))) eqn:Hr;
      [| left; reflexivity].
    right. eexists. split; [| reflexivity].
    exists (JsArray items), data. cbn. rewrite Hc, Hq. auto 10.
Qed.

Lemma HandleKeyGroups_spec input :
  forall outputs,
    (Exists (fun keyGroup => inspectable keyGroup = false) input
     /\ HandleKeyGroups runQuery input outputs = None)
    \/ (Forall (fun keyGroup => inspectable keyGroup = true) input
        /\ exists new,
            HandleKeyGroups runQuery input outputs = Some (outputs ++ new)%list
            /\ (length new <= length input)%nat
            /\ Forall (fun output =>
                         exists keyGroup, In keyGroup input
                                          /\ is_output_of runQuery keyGroup
                                                          output) new).
Proof.
  induction input as [| keyGroup input IH]; intros outputs; cbn.
  - right. split; [constructor |]. exists []. rewrite app_nil_r.
    split; [reflexivity |]. split; [cbn; lia | constructor].
  - destruct (HandleKeyGroup_spec keyGroup outputs)
      as [[Hbad ->] | [Hgood Hstep]]; cbn.
    + left. split; [constructor; exact Hbad | reflexivity].
    + assert (Hnext : exists added,
                 HandleKeyGroup runQuery keyGroup outputs
                 = Some (outputs ++ added)%list
                 /\ (length added <= 1)%nat
                 /\ Forall (is_output_of runQuery keyGroup) added).
      { destruct Hstep as [-> | (output & Hout & ->)].
        - exists []. rewrite app_nil_r. split; [reflexivity |].
          split; [cbn; lia | constructor].
        - exists [output]. split; [reflexivity |]. split; [cbn; lia |].
          constructor; [exact Hout | constructor]. }
      destruct Hnext as (added & -> & Hlen & Hadded). cbn.
      destruct (IH (outputs ++ added)%list)
        as [[Hbad ->] | (Hall & new & -> & Hlen' & Hnew)].
      * left. split; [apply Exists_cons_tl; exact Hbad | reflexivity].
      * right. split; [constructor; assumption |].
        exists (added ++ new)%list. rewrite app_assoc.
        split; [reflexivity |]. split; [rewrite length_app; cbn; lia |].
        apply Forall_app. split.
        -- eapply Forall_impl; [exact Hadded |]. cbn. intros o Ho.
           exists keyGroup. auto.
        -- eapply Forall_impl; [exact Hnew |]. cbn.
           intros o (kg & Hkg & Ho). exists kg. auto.
Qed.

(** X29.  [HandleRequest] throws exactly when some key group of the input
    is undefined or null or has tags that are neither an array nor a
    string.  When it returns, the result has udfOutputApiVersion 1 and at
    most one key group output per key group of the input; each output
    belongs to a key group whose tags include "custom" and "queries" and
    whose data is a non-empty array, carries the tags of that key group,
    and holds under keyValues.result.value the non-empty array that
    runQuery returned for the first item of the data. *)
Theorem HandleRequest_outputs (executionMetadata : JsValue)
        (input : list JsValue) :
  (HandleRequest runQuery executionMetadata input = None
   <-> Exists (fun keyGroup => inspectable keyGroup = false) input)
  /\ forall response,
      HandleRequest runQuery executionMetadata input = Some response ->
      exists keyGroupOutputs,
        response = JsObject [("keyGroupOutputs", JsArray keyGroupOutputs);
                             ("udfOutputApiVersion", JsNumber 1)]
        /\ (length keyGroupOutputs <= length input)%nat
        /\ Forall (fun output =>
                     exists keyGroup, In keyGroup input
                                      /\ is_output_of runQuery keyGroup output)
                  keyGroupOutputs.
Proof.
  unfold HandleRequest.
  destruct (HandleKeyGroups_spec input [])
    as [[Hbad ->] | (Hall & new & -> & Hlen & Hnew)]; cbn.
  - split; [split; auto |]. discriminate.
  - split.
    + split; [discriminate |]. intros Hbad. exfalso.
      apply Exists_exists in Hbad as (kg & Hin & Hkg).
      rewrite Forall_forall in Hall. rewrite (Hall kg Hin) in Hkg.
      discriminate.
    + intros response [= <-]. exists new. auto.
Qed.

End WithHost.

(** A query key group is answered; a bare string among the arguments makes
    the handler throw. *)
Example HandleRequest_sample :
  HandleRequest Fixtures.two_ads JsUndefined [Fixtures.query_key_group]
  = Some (JsObject
            [("keyGroupOutputs",
              JsArray
                [JsObject
                   [("tags", JsArray [JsString "custom"; JsString "queries"]);
                    ("keyValues",
                     JsObject
                       [("result",
                         JsObject
                           [("value",
                             JsArray [JsString "ad1"; JsString "ad2"])])])]]);
             ("udfOutputApiVersion", JsNumber 1)])
  /\ HandleRequest Fixtures.two_ads JsUndefined
                   [Fixtures.query_key_group; JsString "ECHO"]
     = None.
Proof. split; reflexivity. Qed.

End RunQueryUdfFacts.

(** ** Server initializers *)

Module ServerInitializerFacts.
Import GetValuesHook ServerInitializer.

Section WithCollaborators.
Variable RunQueryHook : Type.
Variable RunQueryFinishInit : option Lookup -> RunQueryHook -> RunQueryHook.
Variable ShardManagerState : Type.
Variable empty_shard_manager_state : ShardManagerState.
Variable CreateLocalLookup : nat -> option Lookup.
Variable CreateShardedLookup : ShardManagerState -> nat -> option Lookup.
Variable CreateShardManager : StatusOr ShardManagerState.

Local Abbreviation InitializeUdfHooks :=
  (InitializeUdfHooks RunQueryHook RunQueryFinishInit ShardManagerState
                      empty_shard_manager_state CreateLocalLookup
                      CreateShardedLookup CreateShardManager).

Lemma FinishInit_lookup lookup self :
  lookup_ (FinishInit lookup self)
  = match lookup_ self with Some l => Some l | None => lookup end
  /\ output_type_ (FinishInit lookup self) = output_type_ self.
Proof.
  unfold FinishInit. destruct (lookup_ self) eqn:H; cbn; [| auto].
  rewrite H. auto.
Qed.

(** X30.  [InitializeUdfHooks] of the initializer chosen for [num_shards]
    never changes the output type of a hook and never replaces a lookup a
    hook already has.  With one shard it always succeeds.  When it
    succeeds, each getValues hook that had no lookup has the one the lookup
    supplier returned for it, the local lookup with one shard and the
    sharded lookup otherwise.  It fails only with more than one shard, with
    the error of the shard manager, and then leaves all hooks as they
    were. *)
Theorem InitializeUdfHooks_effect (num_shards : Z)
        (self : ServerInitializerKind) (hooks : Hooks RunQueryHook) :
  GetServerInitializer num_shards = Some self ->
  let out := InitializeUdfHooks self hooks in
  (num_shards = 1 -> is_value (fst out) = true)
  /\ output_type_ (string_get_values_hook (snd out))
     = output_type_ (string_get_values_hook hooks)
  /\ output_type_ (binary_get_values_hook (snd out))
     = output_type_ (binary_get_values_hook hooks)
  /\ (forall s, fst out = Error s ->
                snd out = hooks /\ 1 < num_shards
                /\ CreateShardManager = Error s)
  /\ (forall state, fst out = Value state ->
        let get_lookup :=
          match self with
          | NonshardedServerInitializer => CreateLocalLookup
          | ShardedServerInitializer => CreateShardedLookup state
          end in
        lookup_ (string_get_values_hook (snd out))
        = match lookup_ (string_get_values_hook hooks) with
          | Some l => Some l
          | None => get_lookup 0%nat
          end
        /\ lookup_ (binary_get_values_hook (snd out))
           = match lookup_ (binary_get_values_hook hooks) with
             | Some l => Some l
             | None => get_lookup 1%nat
             end
        /\ run_query_hook (snd out)
           = RunQueryFinishInit (get_lookup 2%nat) (run_query_hook hooks)).
Proof.
  intros Hkind out. unfold GetServerInitializer in Hkind.
  destruct (Z.gtb_spec num_shards 0) as [Hpos |]; cbn [negb] in Hkind;
    [| discriminate].
  destruct (Z.eqb_spec num_shards 1) as [-> | Hne]; injection Hkind as <-;
    subst out; unfold ServerInitializer.InitializeUdfHooks,
      InitializeUdfHooksInternal.
  - cbn [fst snd string_get_values_hook binary_get_values_hook run_query_hook].
    split; [reflexivity |].
    split; [apply FinishInit_lookup |]. split; [apply FinishInit_lookup |].
    split; [discriminate |]. intros state _. cbn.
    split; [apply FinishInit_lookup |]. split; [apply FinishInit_lookup |].
    reflexivity.
  - destruct CreateShardManager as [state | s];
      cbn [fst snd string_get_values_hook binary_get_values_hook
               run_query_hook].
    + split; [contradiction |].
      split; [apply FinishInit_lookup |]. split; [apply FinishInit_lookup |].
      split; [discriminate |]. intros state' [= <-]. cbn.
      split; [apply FinishInit_lookup |]. split; [apply FinishInit_lookup |].
      reflexivity.
    + split; [contradiction |]. split; [reflexivity |].
      split; [reflexivity |]. split.
      * intros s' [= <-]. split; [reflexivity |]. split; [lia | reflexivity].
      * discriminate.
Qed.

End WithCollaborators.

Lemma InitializeUdfHooks_effect_witness :
  (2 = 1 ->
   is_value
     (fst (InitializeUdfHooks unit (fun _ h => h) unit tt
             (fun _ => Some Fixtures.empty_lookup)
             (fun _ _ => Some Fixtures.broken_lookup)
             Fixtures.no_shard_manager ShardedServerInitializer
             Fixtures.fresh_hooks)) = true)
  /\ output_type_
       (string_get_values_hook
          (snd (InitializeUdfHooks unit (fun _ h => h) unit tt
                  (fun _ => Some Fixtures.empty_lookup)
                  (fun _ _ => Some Fixtures.broken_lookup)
                  Fixtures.no_shard_manager ShardedServerInitializer
                  Fixtures.fresh_hooks)))
     = kString
  /\ output_type_
       (binary_get_values_hook
          (snd (InitializeUdfHooks unit (fun _ h => h) unit tt
                  (fun _ => Some Fixtures.empty_lookup)
                  (fun _ _ => Some Fixtures.broken_lookup)
                  Fixtures.no_shard_manager ShardedServerInitializer
                  Fixtures.fresh_hooks)))
     = kBinary
  /\ (forall s,
        fst (InitializeUdfHooks unit (fun _ h => h) unit tt
               (fun _ => Some Fixtures.empty_lookup)
               (fun _ _ => Some Fixtures.broken_lookup)
               Fixtures.no_shard_manager ShardedServerInitializer
               Fixtures.fresh_hooks) = Error s ->
        snd (InitializeUdfHooks unit (fun _ h => h) unit tt
               (fun _ => Some Fixtures.empty_lookup)
               (fun _ _ => Some Fixtures.broken_lookup)
               Fixtures.no_shard_manager ShardedServerInitializer
               Fixtures.fresh_hooks) = Fixtures.fresh_hooks
        /\ 1 < 2
        /\ Fixtures.no_shard_manager = Error s).
Proof.
  pose proof (InitializeUdfHooks_effect unit (fun _ h => h) unit tt
                (fun _ => Some Fixtures.empty_lookup)
                (fun _ _ => Some Fixtures.broken_lookup)
                Fixtures.no_shard_manager 2 ShardedServerInitializer
                Fixtures.fresh_hooks eq_refl) as (H1 & H2 & H3 & H4 & _).
  split; [exact H1 |]. split; [exact H2 |]. split; [exact H3 | exact H4].
Defined.

End ServerInitializerFacts.
